(** * Balance tracker: a shallow embedding of [main.go] and its properties.

    The program polls wallet balances on EVM, ICON and Cosmos networks,
    scales them by the network's decimals and compares them with a
    configured threshold; a balance below the threshold raises an alert on a
    Discord webhook.

    Layout of the development:
    - [strings]: the three functions of Go's [strings] package the program
      calls, on byte strings;
    - [big]: the part of Go's [math/big] the program calls ([Int.SetString],
      [Int.Exp], [Float.SetInt], [Float.Quo], [Float.Cmp], [Float.SetString]);
    - the program: its data, the world it talks to (a class of oracles), a
      monad for its state, panics and [log.Fatal], and its functions;
    - the vocabulary of the properties: the rational value of a [Float],
      numerals, case folding, observations on a run, a scripted world;
    - the properties. *)

From Stdlib Require Import ZArith QArith Qpower Qabs Lia Lqa List Bool String Ascii.
Import ListNotations.

Local Open Scope string_scope.
Local Open Scope Z_scope.

(** ** Bytes *)

(** A Go string is a sequence of bytes; [ascii] is a byte. *)
Definition code (c : ascii) : Z := Z.of_N (N_of_ascii c).

Definition of_code (n : Z) : ascii := ascii_of_N (Z.to_N n).

Definition between (lo hi : ascii) (c : ascii) : bool :=
  (code lo <=? code c) && (code c <=? code hi).

(** [utf8.RuneSelf] is 0x80: bytes below it are the ASCII characters. *)
Definition RuneSelf : Z := 128.

Definition is_ascii (s : string) : Prop :=
  Forall (fun c => code c < RuneSelf) (list_ascii_of_string s).

(** ** Package [strings] *)

Module strings.

(** [strings.TrimPrefix(s, prefix)]: [s] without the leading [prefix], or
    [s] itself when it does not start with [prefix]. *)
Fixpoint HasPrefix (s prefix : string) {struct prefix} : option string :=
  match prefix, s with
  | EmptyString, _ => Some s
  | String p prefix', String c s' =>
      if Ascii.eqb p c then HasPrefix s' prefix' else None
  | String _ _, EmptyString => None
  end.

Definition TrimPrefix (s prefix : string) : string :=
  match HasPrefix s prefix with
  | Some rest => rest
  | None => s
  end.

(** [strings.ToUpper] on its ASCII path: ['a'..'z'] lose 0x20.  (On a
    string with a byte of 0x80 or more Go maps runes through
    [unicode.ToUpper]; here such a byte is left as it is, and the
    properties below are stated for ASCII strings.) *)
Definition upper (c : ascii) : ascii :=
  if between "a" "z" c then of_code (code c - 32) else c.

Fixpoint ToUpper (s : string) : string :=
  match s with
  | EmptyString => EmptyString
  | String c s' => String (upper c) (ToUpper s')
  end.

(** [strings.EqualFold], the ASCII loop of the Go function: bytes are
    compared pairwise; two different bytes still agree when the smaller is
    an upper-case letter and the larger is the same letter in lower case;
    at the end both strings must be exhausted. *)
Definition fold_eq (sr tr : ascii) : bool :=
  if Ascii.eqb tr sr then true
  else
    let lo := if code tr <? code sr then tr else sr in
    let hi := if code tr <? code sr then sr else tr in
    between "A" "Z" lo && (code hi =? code lo + 32).

Fixpoint EqualFold (s t : string) : bool :=
  match s, t with
  | EmptyString, EmptyString => true
  | String sr s', String tr t' =>
      if fold_eq sr tr then EqualFold s' t' else false
  | _, _ => false
  end.

End strings.

(** ** Package [math/big]: integers *)

Module big.

(** [big.Int] is an unbounded integer: [Z]. *)
Definition Int := Z.

(** [x.BitLen()]: the length of [|x|] in bits, 0 for 0. *)
Definition BitLen (x : Int) : Z :=
  match x with
  | Z0 => 0
  | Zpos p | Zneg p => Z.pos (Pos.size p)
  end.

(** [new(big.Int).Exp(x, y, nil)] is [x^y], and 1 when [y <= 0]. *)
Definition Exp (x y : Int) : Int :=
  if y <=? 0 then 1 else x ^ y.

(** The digit value of a byte in [nat.scan]: letters count from 10 in
    either case (the bases used here are at most 36); any other byte gets
    [MaxBase + 1], which is a digit of no base. *)
Definition MaxBase : Z := 62.

Definition digitVal (ch : ascii) : Z :=
  if between "0" "9" ch then code ch - code "0"
  else if between "a" "z" ch then code ch - code "a" + 10
  else if between "A" "Z" ch then code ch - code "A" + 10
  else MaxBase + 1.

(** [scanSign]: one byte is read; ['-'] and ['+'] are consumed, any other
    byte is put back.  On the empty input the read fails. *)
Definition scanSign (s : string) : option (bool * string) :=
  match s with
  | EmptyString => None
  | String ch rest =>
      if Ascii.eqb ch "-" then Some (true, rest)
      else if Ascii.eqb ch "+" then Some (false, rest)
      else Some (false, s)
  end.

(** The digit loop of [nat.scan] for a fixed base [b] (no prefix, no
    separators, no radix point): digits are accumulated until the first
    byte that is not a digit of the base, which is left unread.  The
    result is the value, the number of digits and the unread rest. *)
Fixpoint scanDigits (b : Z) (s : string) (acc : Z) (count : nat)
  : Z * nat * string :=
  match s with
  | EmptyString => (acc, count, EmptyString)
  | String ch rest =>
      let d1 := digitVal ch in
      if b <=? d1 then (acc, count, s)
      else scanDigits b rest (acc * b + d1) (S count)
  end.

(** [z.SetString(s, base)] for a base other than 0.  The first component
    is the receiver [z] after the call, the second the success flag.

    As in Go: [Int.scan] reads the sign and the digits and stores them in
    the receiver; a missing digit is an error, after which the receiver's
    magnitude is 0.  Then [setFromScanner] demands the end of the input:
    when bytes are left the call fails, and the receiver keeps the number
    that was scanned before them. *)
Definition SetString (z : Int) (s : string) (base : Z) : Int * bool :=
  match scanSign s with
  | None => (z, false)
  | Some (neg, r) =>
      let '(abs, count, rest) := scanDigits base r 0 O in
      match count with
      | O => (0, false)
      | S _ =>
          let z' := if neg then - abs else abs in
          match rest with
          | EmptyString => (z', true)
          | String _ _ => (z', false)
          end
      end
  end.

(** ** Package [math/big]: floating-point numbers *)

(** A [big.Float] is [sign * mantissa * 2^exponent] with a precision
    [prec] (the number of mantissa bits a result is rounded to), a zero or
    an infinity.  Go keeps the form, the mantissa and the exponent in
    separate fields; here the form carries them.  [finite m e] is
    [m * 2^e]: the exponent counts from the mantissa's lowest bit, so Go's
    own exponent field (which counts from the bit above the highest) is
    [e + Pos.size m], see [goExp].  The rounding mode is Go's default,
    [ToNearestEven], throughout. *)
Inductive form : Type :=
| zero
| finite (mant : positive) (exp : Z)
| inf.

Record Float : Type := mkFloat { prec : Z; neg : bool; val : form }.

(** The exponent range of a [Float] ([int32]). *)
Definition MaxExp : Z := 2147483647.
Definition MinExp : Z := -2147483648.

Definition goExp (m : positive) (e : Z) : Z := e + Z.pos (Pos.size m).

(** [z.round(sbit)]: a mantissa longer than [p] bits is cut to its [p]
    leading bits.  [rbit] is the first bit cut off, the sticky bit says
    whether anything below it is set ([sbit] stands for bits that were
    never computed).  The cut mantissa is incremented when [rbit] is set
    and either the sticky bit is set or the cut mantissa is odd; when the
    increment carries out of the [p] bits the exponent grows by one, and
    the result is an infinity if the exponent is already [MaxExp]. *)
Definition round (p : Z) (m : positive) (e : Z) (sbit : bool) : form :=
  let bits := Z.pos (Pos.size m) in
  if bits <=? p then finite m e
  else
    let r := bits - p - 1 in
    let rbit := Z.testbit (Z.pos m) r in
    let sbit := sbit || negb (Z.pos m mod 2 ^ r =? 0) in
    let q := Z.shiftr (Z.pos m) (r + 1) in
    let inc := rbit && (sbit || Z.odd q) in
    if inc then
      if (q + 1 =? 2 ^ p) && (MaxExp <=? goExp m e) then inf
      else finite (Z.to_pos (q + 1)) (e + r + 1)
    else finite (Z.to_pos q) (e + r + 1).

(** [z.setExpAndRound(exp, sbit)]: underflow gives a zero, overflow an
    infinity, anything else is rounded. *)
Definition setExpAndRound (p : Z) (m : positive) (e : Z) (sbit : bool)
  : form :=
  if goExp m e <? MinExp then zero
  else if MaxExp <? goExp m e then inf
  else round p m e sbit.

(** The precision of a result: the receiver's, and when that is 0 (a
    [new(big.Float)]) the larger of the operands'. *)
Definition resultPrec (zprec : Z) (x y : Float) : Z :=
  if zprec =? 0 then Z.max (prec x) (prec y) else zprec.

(** [new(big.Float).SetInt(x)]: the precision becomes
    [max(x.BitLen(), 64)], so that the value is [x] itself. *)
Definition SetInt (x : Int) : Float :=
  let bits := BitLen x in
  let p := Z.max bits 64 in
  mkFloat p (x <? 0)
    match x with
    | Z0 => zero
    | Zpos m | Zneg m => setExpAndRound p m 0 false
    end.

(** [z.SetUint64(x)] on a receiver of precision [zprec]. *)
Definition SetUint64 (zprec : Z) (x : Z) : Float :=
  let p := if zprec =? 0 then 64 else zprec in
  mkFloat p false
    match x with
    | Zpos m => setExpAndRound p m 0 false
    | _ => zero
    end.

(** [z.uquo(x, y)]: the dividend's mantissa is extended by zeros until the
    integer quotient has more than [p] bits, so that it holds the rounding
    bit; a remainder that is not zero is the sticky bit.  (Go extends by
    whole words; any extension that is long enough rounds to the same
    result.) *)
Definition uquo (p : Z) (mx : positive) (ex : Z) (my : positive) (ey : Z)
  : form :=
  let k := Z.max 0 (p + 1 + Z.pos (Pos.size my) - Z.pos (Pos.size mx)) in
  let xadj := Z.pos mx * 2 ^ k in
  let q := xadj / Z.pos my in
  let r := xadj mod Z.pos my in
  setExpAndRound p (Z.to_pos q) (ex - ey - k) (negb (r =? 0)).

(** [z.Quo(x, y)].  [None] is the panic with [ErrNaN] on 0/0 and
    Inf/Inf. *)
Definition Quo (zprec : Z) (x y : Float) : option Float :=
  let p := resultPrec zprec x y in
  let n := xorb (neg x) (neg y) in
  match val x, val y with
  | finite mx ex, finite my ey => Some (mkFloat p n (uquo p mx ex my ey))
  | zero, zero | inf, inf => None
  | zero, _ | _, inf => Some (mkFloat p n zero)
  | _, _ => Some (mkFloat p n inf)
  end.

(** [z.Mul(x, y)].  [None] is the panic with [ErrNaN] on 0 * Inf. *)
Definition Mul (zprec : Z) (x y : Float) : option Float :=
  let p := resultPrec zprec x y in
  let n := xorb (neg x) (neg y) in
  match val x, val y with
  | finite mx ex, finite my ey =>
      Some (mkFloat p n (setExpAndRound p (mx * my)%positive (ex + ey) false))
  | zero, inf | inf, zero => None
  | inf, _ | _, inf => Some (mkFloat p n inf)
  | _, _ => Some (mkFloat p n zero)
  end.

(** [x.ord()]: -2, -1, 0, 1, 2 for -Inf, negative, zero, positive, +Inf. *)
Definition ord (x : Float) : Z :=
  match val x with
  | zero => 0
  | finite _ _ => if neg x then -1 else 1
  | inf => if neg x then -2 else 2
  end.

(** [x.ucmp(y)] on the magnitudes of two finite numbers: first the
    exponents, then the mantissas from their highest bits down (a shorter
    mantissa is continued with zeros). *)
Definition ucmp (mx : positive) (ex : Z) (my : positive) (ey : Z) : Z :=
  if goExp mx ex <? goExp my ey then -1
  else if goExp my ey <? goExp mx ex then 1
  else
    let sx := Z.pos (Pos.size mx) in
    let sy := Z.pos (Pos.size my) in
    let l := Z.max sx sy in
    match Z.pos mx * 2 ^ (l - sx) ?= Z.pos my * 2 ^ (l - sy) with
    | Lt => -1
    | Eq => 0
    | Gt => 1
    end.

(** [x.Cmp(y)]: -1, 0 or +1. *)
Definition Cmp (x y : Float) : Z :=
  let mx := ord x in
  let my := ord y in
  if mx <? my then -1
  else if my <? mx then 1
  else
    match val x, val y with
    | finite xm xe, finite ym ye =>
        if mx =? -1 then ucmp ym ye xm xe
        else if mx =? 1 then ucmp xm xe ym ye
        else 0
    | _, _ => 0
    end.

(** *** Reading a [Float] from a string

    [new(big.Float).SetString(s)] is [Parse(s, 0)]: an optional sign, a
    mantissa with an optional prefix [0b], [0o] or [0x] and an optional
    radix point, an optional exponent ([e] or [E] for a power of 10, [p] or
    [P] for a power of 2) with an optional sign; the digit separator [_]
    may stand between two digits and after a prefix.  The spellings of the
    infinities are read apart. *)

(** The digit loop of [nat.scan] for base 0 with [fracOk]: the first ['.']
    marks the radix point ([dp] becomes the number of digits before it), a
    second one ends the number.  [prev] is the kind of the byte before:
    ['0'] for a digit, ['_'] for a separator, ['.'] for anything else; a
    separator that does not follow a digit sets [invalSep], and so does a
    radix point that follows a separator.  The loop stops before the first
    byte that is not a digit of the base [b].  Result: value, number of
    digits, [dp], [prev], [invalSep], rest. *)
Fixpoint nat_scan_loop (b : Z) (s : string) (fracOk : bool) (prev : ascii)
         (invalSep : bool) (acc count dp : Z)
  : Z * Z * Z * ascii * bool * string :=
  match s with
  | EmptyString => (acc, count, dp, prev, invalSep, EmptyString)
  | String ch rest =>
      if Ascii.eqb ch "." && fracOk
      then nat_scan_loop b rest false "." (invalSep || Ascii.eqb prev "_")
                         acc count count
      else if Ascii.eqb ch "_"
      then nat_scan_loop b rest fracOk "_"
                         (invalSep || negb (Ascii.eqb prev "0")) acc count dp
      else
        let d1 := digitVal ch in
        if b <=? d1 then (acc, count, dp, prev, invalSep, s)
        else nat_scan_loop b rest fracOk "0" invalSep (acc * b + d1)
                           (count + 1) dp
  end.

(** [z.scan(r, 0, true)] of [nat]: the base is 10 unless the number starts
    with [0b], [0o] or [0x] (in either case); a prefix is not counted as a
    digit, a leading [0] without one is.  An error ([None]) is a misplaced
    separator or a number without digits.  Result: mantissa, base, the
    negated number of digits after the radix point (or the number of digits
    when there is no point), rest. *)
Definition nat_scan (s : string) : option (Z * Z * Z * string) :=
  let '(b, count, prev, r) :=
    match s with
    | EmptyString => (10, 0, "."%char, s)
    | String ch r1 =>
        if Ascii.eqb ch "0" then
          match r1 with
          | EmptyString => (10, 1, "0"%char, r1)
          | String ch r2 =>
              if Ascii.eqb ch "b" || Ascii.eqb ch "B" then (2, 0, "0"%char, r2)
              else if Ascii.eqb ch "o" || Ascii.eqb ch "O" then (8, 0, "0"%char, r2)
              else if Ascii.eqb ch "x" || Ascii.eqb ch "X" then (16, 0, "0"%char, r2)
              else (10, 1, "0"%char, r1)
          end
        else (10, 0, "."%char, s)
    end in
  let '(res, count, dp, prev, invalSep, rest) :=
    nat_scan_loop b r true prev false 0 count (-1) in
  if invalSep || Ascii.eqb prev "_" then None
  else if count =? 0 then None
  else Some (res, b, if 0 <=? dp then dp - count else count, rest).

Definition MaxInt64 : Z := 9223372036854775807.
Definition MinInt64 : Z := -9223372036854775808.

(** The digit loop of [scanExponent], with separators. *)
Fixpoint scanExponent_loop (s : string) (prev : ascii)
         (invalSep hasDigits : bool) (acc : Z)
  : Z * ascii * bool * bool * string :=
  match s with
  | EmptyString => (acc, prev, invalSep, hasDigits, EmptyString)
  | String ch rest =>
      if between "0" "9" ch
      then scanExponent_loop rest "0" invalSep true (acc * 10 + (code ch - code "0"))
      else if Ascii.eqb ch "_"
      then scanExponent_loop rest "_" (invalSep || negb (Ascii.eqb prev "0"))
                             hasDigits acc
      else (acc, prev, invalSep, hasDigits, s)
  end.

(** [scanExponent(r, true, true)]: nothing at the end of the input or
    before a byte that is none of [e], [E], [p], [P]; otherwise a sign and
    at least one digit, and the number must fit an [int64].  The result is
    the exponent, its base (10 or 2) and the rest; [None] is an error. *)
Definition scanExponent (s : string) : option (Z * Z * string) :=
  match s with
  | EmptyString => Some (0, 10, EmptyString)
  | String ch r =>
      let base :=
        if Ascii.eqb ch "e" || Ascii.eqb ch "E" then 10
        else if Ascii.eqb ch "p" || Ascii.eqb ch "P" then 2
        else 0 in
      if base =? 0 then Some (0, 10, s)
      else
        let '(sneg, r1) :=
          match r with
          | String c r' =>
              if Ascii.eqb c "-" then (true, r')
              else if Ascii.eqb c "+" then (false, r')
              else (false, r)
          | EmptyString => (false, r)
          end in
        let '(v, prev, invalSep, hasDigits, rest) :=
          scanExponent_loop r1 "." false false 0 in
        if negb hasDigits then None
        else
          let exp := if sneg then - v else v in
          if (MinInt64 <=? exp) && (exp <=? MaxInt64)
          then if invalSep || Ascii.eqb prev "_" then None
               else Some (exp, base, rest)
          else None
  end.

(** [pow5tab] holds the powers of 5 that fit 64 bits: 5^0 .. 5^27. *)
Definition pow5tab_last : Z := 27.

(** The loop of [z.pow5(n)]: square-and-multiply over the bits of [n],
    lowest first; [z] is rounded to its own precision after every
    product, [f] to a precision 64 bits longer. *)
Fixpoint pow5_loop (n : positive) (z f : Float) : option Float :=
  match n with
  | xH => Mul (prec z) z f
  | xO n' =>
      match Mul (prec f) f f with
      | Some f' => pow5_loop n' z f'
      | None => None
      end
  | xI n' =>
      match Mul (prec z) z f, Mul (prec f) f f with
      | Some z', Some f' => pow5_loop n' z' f'
      | _, _ => None
      end
  end.

(** [z.pow5(n)] on a receiver of precision [zprec]. *)
Definition pow5 (zprec : Z) (n : Z) : option Float :=
  if n <=? pow5tab_last then Some (SetUint64 zprec (5 ^ n))
  else
    let z := SetUint64 zprec (5 ^ pow5tab_last) in
    let f := SetUint64 (prec z + 64) 5 in
    match n - pow5tab_last with
    | Zpos k => pow5_loop k z f
    | _ => Some z
    end.

(** The second half of [z.scan]: the mantissa [m] stands for
    [m * 2^e2 * 5^exp5].  The power of 2 goes to the exponent, which must
    be in range; the power of 5 is multiplied or divided in, with one
    rounding to [prec] bits. *)
Definition scan_value (prec : Z) (sneg : bool) (m : positive) (e2 exp5 : Z)
  : option Float :=
  let exp2 := Z.pos (Pos.size m) + e2 in
  if (MinExp <=? exp2) && (exp2 <=? MaxExp) then
    if exp5 =? 0
    then Some (mkFloat prec sneg (round prec m e2 false))
    else
      let z := mkFloat prec sneg (finite m e2) in
      match pow5 (prec + 64) (Z.abs exp5) with
      | Some p5 => if exp5 <? 0 then Quo prec z p5 else Mul prec z p5
      | None => None
      end
  else None.

(** [z.scan(r, 0)] on a fresh receiver (precision 64).  The value read is
    [mant * b^fcount * ebase^exp], with [fcount <= 0] the negated number of
    digits after the radix point (a digit after the point is 1, 3 or 4
    bits in base 2, 8 or 16). *)
Definition scan (s : string) : option (Float * string) :=
  let prec := 64 in
  match scanSign s with
  | None => None
  | Some (sneg, r) =>
      match nat_scan r with
      | None => None
      | Some (mant, b, fcount, r1) =>
          match scanExponent r1 with
          | None => None
          | Some (exp, ebase, rest) =>
              match mant with
              | Zpos m =>
                  let d := if fcount <? 0 then fcount else 0 in
                  let e2 :=
                    (if b =? 10 then d
                     else if b =? 2 then d
                     else if b =? 8 then d * 3
                     else d * 4) + exp in
                  let exp5 :=
                    (if b =? 10 then d else 0)
                    + (if ebase =? 10 then exp else 0) in
                  match scan_value prec sneg m e2 exp5 with
                  | Some f => Some (f, rest)
                  | None => None
                  end
              | _ => Some (mkFloat prec sneg zero, rest)
              end
          end
      end
  end.

(** [z.Parse(s, 0)] and [z.SetString(s)]: the infinities are recognised
    first; otherwise the scan must consume the whole string. *)
Definition SetString_Float (s : string) : option Float :=
  if String.eqb s "Inf" || String.eqb s "inf" || String.eqb s "+Inf"
     || String.eqb s "+inf"
  then Some (mkFloat 0 false inf)
  else if String.eqb s "-Inf" || String.eqb s "-inf"
  then Some (mkFloat 0 true inf)
  else
    match scan s with
    | Some (f, EmptyString) => Some f
    | _ => None
    end.

End big.

(** ** The program *)

(** *** Data, as declared in [main.go] *)

Record Wallet : Type := {
  Wallet_Address : string;
  Wallet_Name : string;
  Wallet_Alert : bool
}.

(** [Decimals] is a [uint8]: a number from 0 to 255. *)
Record NetworkConfig : Type := {
  NetworkConfig_Type : string;
  NetworkConfig_RPC : string;
  NetworkConfig_Explorer : string;
  NetworkConfig_Coin : string;
  NetworkConfig_Name : string;
  NetworkConfig_Decimals : Z;
  NetworkConfig_Threshold : string;
  NetworkConfig_Wallets : list Wallet
}.

Record ChainConfig : Type := { Chains : list NetworkConfig }.

Record Balances : Type := { Denom : string; Amount : string }.

Record CosmosBalance : Type := { CosmosBalance_Balances : list Balances }.

Record TelegramMessage : Type := { ChatID : string; Text : string }.

Record DiscordMessage : Type := { Content : string }.

(** The [error] values of the program: the three it makes itself with
    [fmt.Errorf], and those handed over by a library (file system, JSON,
    RPC, HTTP), kept by their text. *)
Inductive error : Type :=
| NoBalanceFound (denom : string)
| ConvertFailed
| UnexpectedStatus (code : Z)
| External (msg : string).

(** [http.StatusOK] *)
Definition StatusOK : Z := 200.

Record Response : Type := { StatusCode : Z }.

(** The two results [(resp, err)] of [http.Post].  [net/http] returns a nil
    response with every error but one: when the redirect policy stops the
    request, the last response comes with the error. *)
Inductive posted : Type :=
| PostFailed (err : error)
| PostAnswered (resp : Response)
| PostStopped (resp : Response) (err : error).

(** What the program writes on the console, one constructor per print
    statement, with the arguments of the statement. *)
Inductive line : Type :=
| PrintNetwork (name : string)
| PrintColumns (coin : string)
| PrintRule
| PrintThresholdError
| PrintError (err : error)
| PrintRow (address etherBalance balance threshold : string)
| PrintHTTPError (err : error)
| PrintReadError (err : error)
| PrintJSONError (err : error)
| PrintBody (body : string)
| PrintBlank.

(** *** The world outside

    Every call that leaves the process is a field of [Env]: it reads the
    state of the world and may change it.  [json.Unmarshal], the rendering
    of numbers and the goloop conversion are functions of their argument
    only. *)
Class Env (World : Type) : Type := {
  os_ReadFile : string -> World -> (error + string) * World;
  json_Unmarshal_ChainConfig : string -> error + ChainConfig;
  json_Unmarshal_CosmosBalance : string -> error + CosmosBalance;
  json_Marshal_Telegram : TelegramMessage -> error + string;
  json_Marshal_Discord : DiscordMessage -> error + string;
  (** [rpc.DialContext(ctx, url)]: the client is known by its URL. *)
  rpc_DialContext : string -> World -> option error * World;
  (** [client.CallContext(ctx, &balanceHex, "eth_getBalance", addr, "latest")] *)
  rpc_eth_getBalance : string -> string -> World -> (error + string) * World;
  (** [client.GetBalance(&v3.AddressParam{...})], a goloop [HexInt] *)
  icon_GetBalance : string -> string -> World -> (error + string) * World;
  HexInt_BigInt : string -> error + big.Int;
  (** [http.Get(url)] followed by [io.ReadAll(response.Body)]: the request
      fails, or the read fails, or there is a body. *)
  http_Get : string -> World -> (error + (error + string)) * World;
  (** [http.Post(url, "application/json", body)] *)
  http_Post : string -> string -> World -> posted * World;
  os_Getenv : string -> string;
  Float_String : big.Float -> string;
  Int_String : big.Int -> string
}.

(** *** Control: state, panics and [log.Fatal] *)

Inductive outcome (A : Type) : Type :=
| Done (a : A)
| Panicked
| Fatal (err : error).

Arguments Done {A} a.
Arguments Panicked {A}.
Arguments Fatal {A} err.

Record state (World : Type) : Type := mkState {
  world : World;
  stdout : list line
}.

Arguments mkState {World} world stdout.
Arguments world {World} s.
Arguments stdout {World} s.

Definition M (World A : Type) : Type := state World -> outcome A * state World.

Definition ret {W A} (a : A) : M W A := fun s => (Done a, s).

Definition bind {W A B} (m : M W A) (k : A -> M W B) : M W B :=
  fun s =>
    match m s with
    | (Done a, s') => k a s'
    | (Panicked, s') => (Panicked, s')
    | (Fatal e, s') => (Fatal e, s')
    end.

Declare Scope go_scope.
Delimit Scope go_scope with go.
Notation "x <- m ;; k" := (bind m (fun x => k))
  (at level 61, m at next level, right associativity) : go_scope.
Notation "m ;; k" := (bind m (fun _ => k))
  (at level 61, right associativity) : go_scope.

Definition panic {W A} : M W A := fun s => (Panicked, s).

Definition log_Fatal {W A} (e : error) : M W A := fun s => (Fatal e, s).

Definition print {W} (l : line) : M W unit :=
  fun s => (Done tt, mkState (world s) (stdout s ++ [l])).

(** A call into the world. *)
Definition call {W A} (f : W -> A * W) : M W A :=
  fun s => let '(a, w) := f (world s) in (Done a, mkState w (stdout s)).

(** [for _, x := range l { body }] *)
Fixpoint forEach {W A} (l : list A) (body : A -> M W unit) : M W unit :=
  match l with
  | [] => ret tt
  | x :: rest => bind (body x) (fun _ => forEach rest body)
  end.

(** *** The functions of [main.go] *)

(** [toDecimalUnit]: [wei / 10^decimals] as a [big.Float].  [None] is the
    panic of [Quo]. *)
Definition toDecimalUnit (wei : big.Int) (decimals : Z) : option big.Float :=
  let decimalFactor := big.Exp 10 decimals in
  let ether := big.Quo 0 (big.SetInt wei) (big.SetInt decimalFactor) in
  ether.

(** [exceedsBalanceThreshold]: check if balance is below threshold. *)
Definition exceedsBalanceThreshold (balance threshold : big.Float) : bool :=
  big.Cmp balance threshold =? -1.

(** The loop over [cb.Balances] at the end of [getCosmosBalance]: the first
    entry whose denom matches decides; the flag of [SetString] is dropped
    and the receiver, a fresh [big.Int], is returned with a nil error. *)
Fixpoint getCosmosBalance_find (balances : list Balances) (denom : string)
  : error + big.Int :=
  match balances with
  | [] => inl (NoBalanceFound denom)
  | c :: rest =>
      if strings.EqualFold (strings.ToUpper (Denom c)) (strings.ToUpper denom)
      then
        let bigIntNumber := fst (big.SetString 0 (Amount c) 10) in
        inr bigIntNumber
      else getCosmosBalance_find rest denom
  end.

(** The parse at the end of [getETHBalance]. *)
Definition getETHBalance_parse (balanceHex : string) : error + big.Int :=
  let '(balance, success) :=
    big.SetString 0 (strings.TrimPrefix balanceHex "0x") 16 in
  if negb success then inl ConvertFailed else inr balance.

(** The bytes of the alert's emblem as they stand in the source file. *)
Definition emblem : string :=
  string_of_list_ascii (map of_code [195; 176; 197; 184; 197; 161; 194; 168]).

Definition newline : string := String (of_code 10) EmptyString.

Section Program.

Context {World : Type} {E : Env World}.

Local Open Scope go_scope.

Definition telegramBotToken : string := os_Getenv "TELEGRAM_BOT_TOKEN".
Definition discordWebhookURL : string := os_Getenv "DISCORD_WEBHOOK_URL".
Definition filePath : string := "./wallets.json".

Definition getCosmosBalance (rpc address denom : string)
  : M World (error + big.Int) :=
  let apiURL := (rpc ++ "/cosmos/bank/v1beta1/balances/" ++ address)%string in
  response <- call (http_Get apiURL) ;;
  match response with
  | inl err => print (PrintHTTPError err) ;; ret (inl err)
  | inr (inl err) => print (PrintReadError err) ;; ret (inl err)
  | inr (inr body) =>
      match json_Unmarshal_CosmosBalance body with
      | inl err =>
          print (PrintJSONError err) ;; print (PrintBody body) ;;
          ret (inl err)
      | inr cb => ret (getCosmosBalance_find (CosmosBalance_Balances cb) denom)
      end
  end.

Definition getICXBalance (client address : string)
  : M World (error + big.Int) :=
  bal <- call (icon_GetBalance client address) ;;
  match bal with
  | inl err => ret (inl err)
  | inr bal => ret (HexInt_BigInt bal)
  end.

Definition getETHBalance (client address : string)
  : M World (error + big.Int) :=
  r <- call (rpc_eth_getBalance client address) ;;
  match r with
  | inl err => ret (inl err)
  | inr balanceHex => ret (getETHBalance_parse balanceHex)
  end.

(** [sendTelegramAlert] reads [res.StatusCode] before it looks at [err]:
    with a nil [res] that is a nil pointer dereference, a panic. *)
Definition sendTelegramAlert (message : string) : M World (option error) :=
  let msg := {| ChatID := ""; Text := message |} in
  match json_Marshal_Telegram msg with
  | inl err => ret (Some err)
  | inr jsonMsg =>
      r <- call (http_Post
                   ("https://api.telegram.org/bot" ++ telegramBotToken
                    ++ "/sendMessage")%string jsonMsg) ;;
      let status (res : Response) (err : option error) :=
        if negb (StatusCode res =? StatusOK)
        then ret (Some (UnexpectedStatus (StatusCode res)))
        else ret err in
      match r with
      | PostFailed _ => panic
      | PostAnswered res => status res None
      | PostStopped res err => status res (Some err)
      end
  end.

Definition sendDiscordAlert (message : string) : M World (option error) :=
  let msg := {| Content := message |} in
  match json_Marshal_Discord msg with
  | inl err => ret (Some err)
  | inr jsonMsg =>
      r <- call (http_Post discordWebhookURL jsonMsg) ;;
      match r with
      | PostFailed err | PostStopped _ err => ret (Some err)
      | PostAnswered resp =>
          if negb (StatusCode resp =? StatusOK)
          then ret (Some (UnexpectedStatus (StatusCode resp)))
          else ret None
      end
  end.

(** [sendAlert]: send alert if balance is below threshold.  The result of
    [sendDiscordAlert] is not looked at. *)
Definition sendAlert (network address balance threshold coin explorer : string)
  : M World unit :=
  let message :=
    (emblem ++ " **" ++ network ++ "** Alert " ++ emblem ++ newline ++ newline
     ++ "Address: [" ++ address ++ "](" ++ explorer ++ "/" ++ address ++ ")"
     ++ newline
     ++ "Balance: " ++ balance ++ " " ++ coin ++ newline
     ++ "Threshold: " ++ threshold ++ " " ++ coin ++ newline ++ newline)%string in
  _ <- sendDiscordAlert message ;;
  ret tt.

(** The body of the three wallet loops of [main]: they are the same text
    but for the call that fetches the balance. *)
Definition wallet_body (fetch : string -> M World (error + big.Int))
           (networkConfig : NetworkConfig) (threshold : big.Float)
           (wallet : Wallet) : M World unit :=
  if negb (Wallet_Alert wallet) then ret tt
  else
    r <- fetch (Wallet_Address wallet) ;;
    match r with
    | inl err => print (PrintError err)
    | inr balance =>
        match toDecimalUnit balance (NetworkConfig_Decimals networkConfig) with
        | None => panic
        | Some etherBalance =>
            print (PrintRow (Wallet_Address wallet) (Float_String etherBalance)
                            (Int_String balance) (Float_String threshold)) ;;
            if exceedsBalanceThreshold etherBalance threshold
            then sendAlert (NetworkConfig_Name networkConfig)
                           (Wallet_Address wallet)
                           (Float_String etherBalance) (Float_String threshold)
                           (NetworkConfig_Coin networkConfig)
                           (NetworkConfig_Explorer networkConfig)
            else ret tt
        end
    end.

Definition wallet_loop (fetch : string -> M World (error + big.Int))
           (networkConfig : NetworkConfig) (threshold : big.Float)
  : M World unit :=
  forEach (NetworkConfig_Wallets networkConfig)
          (wallet_body fetch networkConfig threshold).

(** The body of the loop over the networks. *)
Definition network_body (networkConfig : NetworkConfig) : M World unit :=
  print (PrintNetwork (NetworkConfig_Name networkConfig)) ;;
  let coinName := NetworkConfig_Coin networkConfig in
  print (PrintColumns coinName) ;;
  print PrintRule ;;
  match big.SetString_Float (NetworkConfig_Threshold networkConfig) with
  | None => print PrintThresholdError
  | Some threshold =>
      let rpc := NetworkConfig_RPC networkConfig in
      if String.eqb (NetworkConfig_Type networkConfig) "evm" then
        err <- call (rpc_DialContext rpc) ;;
        match err with
        | Some _ => ret tt
        | None =>
            wallet_loop (getETHBalance rpc) networkConfig threshold ;;
            print PrintBlank
        end
      else if String.eqb (NetworkConfig_Type networkConfig) "icon" then
        wallet_loop (getICXBalance rpc) networkConfig threshold ;;
        print PrintBlank
      else if String.eqb (NetworkConfig_Type networkConfig) "cosmos" then
        wallet_loop (fun address => getCosmosBalance rpc address coinName)
                    networkConfig threshold ;;
        print PrintBlank
      else print PrintBlank
  end.

Definition main : M World unit :=
  content <- call (os_ReadFile filePath) ;;
  match content with
  | inl err => log_Fatal err
  | inr content =>
      match json_Unmarshal_ChainConfig content with
      | inl err => log_Fatal err
      | inr chainCfg => forEach (Chains chainCfg) network_body
      end
  end.

End Program.

(** ** The vocabulary of the properties *)

(** *** The value of a [Float] *)

(** [a * 2^e] as a rational number. *)
Definition dyadic (a e : Z) : Q := (inject_Z a * 2 ^ e)%Q.

Definition signed (n : bool) (m : positive) : Z :=
  if n then Z.neg m else Z.pos m.

(** The rationals with the two infinities. *)
Inductive xQ : Type :=
| NegInf
| Fin (q : Q)
| PosInf.

Definition value (x : big.Float) : xQ :=
  match big.val x with
  | big.zero => Fin 0
  | big.finite m e => Fin (dyadic (signed (big.neg x) m) e)
  | big.inf => if big.neg x then NegInf else PosInf
  end.

Definition xlt (a b : xQ) : Prop :=
  match a, b with
  | NegInf, NegInf => False
  | NegInf, _ => True
  | Fin p, Fin q => (p < q)%Q
  | Fin _, PosInf => True
  | _, _ => False
  end.

Definition xeq (a b : xQ) : Prop :=
  match a, b with
  | NegInf, NegInf => True
  | Fin p, Fin q => (p == q)%Q
  | PosInf, PosInf => True
  | _, _ => False
  end.

Definition of_comparison (c : comparison) : Z :=
  match c with Lt => -1 | Eq => 0 | Gt => 1 end.

Definition scale10 (v : xQ) (D : Z) : xQ :=
  match v with
  | Fin q => Fin (q * inject_Z (10 ^ D))
  | NegInf => NegInf
  | PosInf => PosInf
  end.

(** [v] is the integer [B] with a relative error of at most [2^-p]. *)
Definition within (B p : Z) (v : xQ) : Prop :=
  match v with
  | Fin q => (Qabs (q - inject_Z B) * inject_Z (2 ^ p) <= inject_Z B)%Q
  | _ => False
  end.

(** [v] is the rational [q] with a relative error of at most [2^-p]. *)
Definition near (q : Q) (p : Z) (v : xQ) : Prop :=
  match v with
  | Fin t => (Qabs (t - q) * inject_Z (2 ^ p) <= Qabs q)%Q
  | _ => False
  end.

(** [q] is a binary number of at most [p] significant bits. *)
Definition representable (p : Z) (q : Q) : Prop :=
  exists a e : Z, Z.abs a < 2 ^ p /\ (q == dyadic a e)%Q.

(** The exact test: the balance [B] in smallest units, scaled by [10^D], is
    strictly below the threshold [v]. *)
Definition below_exact (B D : Z) (v : Q) : Prop :=
  (inject_Z B / inject_Z (10 ^ D) < v)%Q.

(** *** Numerals *)

(** Positional notation: the value of a list of digits, most significant
    first. *)
Fixpoint positional (base : Z) (ds : list Z) : Z :=
  match ds with
  | [] => 0
  | d :: rest => d * base ^ Z.of_nat (List.length rest) + positional base rest
  end.

Definition decDigit (c : ascii) : option Z :=
  if between "0" "9" c then Some (code c - 48) else None.

Definition hexDigit (c : ascii) : option Z :=
  if between "0" "9" c then Some (code c - 48)
  else if between "a" "f" c then Some (code c - 87)
  else if between "A" "F" c then Some (code c - 55)
  else None.

(** The longest run of digits at the head of a string, and what follows. *)
Fixpoint leadingDigits (digit : ascii -> option Z) (s : string)
  : list Z * string :=
  match s with
  | EmptyString => ([], EmptyString)
  | String c r =>
      match digit c with
      | Some d => let '(ds, rest) := leadingDigits digit r in (d :: ds, rest)
      | None => ([], s)
      end
  end.

(** An optional sign in front. *)
Definition splitSign (s : string) : bool * string :=
  match s with
  | String "-" r => (true, r)
  | String "+" r => (false, r)
  | _ => (false, s)
  end.

Definition withSign (n : bool) (v : Z) : Z := if n then - v else v.

(** An integer literal: an optional sign and one or more digits, with
    nothing after them. *)
Definition integerLiteral (base : Z) (digit : ascii -> option Z) (s : string)
  : option Z :=
  let '(n, r) := splitSign s in
  match leadingDigits digit r with
  | (d :: ds, EmptyString) => Some (withSign n (positional base (d :: ds)))
  | _ => None
  end.

(** The integer at the head of a string: an optional sign and the digits
    that follow it, whatever comes after; 0 when no digit follows. *)
Definition leadingInteger (base : Z) (digit : ascii -> option Z) (s : string)
  : Z :=
  let '(n, r) := splitSign s in
  withSign n (positional base (fst (leadingDigits digit r))).

(** A hexadecimal numeral: one or more hexadecimal digits and nothing
    else. *)
Definition hexNumeral (s : string) : option Z :=
  match leadingDigits hexDigit s with
  | (d :: ds, EmptyString) => Some (positional 16 (d :: ds))
  | _ => None
  end.

(** The response without a leading "0x". *)
Definition strip0x (s : string) : string :=
  match s with
  | String "0" (String "x" r) => r
  | _ => s
  end.

(** The kind of the last byte read by a digit loop ([prev] in [nat.scan])
    after a run of digits. *)
Definition afterDigits (ds : list Z) (prev : ascii) : ascii :=
  match ds with [] => prev | _ :: _ => "0"%char end.

(** *** Decimal literals *)

(** The exponent of a decimal literal: nothing, or [e] or [E] and an
    integer. *)
Definition decimalExponent (s : string) : option Z :=
  match s with
  | EmptyString => Some 0
  | String c r =>
      if Ascii.eqb c "e" || Ascii.eqb c "E"
      then integerLiteral 10 decDigit r
      else None
  end.

(** A decimal literal: an optional sign, decimal digits with an optional
    radix point before, among or after them (one digit at least), and an
    optional exponent.  Its parts are the sign, the integer that the digits
    spell without the point, and the power of ten that goes with it: the
    exponent less the number of digits after the point. *)
Definition decimalParts (s : string) : option (bool * Z * Z) :=
  let '(n, r) := splitSign s in
  let '(ip, r1) := leadingDigits decDigit r in
  let '(fp, r2) :=
    match r1 with
    | EmptyString => ([], r1)
    | String c r' =>
        if Ascii.eqb c "." then leadingDigits decDigit r' else ([], r1)
    end in
  match (ip ++ fp)%list, decimalExponent r2 with
  | _ :: _, Some exp =>
      Some (n, positional 10 (ip ++ fp), exp - Z.of_nat (List.length fp))
  | _, _ => None
  end.

(** The rational number [sign * m * 10^k]; nothing is rounded. *)
Definition decimalOf (n : bool) (m k : Z) : Q :=
  (inject_Z (withSign n m) * inject_Z 10 ^ k)%Q.

(** The rational number that a decimal literal denotes. *)
Definition decimalValue (s : string) : option Q :=
  match decimalParts s with
  | Some (n, m, k) => Some (decimalOf n m k)
  | None => None
  end.

(** *** Matching a denom *)

Definition lower (c : ascii) : ascii :=
  if between "A" "Z" c then of_code (code c + 32) else c.

Fixpoint toLower (s : string) : string :=
  match s with
  | EmptyString => EmptyString
  | String c r => String (lower c) (toLower r)
  end.

(** Two strings are the same but for the case of their ASCII letters. *)
Definition sameIgnoringCase (a b : string) : bool :=
  String.eqb (toLower a) (toLower b).

(** *** Observations on a run *)

(** The addresses of the rows of a console log: the wallets that were
    converted, displayed and compared with the threshold. *)
Fixpoint rows (out : list line) : list string :=
  match out with
  | [] => []
  | PrintRow address _ _ _ :: rest => address :: rows rest
  | _ :: rest => rows rest
  end.

(** The errors written to a console log with [fmt.Println(err)]. *)
Fixpoint printedErrors (out : list line) : list error :=
  match out with
  | [] => []
  | PrintError err :: rest => err :: printedErrors rest
  | _ :: rest => printedErrors rest
  end.

(** What stops [main] before the first network: the configuration file
    cannot be read, or it is not the JSON of a [ChainConfig]. *)
Definition startupError {World : Type} {E : Env World} (w : World)
  : option error :=
  match os_ReadFile filePath w with
  | (inl err, _) => Some err
  | (inr content, _) =>
      match json_Unmarshal_ChainConfig content with
      | inl err => Some err
      | inr _ => None
      end
  end.

(** *** A scripted world

    A world for running the program on examples: it answers every call from
    a script and keeps the list of the requests it has seen. *)
Record Script : Type := {
  script_config : error + ChainConfig;
  script_eth : string -> error + string;
  script_cosmos : error + CosmosBalance;
  script_post : posted
}.

Definition seen (w : list string) (request : string) : list string :=
  (w ++ [request])%list.

Definition scripted (sc : Script) : Env (list string) := {|
  os_ReadFile := fun path w => (inr "{}", seen w ("read " ++ path));
  json_Unmarshal_ChainConfig := fun _ => script_config sc;
  json_Unmarshal_CosmosBalance := fun _ => script_cosmos sc;
  json_Marshal_Telegram := fun m => inr (Text m);
  json_Marshal_Discord := fun m => inr (Content m);
  rpc_DialContext := fun url w => (None, seen w ("dial " ++ url));
  rpc_eth_getBalance :=
    fun client address w =>
      (script_eth sc address, seen w ("eth_getBalance " ++ address));
  icon_GetBalance :=
    fun client address w => (inr "0x0", seen w ("icx_getBalance " ++ address));
  HexInt_BigInt := fun _ => inr 0;
  http_Get := fun url w => (inr (inr "{}"), seen w ("GET " ++ url));
  http_Post := fun url body w => (script_post sc, seen w ("POST " ++ url));
  os_Getenv := fun name => "$" ++ name;
  Float_String := fun _ => "(float)";
  Int_String := fun _ => "(int)"
|}.

Definition start : state (list string) := mkState [] [].

(** A computation that runs to its end from every state: no panic, no
    [log.Fatal]. *)
Definition completes {W A} (m : M W A) : Prop :=
  forall s, exists a s', m s = (Done a, s').

(** *** Example data *)

Definition demoWallets : list Wallet :=
  [ {| Wallet_Address := "0xA"; Wallet_Name := "relay"; Wallet_Alert := true |};
    {| Wallet_Address := "0xB"; Wallet_Name := "cold"; Wallet_Alert := false |};
    {| Wallet_Address := "0xC"; Wallet_Name := "fees"; Wallet_Alert := true |} ].

Definition demoNetwork : NetworkConfig := {|
  NetworkConfig_Type := "evm";
  NetworkConfig_RPC := "https://rpc";
  NetworkConfig_Explorer := "https://scan";
  NetworkConfig_Coin := "ETH";
  NetworkConfig_Name := "mainnet";
  NetworkConfig_Decimals := 18;
  NetworkConfig_Threshold := "1.0";
  NetworkConfig_Wallets := demoWallets
|}.

(** Every balance is 0.5 ETH. *)
Definition halfEther (address : string) : error + string :=
  inr "0x6f05b59d3b20000".

(** The node does not answer for the first wallet. *)
Definition firstFails (address : string) : error + string :=
  if String.eqb address "0xA" then inl (External "timeout")
  else inr "0x1bc16d674ec80000".

Definition demoScript (eth : string -> error + string) (post : posted)
  : Script := {|
  script_config := inr {| Chains := [demoNetwork] |};
  script_eth := eth;
  script_cosmos :=
    inr {| CosmosBalance_Balances :=
             [ {| Denom := "uatom"; Amount := "2500000" |} ] |};
  script_post := post
|}.

Definition answered (code : Z) : posted := PostAnswered {| StatusCode := code |}.

(** Three worlds: all is well; the webhook answers 500; the node fails for
    the first wallet. *)
Definition calm : Env (list string) :=
  scripted (demoScript halfEther (answered 200)).

Definition webhookDown : Env (list string) :=
  scripted (demoScript halfEther (answered 500)).

Definition flaky : Env (list string) :=
  scripted (demoScript firstFails (answered 200)).

(** The node that answers a numeral with a sign. *)
Definition signedAnswer (address : string) : error + string := inr "0x-ff".

(** The redirect policy stops the POST: the last response, a 307, comes
    with the error. *)
Definition stopped : posted :=
  PostStopped {| StatusCode := 307 |} (External "stopped after 10 redirects").

(** ** Further vocabulary *)

(** The text of an alert, as [sendAlert] formats it. *)
Definition alertMessage (network address balance threshold coin explorer : string)
  : string :=
  emblem ++ " **" ++ network ++ "** Alert " ++ emblem ++ newline ++ newline
  ++ "Address: [" ++ address ++ "](" ++ explorer ++ "/" ++ address ++ ")"
  ++ newline
  ++ "Balance: " ++ balance ++ " " ++ coin ++ newline
  ++ "Threshold: " ++ threshold ++ " " ++ coin ++ newline ++ newline.

(** The three lines that open the report of a network. *)
Definition networkHeader (networkConfig : NetworkConfig) : list line :=
  [ PrintNetwork (NetworkConfig_Name networkConfig);
    PrintColumns (NetworkConfig_Coin networkConfig);
    PrintRule ].

(** The row of a wallet in the report. *)
Definition walletRow {World : Type} {E : Env World}
           (wallet : Wallet) (etherBalance : big.Float) (balance : big.Int)
           (threshold : big.Float) : line :=
  PrintRow (Wallet_Address wallet) (Float_String etherBalance)
           (Int_String balance) (Float_String threshold).

(** ** [alert.go]

    The second file of the package declares [sendTelegramAlert] and
    [sendDiscordAlert] again.  Its [sendDiscordAlert] is the text of the one
    in [main.go]; its [sendTelegramAlert] fills in the chat and looks at the
    error of the POST only. *)
Module alert.

Section Alert.

Context {World : Type} {E : Env World}.

Local Open Scope go_scope.

Definition telegramChatID : string := os_Getenv "TELEGRAM_CHAT_ID".

Definition balanceThreshold : Z := 100.

Definition sendTelegramAlert (message : string) : M World (option error) :=
  let msg := {| ChatID := telegramChatID; Text := message |} in
  match json_Marshal_Telegram msg with
  | inl err => ret (Some err)
  | inr jsonMsg =>
      r <- call (http_Post
                   ("https://api.telegram.org/bot" ++ telegramBotToken
                    ++ "/sendMessage")%string jsonMsg) ;;
      match r with
      | PostFailed err | PostStopped _ err => ret (Some err)
      | PostAnswered _ => ret None
      end
  end.

Definition sendDiscordAlert (message : string) : M World (option error) :=
  let msg := {| Content := message |} in
  match json_Marshal_Discord msg with
  | inl err => ret (Some err)
  | inr jsonMsg =>
      r <- call (http_Post discordWebhookURL jsonMsg) ;;
      match r with
      | PostFailed err | PostStopped _ err => ret (Some err)
      | PostAnswered resp =>
          if negb (StatusCode resp =? StatusOK)
          then ret (Some (UnexpectedStatus (StatusCode resp)))
          else ret None
      end
  end.

End Alert.

End alert.

(** ** Writing integers

    The numeral of a non-negative integer in a base up to 16, with
    lower-case letters and without leading zeros; the numeral of 0 is "0".
    Ethereum nodes write quantities in this way in base 16 after "0x", and
    Cosmos nodes write amounts in this way in base 10. *)
Definition digitChar (d : Z) : ascii :=
  if d <? 10 then of_code (48 + d) else of_code (87 + d).

Fixpoint toDigits (fuel : nat) (base n : Z) : list Z :=
  match fuel with
  | O => []
  | S fuel' =>
      if n <? base then [n]
      else (toDigits fuel' base (n / base) ++ [n mod base])%list
  end.

Definition numeral (base n : Z) : string :=
  string_of_list_ascii
    (map digitChar (toDigits (S (Z.to_nat (Z.log2 n))) base n)).

Definition hexQuantity (n : Z) : string := "0x" ++ numeral 16 n.

(** The number with the opposite sign. *)
Definition Float_Neg (x : big.Float) : big.Float :=
  big.mkFloat (big.prec x) (negb (big.neg x)) (big.val x).

(** ** More example data *)

(** [demoNetwork] with another type and threshold. *)
Definition demoNetworkWith (type threshold : string) : NetworkConfig := {|
  NetworkConfig_Type := type;
  NetworkConfig_RPC := NetworkConfig_RPC demoNetwork;
  NetworkConfig_Explorer := NetworkConfig_Explorer demoNetwork;
  NetworkConfig_Coin := NetworkConfig_Coin demoNetwork;
  NetworkConfig_Name := NetworkConfig_Name demoNetwork;
  NetworkConfig_Decimals := NetworkConfig_Decimals demoNetwork;
  NetworkConfig_Threshold := threshold;
  NetworkConfig_Wallets := NetworkConfig_Wallets demoNetwork
|}.

(** The world [calm], but no node can be dialled and no GET succeeds. *)
Definition offline (err : error) : Env (list string) := {|
  os_ReadFile := os_ReadFile (Env := calm);
  json_Unmarshal_ChainConfig := json_Unmarshal_ChainConfig (Env := calm);
  json_Unmarshal_CosmosBalance := json_Unmarshal_CosmosBalance (Env := calm);
  json_Marshal_Telegram := json_Marshal_Telegram (Env := calm);
  json_Marshal_Discord := json_Marshal_Discord (Env := calm);
  rpc_DialContext := fun url w => (Some err, seen w ("dial " ++ url));
  rpc_eth_getBalance := rpc_eth_getBalance (Env := calm);
  icon_GetBalance := icon_GetBalance (Env := calm);
  HexInt_BigInt := HexInt_BigInt (Env := calm);
  http_Get := fun url w => (inl err, seen w ("GET " ++ url));
  http_Post := http_Post (Env := calm);
  os_Getenv := os_Getenv (Env := calm);
  Float_String := Float_String (Env := calm);
  Int_String := Int_String (Env := calm)
|}.

(** 0.5, as [toDecimalUnit] returns it for 5 * 10^17 at 18 decimals, and
    1, as [SetString] reads it from "1.0". *)
Definition halfFloat : big.Float :=
  big.mkFloat 64 false (big.finite 9223372036854775808 (-64)).

Definition oneFloat : big.Float :=
  big.mkFloat 64 false (big.finite 9223372036854775808 (-63)).

(** ** The earlier version of the program

    A second [main] package lies beside [main.go], an earlier state of the
    same program.  Its [getICXBalance], [getETHBalance], [toDecimalUnit]
    and [sendDiscordAlert] are the text of [main.go]; what differs and can
    be told apart from the console is modelled here: the end of its
    [getCosmosBalance] and its threshold test. *)
Module earlier.

(** A [float64] that is a number is zero, an infinity, or [mant * 2^exp]
    with a mantissa below [2^53]; the others are the NaNs. *)
Inductive float64 : Type :=
| F64_zero (neg : bool)
| F64_finite (neg : bool) (mant : positive) (exp : Z)
| F64_inf (neg : bool)
| F64_nan.

(** [big.NewFloat(x)]: the number [x], exactly, at precision 53.  [None]
    is the panic with [ErrNaN]. *)
Definition NewFloat (x : float64) : option big.Float :=
  match x with
  | F64_zero neg => Some (big.mkFloat 53 neg big.zero)
  | F64_finite neg mant exp => Some (big.mkFloat 53 neg (big.finite mant exp))
  | F64_inf neg => Some (big.mkFloat 53 neg big.inf)
  | F64_nan => None
  end.

(** The loop over [cb.Balances] at the end of this version's
    [getCosmosBalance]: without a match it returns [big.NewInt(0)] and a
    nil error. *)
Fixpoint getCosmosBalance_find (balances : list Balances) (denom : string)
  : big.Int :=
  match balances with
  | [] => 0
  | c :: rest =>
      if strings.EqualFold (strings.ToUpper (Denom c)) (strings.ToUpper denom)
      then
        let bigIntNumber := fst (big.SetString 0 (Amount c) 10) in
        bigIntNumber
      else getCosmosBalance_find rest denom
  end.

(** [checkBalanceThreshold]: check if balance is below threshold.  The
    balance is scaled by 18 decimals, whatever the network.  [None] is a
    panic. *)
Definition checkBalanceThreshold (balance : big.Int) (threshold : float64)
  : option bool :=
  match toDecimalUnit balance 18 with
  | None => None
  | Some balanceFloat =>
      match NewFloat threshold with
      | None => None
      | Some t => Some (big.Cmp balanceFloat t =? -1)
      end
  end.

End earlier.

(** The value of a [float64]. *)
Definition value64 (x : earlier.float64) : option xQ :=
  match x with
  | earlier.F64_zero _ => Some (Fin 0)
  | earlier.F64_finite neg mant exp => Some (Fin (dyadic (signed neg mant) exp))
  | earlier.F64_inf neg => Some (if neg then NegInf else PosInf)
  | earlier.F64_nan => None
  end.

(** * Properties *)

Lemma pow2_pos (e : Z) : (0 < 2 ^ e)%Q.
Proof. apply Qpower_0_lt. reflexivity. Qed.

Lemma dyadic_shift (a e c : Z) :
  c <= e -> (dyadic a e == dyadic (a * 2 ^ (e - c)) c)%Q.
Proof.
  intros H. unfold dyadic.
  replace e with ((e - c) + c) at 1 by lia.
  rewrite Qpower_plus by (intro K; discriminate K).
  rewrite inject_Z_mult, Zpower_Qpower by lia.
  change (inject_Z 2) with 2%Q. ring.
Qed.

Lemma dyadic_lt_same (a b e : Z) : (dyadic a e < dyadic b e)%Q <-> a < b.
Proof.
  unfold dyadic. rewrite Qmult_lt_r by apply pow2_pos.
  rewrite Zlt_Qlt. tauto.
Qed.

Lemma dyadic_eq_same (a b e : Z) : (dyadic a e == dyadic b e)%Q <-> a = b.
Proof.
  unfold dyadic. rewrite Qmult_inj_r.
  - apply inject_Z_injective.
  - intro K. pose proof (pow2_pos e) as P. rewrite K in P. inversion P.
Qed.

(** Two dyadic numbers compare as their mantissas do once both are brought
    to the smaller exponent. *)
Lemma dyadic_lt (a b ea eb : Z) :
  (dyadic a ea < dyadic b eb)%Q
  <-> a * 2 ^ (ea - Z.min ea eb) < b * 2 ^ (eb - Z.min ea eb).
Proof.
  rewrite (dyadic_shift a ea (Z.min ea eb)) by lia.
  rewrite (dyadic_shift b eb (Z.min ea eb)) by lia.
  apply dyadic_lt_same.
Qed.

Lemma dyadic_eq (a b ea eb : Z) :
  (dyadic a ea == dyadic b eb)%Q
  <-> a * 2 ^ (ea - Z.min ea eb) = b * 2 ^ (eb - Z.min ea eb).
Proof.
  rewrite (dyadic_shift a ea (Z.min ea eb)) by lia.
  rewrite (dyadic_shift b eb (Z.min ea eb)) by lia.
  apply dyadic_eq_same.
Qed.

Lemma size_bounds (m : positive) :
  2 ^ (Z.pos (Pos.size m) - 1) <= Z.pos m < 2 ^ Z.pos (Pos.size m).
Proof.
  assert (H : 0 < Z.pos m) by lia.
  pose proof (Z.log2_spec _ H) as L.
  assert (S : Z.pos (Pos.size m) = Z.succ (Z.log2 (Z.pos m))).
  { destruct m; simpl; try lia. }
  rewrite S. replace (Z.succ (Z.log2 (Z.pos m)) - 1) with (Z.log2 (Z.pos m)) by lia.
  exact L.
Qed.

Lemma scaled_bounds (m : positive) (e c : Z) :
  c <= e ->
  2 ^ (big.goExp m e - c - 1) <= Z.pos m * 2 ^ (e - c) < 2 ^ (big.goExp m e - c).
Proof.
  intros H. unfold big.goExp.
  pose proof (size_bounds m) as [L U].
  assert (P : 0 < 2 ^ (e - c)) by (apply Z.pow_pos_nonneg; lia).
  replace (e + Z.pos (Pos.size m) - c - 1)
    with ((Z.pos (Pos.size m) - 1) + (e - c)) by lia.
  replace (e + Z.pos (Pos.size m) - c) with (Z.pos (Pos.size m) + (e - c)) by lia.
  rewrite !Z.pow_add_r by lia.
  split; nia.
Qed.

(** [ucmp] compares the magnitudes. *)
Lemma ucmp_spec (mx : positive) (ex : Z) (my : positive) (ey : Z) :
  big.ucmp mx ex my ey
  = of_comparison (Z.pos mx * 2 ^ (ex - Z.min ex ey)
                   ?= Z.pos my * 2 ^ (ey - Z.min ex ey)).
Proof.
  unfold big.ucmp.
  pose proof (scaled_bounds mx ex (Z.min ex ey) ltac:(lia)) as [Lx Ux].
  pose proof (scaled_bounds my ey (Z.min ex ey) ltac:(lia)) as [Ly Uy].
  destruct (Z.ltb_spec (big.goExp mx ex) (big.goExp my ey)) as [H | H].
  - assert (K : 2 ^ (big.goExp mx ex - Z.min ex ey)
                <= 2 ^ (big.goExp my ey - Z.min ex ey - 1))
      by (apply Z.pow_le_mono_r; lia).
    rewrite (proj2 (Z.compare_lt_iff _ _)) by lia. reflexivity.
  - destruct (Z.ltb_spec (big.goExp my ey) (big.goExp mx ex)) as [H' | H'].
    + assert (K : 2 ^ (big.goExp my ey - Z.min ex ey)
                  <= 2 ^ (big.goExp mx ex - Z.min ex ey - 1))
        by (apply Z.pow_le_mono_r; lia).
      rewrite (proj2 (Z.compare_gt_iff _ _)) by lia. reflexivity.
    + unfold big.goExp in H, H'.
      replace (Z.max (Z.pos (Pos.size mx)) (Z.pos (Pos.size my)) - Z.pos (Pos.size mx))
        with (ex - Z.min ex ey) by lia.
      replace (Z.max (Z.pos (Pos.size mx)) (Z.pos (Pos.size my)) - Z.pos (Pos.size my))
        with (ey - Z.min ex ey) by lia.
      destruct (_ ?= _); reflexivity.
Qed.

Lemma dyadic_0 (e : Z) : (dyadic 0 e == 0)%Q.
Proof. unfold dyadic. ring. Qed.

Lemma dyadic_pos_gt0 (m : positive) (e : Z) : (0 < dyadic (Z.pos m) e)%Q.
Proof.
  rewrite <- (dyadic_0 e). apply dyadic_lt_same. lia.
Qed.

Lemma dyadic_neg_lt0 (m : positive) (e : Z) : (dyadic (Z.neg m) e < 0)%Q.
Proof.
  rewrite <- (dyadic_0 e). apply dyadic_lt_same. lia.
Qed.

Lemma ucmp_lt (mx : positive) (ex : Z) (my : positive) (ey : Z) :
  big.ucmp mx ex my ey = -1
  <-> (dyadic (Z.pos mx) ex < dyadic (Z.pos my) ey)%Q.
Proof.
  rewrite ucmp_spec, dyadic_lt.
  destruct (Z.compare_spec (Z.pos mx * 2 ^ (ex - Z.min ex ey))
                           (Z.pos my * 2 ^ (ey - Z.min ex ey)));
    unfold of_comparison; split; intros K;
    try discriminate K; try reflexivity; lia.
Qed.

Lemma dyadic_neg_lt (mx : positive) (ex : Z) (my : positive) (ey : Z) :
  (dyadic (Z.neg mx) ex < dyadic (Z.neg my) ey)%Q
  <-> (dyadic (Z.pos my) ey < dyadic (Z.pos mx) ex)%Q.
Proof.
  rewrite !dyadic_lt, (Z.min_comm ey ex). lia.
Qed.

Lemma dyadic_neg_pos (mx : positive) (ex : Z) (my : positive) (ey : Z) :
  (dyadic (Z.neg mx) ex < dyadic (Z.pos my) ey)%Q.
Proof.
  eapply Qlt_trans; [apply dyadic_neg_lt0 | apply dyadic_pos_gt0].
Qed.

Lemma Qlt_not_both (p q : Q) : (p < q)%Q -> (q < p)%Q -> False.
Proof. intros H K. exact (Qlt_irrefl p (Qlt_trans _ _ _ H K)). Qed.

(** [Cmp] answers -1 exactly when the first value is below the second. *)
Lemma Cmp_lt (x y : big.Float) :
  big.Cmp x y = -1 <-> xlt (value x) (value y).
Proof.
  destruct x as [px nx [ | mx ex | ]], y as [py ny [ | my ey | ]];
    destruct nx, ny; unfold big.Cmp, value, big.ord; cbn;
    try (rewrite ucmp_lt; try rewrite dyadic_neg_lt; reflexivity);
    (split; intros K;
     [ try discriminate K; try exact I | try reflexivity; try contradiction ]).
  all: try apply dyadic_neg_lt0.
  all: try apply dyadic_pos_gt0.
  all: try apply dyadic_neg_pos.
  all: exfalso.
  all: try (exact (Qlt_irrefl _ K)).
  all: try (exact (Qlt_not_both _ _ K (dyadic_neg_lt0 _ _))).
  all: try (exact (Qlt_not_both _ _ K (dyadic_pos_gt0 _ _))).
  all: try (exact (Qlt_not_both _ _ K (dyadic_neg_pos _ _ _ _))).
Qed.

Lemma xlt_irrefl (a b : xQ) : xeq a b -> ~ xlt a b.
Proof.
  destruct a, b; cbn; try tauto.
  intros H K. rewrite H in K. exact (Qlt_irrefl _ K).
Qed.

(** ** Exact results of rounding and division *)

Lemma size_log2 (m : positive) : Z.pos (Pos.size m) = Z.log2 (Z.pos m) + 1.
Proof. destruct m; simpl; lia. Qed.

Lemma size_mul_pow2 (c j : Z) :
  0 < c -> 0 <= j ->
  Z.pos (Pos.size (Z.to_pos (c * 2 ^ j))) = Z.pos (Pos.size (Z.to_pos c)) + j.
Proof.
  intros Hc Hj.
  assert (P : 0 < 2 ^ j) by (apply Z.pow_pos_nonneg; lia).
  rewrite !size_log2, !Z2Pos.id by nia.
  rewrite Z.log2_mul_pow2 by lia. lia.
Qed.

(** A mantissa whose bits below the [p] leading ones are all zero is not
    changed in value by [round]. *)
Lemma round_exact (p : Z) (m : positive) (e : Z) :
  1 <= p ->
  Z.pos m mod 2 ^ (Z.max 0 (Z.pos (Pos.size m) - p)) = 0 ->
  exists m' e',
    big.round p m e false = big.finite m' e'
    /\ (dyadic (Z.pos m') e' == dyadic (Z.pos m) e)%Q.
Proof.
  intros Hp Hdiv. unfold big.round.
  destruct (Z.leb_spec (Z.pos (Pos.size m)) p) as [Hs | Hs].
  - exists m, e. split; reflexivity.
  - set (bits := Z.pos (Pos.size m)) in *.
    set (r := bits - p - 1).
    replace (Z.max 0 (bits - p)) with (r + 1) in Hdiv by (unfold r; lia).
    assert (Hr : 0 <= r) by (unfold r; lia).
    assert (Hbit : Z.testbit (Z.pos m) r = false).
    { rewrite <- (Z.mod_pow2_bits_low (Z.pos m) (r + 1) r) by lia.
      rewrite Hdiv. apply Z.testbit_0_l. }
    rewrite Hbit. cbn [andb].
    exists (Z.to_pos (Z.shiftr (Z.pos m) (r + 1))), (e + r + 1).
    split; [reflexivity|].
    rewrite Z.shiftr_div_pow2 by lia.
    assert (P : 0 < 2 ^ (r + 1)) by (apply Z.pow_pos_nonneg; lia).
    assert (Hm : Z.pos m = 2 ^ (r + 1) * (Z.pos m / 2 ^ (r + 1))).
    { apply Z.div_exact; lia. }
    assert (Hq : 0 < Z.pos m / 2 ^ (r + 1)) by nia.
    rewrite Z2Pos.id by exact Hq.
    rewrite (dyadic_shift (Z.pos m / 2 ^ (r + 1)) (e + r + 1) e) by lia.
    replace (e + r + 1 - e) with (r + 1) by lia.
    rewrite Z.mul_comm, <- Hm. reflexivity.
Qed.

(** When the quotient of the mantissas is [c / 2^j] with [c] of at most [p]
    bits, [uquo] returns it unrounded. *)
Lemma uquo_exact (p : Z) (mx : positive) (ex : Z) (my : positive) (ey : Z)
      (c j : Z) :
  1 <= p -> 0 < c -> 0 <= j ->
  Z.pos mx * 2 ^ j = c * Z.pos my ->
  Z.pos (Pos.size (Z.to_pos c)) <= p ->
  big.MinExp <= ex - ey - j + Z.pos (Pos.size (Z.to_pos c)) <= big.MaxExp ->
  exists m' e',
    big.uquo p mx ex my ey = big.finite m' e'
    /\ (dyadic (Z.pos m') e' == dyadic c (ex - ey - j))%Q.
Proof.
  intros Hp Hc Hj Heq Hsc Hrange. unfold big.uquo.
  set (sx := Z.pos (Pos.size mx)). set (sy := Z.pos (Pos.size my)).
  set (sc := Z.pos (Pos.size (Z.to_pos c))) in *.
  set (k := Z.max 0 (p + 1 + sy - sx)).
  assert (Hjk : j <= k).
  { pose proof (size_bounds mx) as [Lx _]. pose proof (size_bounds my) as [_ Uy].
    pose proof (size_bounds (Z.to_pos c)) as [_ Uc]. rewrite Z2Pos.id in Uc by lia.
    fold sx in Lx. fold sy in Uy. fold sc in Uc.
    assert (A : 2 ^ (sx - 1 + j) < 2 ^ (sc + sy)).
    { rewrite !Z.pow_add_r by (subst sx sy sc; lia).
      assert (0 < 2 ^ j) by (apply Z.pow_pos_nonneg; lia).
      assert (0 < 2 ^ (sx - 1)) by (apply Z.pow_pos_nonneg; subst sx; lia).
      nia. }
    apply Z.pow_lt_mono_r_iff in A; [|lia| subst sc sy; lia].
    subst k. lia. }
  assert (Hx : Z.pos mx * 2 ^ k = c * 2 ^ (k - j) * Z.pos my).
  { replace k with (j + (k - j)) at 1 by lia.
    rewrite Z.pow_add_r by lia. rewrite Z.mul_assoc, Heq. ring. }
  rewrite Hx, Z.div_mul, Z.mod_mul by lia.
  cbn [Z.eqb negb].
  unfold big.setExpAndRound, big.goExp.
  rewrite size_mul_pow2 by lia. fold sc.
  destruct (Z.ltb_spec (ex - ey - k + (sc + (k - j))) big.MinExp) as [U | _]; [lia|].
  destruct (Z.ltb_spec big.MaxExp (ex - ey - k + (sc + (k - j)))) as [U | _]; [lia|].
  assert (Pk : 0 < 2 ^ (k - j)) by (apply Z.pow_pos_nonneg; lia).
  destruct (round_exact p (Z.to_pos (c * 2 ^ (k - j))) (ex - ey - k) Hp)
    as (m' & e' & R & V).
  { rewrite size_mul_pow2 by lia. fold sc. rewrite Z2Pos.id by nia.
    destruct (Z.max_spec 0 (sc + (k - j) - p)) as [[Hm ->] | [Hm ->]].
    - replace (k - j)
        with ((k - j - (sc + (k - j) - p)) + (sc + (k - j) - p)) at 1 by lia.
      rewrite Z.pow_add_r by lia. rewrite Z.mul_assoc. apply Z.mod_mul.
      apply Z.pow_nonzero; lia.
    - apply Z.mod_1_r. }
  exists m', e'. split; [exact R|].
  rewrite V, Z2Pos.id by nia.
  rewrite (dyadic_shift c (ex - ey - j) (ex - ey - k)) by lia.
  replace (ex - ey - j - (ex - ey - k)) with (k - j) by lia. reflexivity.
Qed.

(** ** [toDecimalUnit] *)

Lemma SetInt_pos (m : positive) :
  Z.pos (Pos.size m) <= big.MaxExp ->
  big.SetInt (Z.pos m)
  = big.mkFloat (Z.max (Z.pos (Pos.size m)) 64) false (big.finite m 0).
Proof.
  intros H. unfold big.SetInt, big.setExpAndRound, big.goExp, big.round.
  cbn [big.BitLen Z.ltb Z.compare Z.add].
  destruct (Z.ltb_spec (Z.pos (Pos.size m)) big.MinExp) as [U | _];
    [unfold big.MinExp in U; lia|].
  destruct (Z.ltb_spec big.MaxExp (Z.pos (Pos.size m))) as [U | _]; [lia|].
  destruct (Z.leb_spec (Z.pos (Pos.size m)) (Z.max (Z.pos (Pos.size m)) 64))
    as [_ | U]; [reflexivity | lia].
Qed.

Lemma pow10_size (D : Z) :
  0 <= D <= 255 ->
  exists mF, big.Exp 10 D = Z.pos mF /\ D + 1 <= Z.pos (Pos.size mF) <= 848.
Proof.
  intros HD.
  assert (E : big.Exp 10 D = 10 ^ D).
  { unfold big.Exp. destruct (Z.leb_spec D 0) as [H0 | H0]; [|reflexivity].
    replace D with 0 by lia. reflexivity. }
  assert (P : 0 < 10 ^ D) by (apply Z.pow_pos_nonneg; lia).
  exists (Z.to_pos (10 ^ D)). rewrite E, size_log2, !Z2Pos.id by lia.
  split; [reflexivity|]. split.
  - assert (L : 2 ^ D <= 10 ^ D) by (apply Z.pow_le_mono_l; lia).
    apply Z.log2_le_mono in L. rewrite Z.log2_pow2 in L by lia. lia.
  - assert (U : 10 ^ D <= 10 ^ 255) by (apply Z.pow_le_mono_r; lia).
    apply Z.log2_le_mono in U.
    replace (Z.log2 (10 ^ 255)) with 847 in U by (vm_compute; reflexivity).
    lia.
Qed.

(** [toDecimalUnit] never panics, and the precision of its result is the
    larger of 64, the balance's bit length and that of [10^decimals]. *)
Lemma toDecimalUnit_total (B D : Z) :
  0 <= D <= 255 ->
  exists f,
    toDecimalUnit B D = Some f
    /\ big.prec f = Z.max (Z.max (big.BitLen B) 64)
                          (Z.max (big.BitLen (big.Exp 10 D)) 64).
Proof.
  intros HD. destruct (pow10_size D HD) as (mF & EF & SF).
  unfold toDecimalUnit. rewrite EF, (SetInt_pos mF) by (unfold big.MaxExp; lia).
  unfold big.Quo, big.resultPrec. cbn [Z.eqb big.val big.prec big.neg].
  destruct (big.val (big.SetInt B)) eqn:V; eexists; (split; [reflexivity|]);
    cbn [big.prec big.BitLen]; unfold big.SetInt; cbn [big.prec]; reflexivity.
Qed.

Lemma dyadic_scale (a e z : Z) :
  (dyadic a e * inject_Z z == dyadic (a * z) e)%Q.
Proof. unfold dyadic. rewrite inject_Z_mult. ring. Qed.

Lemma dyadic_int (z : Z) : (inject_Z z == dyadic z 0)%Q.
Proof. unfold dyadic. change (2 ^ 0)%Q with 1%Q. ring. Qed.

Lemma pow10_split (D : Z) : 0 <= D -> 10 ^ D = 5 ^ D * 2 ^ D.
Proof. intros H. change 10 with (5 * 2). apply Z.pow_mul_l. Qed.

(** When [5^D] divides the balance the quotient is a binary fraction, and
    [toDecimalUnit] returns it exactly. *)
Lemma toDecimalUnit_exact (B D : Z) :
  0 <= B -> 0 <= D <= 255 -> big.BitLen B <= big.MaxExp ->
  (5 ^ D | B) ->
  exists f,
    toDecimalUnit B D = Some f
    /\ xeq (scale10 (value f) D) (Fin (inject_Z B)).
Proof.
  intros HB HD Hlen [c Hc].
  destruct (pow10_size D HD) as (mF & EF & SF).
  assert (E10 : Z.pos mF = 10 ^ D).
  { rewrite <- EF. unfold big.Exp. destruct (Z.leb_spec D 0); [|reflexivity].
    replace D with 0 by lia. reflexivity. }
  assert (P5 : 0 < 5 ^ D) by (apply Z.pow_pos_nonneg; lia).
  unfold toDecimalUnit. rewrite EF, (SetInt_pos mF) by (unfold big.MaxExp; lia).
  destruct B as [ | mB | mB ]; [ | | lia].
  - eexists. split; [reflexivity|]. cbn. ring.
  - cbn [big.BitLen] in Hlen. rewrite (SetInt_pos mB) by exact Hlen.
    unfold big.Quo, big.resultPrec. cbn [Z.eqb big.val big.prec big.neg xorb].
    set (p := Z.max (Z.max (Z.pos (Pos.size mB)) 64) (Z.max (Z.pos (Pos.size mF)) 64)).
    assert (Hcpos : 0 < c) by nia.
    assert (Hsc : Z.pos (Pos.size (Z.to_pos c)) <= Z.pos (Pos.size mB)).
    { rewrite !size_log2, Z2Pos.id by lia.
      assert (c <= Z.pos mB) by nia.
      pose proof (Z.log2_le_mono c (Z.pos mB)). lia. }
    destruct (uquo_exact p mB 0 mF 0 c D) as (m' & e' & U & V);
      try lia.
    { rewrite E10, Hc, pow10_split by lia. ring. }
    { unfold big.MinExp, big.MaxExp in *. lia. }
    eexists. split; [reflexivity|].
    unfold value. cbn [big.val big.neg]. rewrite U.
    cbn [signed scale10 xeq]. rewrite V.
    rewrite dyadic_scale, dyadic_int, dyadic_eq.
    replace (Z.min (0 - 0 - D) 0) with (- D) by lia.
    replace (0 - 0 - D - - D) with 0 by lia.
    replace (0 - - D) with D by lia.
    rewrite Hc, pow10_split by lia. rewrite Z.pow_0_r. ring.
Qed.

(** Conversely, a result that gives the balance back when multiplied by
    [10^D] forces [5^D] to divide the balance: a [Float] is a binary
    fraction. *)
Lemma exact_divides (f : big.Float) (B D : Z) :
  0 <= D ->
  xeq (scale10 (value f) D) (Fin (inject_Z B)) -> (5 ^ D | B).
Proof.
  intros HD. unfold value.
  destruct (big.val f) as [ | m e | ]; cbn [scale10 xeq].
  - intros H. rewrite Qmult_0_l in H.
    assert (B0 : B = 0) by (symmetry; apply inject_Z_injective; exact H).
    subst B. apply Z.divide_0_r.
  - rewrite dyadic_scale, dyadic_int, dyadic_eq.
    set (a := signed (big.neg f) m).
    rewrite pow10_split by lia.
    destruct (Z.min_spec e 0) as [[He ->] | [He ->]].
    + replace (e - e) with 0 by lia. rewrite Z.pow_0_r, Z.mul_1_r.
      intros H.
      apply (Z.gauss (5 ^ D) (2 ^ (0 - e)) B).
      * exists (a * 2 ^ D). rewrite (Z.mul_comm (2 ^ (0 - e)) B), <- H. ring.
      * apply Z.coprime_pow_l; [lia|]. apply Z.coprime_pow_r; [lia|].
        reflexivity.
    + replace (0 - 0) with 0 by lia. rewrite Z.pow_0_r, Z.mul_1_r.
      intros H. exists (a * 2 ^ D * 2 ^ (e - 0)). rewrite <- H. ring.
  - destruct (big.neg f); intros [].
Qed.

(** ** Rounding to nearest *)

Lemma low_bits (m s : Z) :
  1 <= s ->
  m mod 2 ^ s
  = m mod 2 ^ (s - 1) + 2 ^ (s - 1) * Z.b2z (Z.testbit m (s - 1)).
Proof.
  intros Hs. rewrite Z.testbit_spec' by lia.
  replace s with ((s - 1) + 1) at 1 by lia.
  rewrite Z.pow_add_r, Z.pow_1_r by lia.
  apply Z.rem_mul_r; [|lia].
  apply Z.pow_nonzero; lia.
Qed.

(** [round] moves a mantissa of more than [p] bits by at most half a unit
    of the last place kept.  The number rounded is [m] itself, or, with the
    sticky bit, some number strictly between [m] and [m + 1]. *)
Lemma round_bounds (p : Z) (m : positive) (e : Z) (sbit : bool) :
  1 <= p -> p < Z.pos (Pos.size m) -> big.goExp m e < big.MaxExp ->
  exists M,
    big.round p m e sbit = big.finite M (e + (Z.pos (Pos.size m) - p))
    /\ 2 * Z.pos M * 2 ^ (Z.pos (Pos.size m) - p) - 2 ^ (Z.pos (Pos.size m) - p)
       <= 2 * Z.pos m
    /\ 2 * (Z.pos m + Z.b2z sbit)
       <= 2 * Z.pos M * 2 ^ (Z.pos (Pos.size m) - p) + 2 ^ (Z.pos (Pos.size m) - p).
Proof.
  intros Hp Hs Hexp. unfold big.round.
  set (bits := Z.pos (Pos.size m)) in *.
  destruct (Z.leb_spec bits p) as [K | _]; [lia|].
  set (s := bits - p).
  replace (bits - p - 1) with (s - 1) by (unfold s; lia).
  replace (s - 1 + 1) with s by lia.
  replace (e + (s - 1) + 1) with (e + s) by lia.
  assert (Hs1 : 1 <= s) by (unfold s; lia).
  pose proof (low_bits (Z.pos m) s Hs1) as L.
  rewrite Z.shiftr_div_pow2 by lia.
  assert (P : 0 < 2 ^ s) by (apply Z.pow_pos_nonneg; lia).
  assert (P1 : 0 < 2 ^ (s - 1)) by (apply Z.pow_pos_nonneg; lia).
  assert (P2 : 2 ^ s = 2 * 2 ^ (s - 1)).
  { replace s with (1 + (s - 1)) at 1 by lia. rewrite Z.pow_add_r by lia. reflexivity. }
  pose proof (Z.div_mod (Z.pos m) (2 ^ s) ltac:(lia)) as DM.
  pose proof (Z.mod_pos_bound (Z.pos m) (2 ^ (s - 1)) P1) as T.
  set (q := Z.pos m / 2 ^ s) in *.
  set (t := Z.pos m mod 2 ^ (s - 1)) in *.
  assert (Hq : 0 < q).
  { pose proof (size_bounds m) as [Lm _]. fold bits in Lm.
    assert (2 ^ s <= 2 ^ (bits - 1)) by (apply Z.pow_le_mono_r; unfold s; lia).
    pose proof (Z.mod_pos_bound (Z.pos m) (2 ^ s) P). nia. }
  destruct (Z.testbit (Z.pos m) (s - 1)) eqn:Rb; cbn [Z.b2z andb] in *.
  - destruct (sbit || negb (t =? 0) || Z.odd q) eqn:Inc; cbv iota.
    + (* round up *)
      assert (R : (if (q + 1 =? 2 ^ p) && (big.MaxExp <=? big.goExp m e)
                   then big.inf
                   else big.finite (Z.to_pos (q + 1)) (e + s))
                  = big.finite (Z.to_pos (q + 1)) (e + s)).
      { destruct (Z.leb_spec big.MaxExp (big.goExp m e)); [lia|].
        rewrite andb_false_r. reflexivity. }
      rewrite R. exists (Z.to_pos (q + 1)). split; [reflexivity|].
      rewrite Z2Pos.id by lia. destruct sbit; cbn [Z.b2z]; nia.
    + (* a tie, and the mantissa kept is even *)
      apply orb_false_iff in Inc. destruct Inc as [Inc _].
      apply orb_false_iff in Inc. destruct Inc as [-> Ht].
      apply negb_false_iff, Z.eqb_eq in Ht.
      exists (Z.to_pos q). split; [reflexivity|].
      rewrite Z2Pos.id by lia. cbn [Z.b2z]. nia.
  - cbv iota. exists (Z.to_pos q). split; [reflexivity|].
    rewrite Z2Pos.id by lia. destruct sbit; cbn [Z.b2z]; nia.
Qed.

(** [uquo] returns the quotient of the mantissas moved by at most half a
    unit of the last place kept. *)
Lemma uquo_bounds (p : Z) (mx : positive) (ex : Z) (my : positive) (ey : Z) :
  1 <= p ->
  big.MinExp <= ex - ey + Z.pos (Pos.size mx) - Z.pos (Pos.size my) ->
  ex - ey + Z.pos (Pos.size mx) - Z.pos (Pos.size my) + 1 < big.MaxExp ->
  exists M s k,
    1 <= s /\ 0 <= k
    /\ big.uquo p mx ex my ey = big.finite M (ex - ey - k + s)
    /\ (2 * Z.pos M * 2 ^ s - 2 ^ s) * Z.pos my <= 2 * (Z.pos mx * 2 ^ k)
    /\ 2 * (Z.pos mx * 2 ^ k) <= (2 * Z.pos M * 2 ^ s + 2 ^ s) * Z.pos my
    /\ 2 ^ (s + p - 1) * Z.pos my <= Z.pos mx * 2 ^ k.
Proof.
  intros Hp Hmin Hmax. unfold big.uquo.
  set (sx := Z.pos (Pos.size mx)) in *. set (sy := Z.pos (Pos.size my)) in *.
  set (k := Z.max 0 (p + 1 + sy - sx)).
  set (X := Z.pos mx * 2 ^ k).
  pose proof (size_bounds mx) as [Lx Ux]. pose proof (size_bounds my) as [Ly Uy].
  fold sx in Lx, Ux. fold sy in Ly, Uy.
  assert (Hk : 0 <= k) by (unfold k; lia).
  assert (Pk : 0 < 2 ^ k) by (apply Z.pow_pos_nonneg; lia).
  pose proof (Z.div_mod X (Z.pos my) ltac:(lia)) as DM.
  pose proof (Z.mod_pos_bound X (Z.pos my) ltac:(lia)) as RM.
  set (q := X / Z.pos my) in *. set (r := X mod Z.pos my) in *.
  (* the size of the quotient *)
  assert (XL : 2 ^ (sx + k - sy - 1) * 2 ^ sy <= X).
  { rewrite <- Z.pow_add_r by (unfold k, sx, sy; lia).
    replace (sx + k - sy - 1 + sy) with ((sx - 1) + k) by lia.
    rewrite Z.pow_add_r by (unfold sx; lia). unfold X. nia. }
  assert (XU : X < 2 ^ (sx + k - sy + 1) * 2 ^ (sy - 1)).
  { rewrite <- Z.pow_add_r by (unfold k, sx, sy; lia).
    replace (sx + k - sy + 1 + (sy - 1)) with (sx + k) by lia.
    rewrite Z.pow_add_r by (unfold sx; lia). unfold X. nia. }
  assert (P1 : 0 < 2 ^ (sx + k - sy - 1))
    by (apply Z.pow_pos_nonneg; unfold k; lia).
  assert (P2 : 0 < 2 ^ (sx + k - sy + 1))
    by (apply Z.pow_pos_nonneg; unfold k; lia).
  assert (QL : 2 ^ (sx + k - sy - 1) <= q) by nia.
  assert (QU : q < 2 ^ (sx + k - sy + 1)) by nia.
  assert (Hq : 0 < q) by lia.
  assert (SL : sx + k - sy <= Z.pos (Pos.size (Z.to_pos q))).
  { rewrite size_log2, Z2Pos.id by lia.
    apply Z.log2_le_pow2 in QL; lia. }
  assert (SU : Z.pos (Pos.size (Z.to_pos q)) <= sx + k - sy + 1).
  { rewrite size_log2, Z2Pos.id by lia.
    apply Z.log2_lt_pow2 in QU; lia. }
  unfold big.setExpAndRound, big.goExp.
  set (sq := Z.pos (Pos.size (Z.to_pos q))) in *.
  destruct (Z.ltb_spec (ex - ey - k + sq) big.MinExp) as [U | _]; [lia|].
  destruct (Z.ltb_spec big.MaxExp (ex - ey - k + sq)) as [U | _]; [lia|].
  destruct (round_bounds p (Z.to_pos q) (ex - ey - k) (negb (r =? 0)) Hp)
    as (M & R & B1 & B2).
  { fold sq. unfold k in SL. lia. }
  { unfold big.goExp. fold sq. lia. }
  fold sq in R, B1, B2. rewrite Z2Pos.id in B1, B2 by lia.
  exists M, (sq - p), k.
  split; [unfold k in SL; lia|]. split; [exact Hk|].
  split; [rewrite R; f_equal; lia|].
  assert (Ps : 0 < 2 ^ (sq - p)) by (apply Z.pow_pos_nonneg; unfold k in SL; lia).
  assert (Rb : X <= (q + Z.b2z (negb (r =? 0))) * Z.pos my).
  { destruct (Z.eqb_spec r 0) as [-> | N]; cbn [negb Z.b2z]; nia. }
  split; [nia|]. split; [nia|].
  replace (sq - p + p - 1) with (sq - 1) by lia.
  pose proof (size_bounds (Z.to_pos q)) as [Lq _].
  fold sq in Lq. rewrite Z2Pos.id in Lq by lia. fold X. nia.
Qed.

Lemma dyadic_sub (a b e : Z) : (dyadic a e - dyadic b e == dyadic (a - b) e)%Q.
Proof.
  unfold dyadic, Z.sub. rewrite inject_Z_plus, inject_Z_opp. ring.
Qed.

Lemma dyadic_abs (a e : Z) : (Qabs (dyadic a e) == dyadic (Z.abs a) e)%Q.
Proof.
  unfold dyadic. rewrite Qabs_Qmult.
  rewrite (Qabs_pos (2 ^ e)) by (apply Qlt_le_weak, pow2_pos).
  unfold inject_Z. rewrite <- Zabs_Qabs. reflexivity.
Qed.

Lemma dyadic_le_same (a b e : Z) : (dyadic a e <= dyadic b e)%Q <-> a <= b.
Proof.
  unfold dyadic. rewrite Qmult_le_r by apply pow2_pos.
  rewrite Zle_Qle. tauto.
Qed.

(** The quotient that [toDecimalUnit] returns, multiplied by [10^D], is the
    balance with a relative error of at most [2^-prec]. *)
Lemma toDecimalUnit_rounded (B D : Z) :
  0 <= B -> 0 <= D <= 255 -> big.BitLen B < big.MaxExp ->
  exists f,
    toDecimalUnit B D = Some f
    /\ within B (big.prec f) (scale10 (value f) D).
Proof.
  intros HB HD Hlen.
  destruct (pow10_size D HD) as (mF & EF & SF).
  assert (E10 : Z.pos mF = 10 ^ D).
  { rewrite <- EF. unfold big.Exp. destruct (Z.leb_spec D 0); [|reflexivity].
    replace D with 0 by lia. reflexivity. }
  unfold toDecimalUnit. rewrite EF, (SetInt_pos mF) by (unfold big.MaxExp; lia).
  destruct B as [ | mB | mB ]; [ | | lia].
  - exists (big.mkFloat (Z.max (Z.max 0 64) (Z.max (Z.pos (Pos.size mF)) 64))
                        false big.zero).
    split; [reflexivity|]. unfold value. cbn [big.val scale10 within].
    unfold Qle, Qabs, Qminus, Qplus, Qmult, Qopp, inject_Z. cbn. lia.
  - cbn [big.BitLen] in Hlen. rewrite (SetInt_pos mB) by lia.
    unfold big.Quo, big.resultPrec. cbn [Z.eqb big.val big.prec big.neg xorb].
    set (p := Z.max (Z.max (Z.pos (Pos.size mB)) 64) (Z.max (Z.pos (Pos.size mF)) 64)).
    destruct (uquo_bounds p mB 0 mF 0) as (M & s & k & Hs & Hk & U & B1 & B2 & B3);
      try (unfold big.MinExp, big.MaxExp in *; lia).
    eexists. split; [reflexivity|].
    unfold value. cbn [big.val big.neg big.prec]. rewrite U.
    cbn [signed scale10 within].
    assert (Pk : 0 < 2 ^ k) by (apply Z.pow_pos_nonneg; lia).
    assert (Ps : 0 < 2 ^ s) by (apply Z.pow_pos_nonneg; lia).
    assert (Pp : 0 < 2 ^ p) by (apply Z.pow_pos_nonneg; lia).
    rewrite dyadic_scale, (dyadic_int (Z.pos mB)).
    rewrite (dyadic_shift (Z.pos M * 10 ^ D) (0 - 0 - k + s) (- k)) by lia.
    rewrite (dyadic_shift (Z.pos mB) 0 (- k)) by lia.
    replace (0 - 0 - k + s - - k) with s by lia.
    replace (0 - - k) with k by lia.
    rewrite dyadic_sub, dyadic_abs, dyadic_scale.
    apply dyadic_le_same.
    rewrite E10 in B1, B2, B3.
    assert (P2 : 2 ^ s * 2 ^ p = 2 * 2 ^ (s + p - 1)).
    { rewrite <- Z.pow_add_r by lia.
      replace (s + p) with (1 + (s + p - 1)) at 1 by lia.
      rewrite Z.pow_add_r by lia. reflexivity. }
    assert (P10 : 0 < 10 ^ D) by (apply Z.pow_pos_nonneg; lia).
    assert (Pq : 0 < 2 ^ (s + p - 1)) by (apply Z.pow_pos_nonneg; lia).
    set (A := Z.pos M * 10 ^ D * 2 ^ s) in *.
    set (Bk := Z.pos mB * 2 ^ k) in *.
    assert (H1 : 2 * Z.abs (A - Bk) <= 2 ^ s * 10 ^ D) by (unfold A; lia).
    nia.
Qed.

(** ** Reading integers *)

Lemma decDigit_digitVal (c : ascii) :
  decDigit c = if big.digitVal c <? 10 then Some (big.digitVal c) else None.
Proof.
  destruct c as [[] [] [] [] [] [] [] []]; vm_compute; reflexivity.
Qed.

Lemma hexDigit_digitVal (c : ascii) :
  hexDigit c = if big.digitVal c <? 16 then Some (big.digitVal c) else None.
Proof.
  destruct c as [[] [] [] [] [] [] [] []]; vm_compute; reflexivity.
Qed.

Section ScanDigits.

Variable b : Z.
Variable digit : ascii -> option Z.
Hypothesis digit_ok :
  forall c, digit c = if big.digitVal c <? b then Some (big.digitVal c) else None.

Lemma scanDigits_spec (s : string) (acc : Z) (count : nat) :
  big.scanDigits b s acc count
  = (acc * b ^ Z.of_nat (List.length (fst (leadingDigits digit s)))
     + positional b (fst (leadingDigits digit s)),
     (count + List.length (fst (leadingDigits digit s)))%nat,
     snd (leadingDigits digit s)).
Proof.
  revert acc count. induction s as [ | c r IH]; intros acc count.
  - cbn. f_equal; f_equal; lia.
  - cbn [big.scanDigits leadingDigits]. rewrite digit_ok.
    destruct (Z.ltb_spec (big.digitVal c) b) as [Hd | Hd].
    + destruct (Z.leb_spec b (big.digitVal c)) as [K | _]; [lia|].
      rewrite IH. destruct (leadingDigits digit r) as [ds rest].
      cbn [fst snd List.length positional].
      rewrite Nat2Z.inj_succ, Z.pow_succ_r by lia.
      f_equal; f_equal; first [ring | lia].
    + destruct (Z.leb_spec b (big.digitVal c)) as [_ | K]; [|lia].
      cbn. f_equal; f_equal; lia.
Qed.

Lemma scanSign_splitSign (s : string) :
  big.scanSign s = match s with
                   | EmptyString => None
                   | _ => Some (splitSign s)
                   end.
Proof.
  destruct s as [ | c r]; [reflexivity|].
  unfold big.scanSign, splitSign.
  destruct (Ascii.eqb_spec c "-") as [-> | N1]; [reflexivity|].
  destruct (Ascii.eqb_spec c "+") as [-> | N2]; [reflexivity|].
  destruct c as [[] [] [] [] [] [] [] []]; try reflexivity; congruence.
Qed.

(** [SetString]: the receiver ends as the integer at the head of the
    string, and the call succeeds exactly on the integer literals. *)
Lemma SetString_spec (s : string) :
  fst (big.SetString 0 s b) = leadingInteger b digit s
  /\ (snd (big.SetString 0 s b) = true
      <-> integerLiteral b digit s = Some (leadingInteger b digit s))
  /\ (snd (big.SetString 0 s b) = false <-> integerLiteral b digit s = None).
Proof.
  unfold big.SetString, leadingInteger, integerLiteral.
  rewrite scanSign_splitSign.
  destruct s as [ | c r]; [cbn; intuition congruence|].
  destruct (splitSign (String c r)) as [n r'].
  rewrite scanDigits_spec.
  destruct (leadingDigits digit r') as [ds rest]. cbn [fst snd].
  destruct ds as [ | d ds]; cbn [List.length Nat.add].
  - cbn. destruct n; cbn; intuition congruence.
  - rewrite Z.mul_0_l, Z.add_0_l.
    destruct rest; cbn [fst snd withSign]; destruct n; intuition congruence.
Qed.

End ScanDigits.

(** ** Case folding *)

Lemma code_range (c : ascii) : 0 <= code c < 256.
Proof.
  unfold code. pose proof (N_ascii_bounded c). lia.
Qed.

Lemma code_of_code (n : Z) : 0 <= n < 256 -> code (of_code n) = n.
Proof.
  intros H. unfold code, of_code. rewrite N_ascii_embedding by lia. lia.
Qed.

Lemma code_inj (a b : ascii) : code a = code b -> a = b.
Proof.
  unfold code. intros H.
  rewrite <- (ascii_N_embedding a), <- (ascii_N_embedding b).
  f_equal. lia.
Qed.

Lemma eqb_code (a b : ascii) : Ascii.eqb a b = (code a =? code b).
Proof.
  destruct (Ascii.eqb_spec a b) as [-> | N].
  - symmetry. apply Z.eqb_refl.
  - symmetry. apply Z.eqb_neq. intros K. apply N, code_inj, K.
Qed.

Lemma between_code (lo hi c : ascii) :
  between lo hi c = (code lo <=? code c) && (code c <=? code hi).
Proof. reflexivity. Qed.

Lemma code_upper (c : ascii) :
  code (strings.upper c)
  = if (97 <=? code c) && (code c <=? 122) then code c - 32 else code c.
Proof.
  unfold strings.upper. rewrite between_code.
  change (code "a") with 97. change (code "z") with 122.
  destruct ((97 <=? code c) && (code c <=? 122)) eqn:E; [|reflexivity].
  apply andb_true_iff in E. destruct E as [E1 E2].
  apply Z.leb_le in E1, E2. apply code_of_code. lia.
Qed.

Lemma code_lower (c : ascii) :
  code (lower c)
  = if (65 <=? code c) && (code c <=? 90) then code c + 32 else code c.
Proof.
  unfold lower. rewrite between_code.
  change (code "A") with 65. change (code "Z") with 90.
  destruct ((65 <=? code c) && (code c <=? 90)) eqn:E; [|reflexivity].
  apply andb_true_iff in E. destruct E as [E1 E2].
  apply Z.leb_le in E1, E2. apply code_of_code. lia.
Qed.

Ltac split_leb :=
  repeat match goal with
         | |- context [?a <=? ?b] => destruct (Z.leb_spec a b)
         | |- context [?a <? ?b] => destruct (Z.ltb_spec a b)
         | |- context [?a =? ?b] => destruct (Z.eqb_spec a b)
         end.

(** On upper-cased bytes [EqualFold]'s comparison is equality, and that is
    equality of the lower-cased bytes. *)
Lemma fold_eq_upper (x y : ascii) :
  strings.fold_eq (strings.upper x) (strings.upper y)
  = Ascii.eqb (lower x) (lower y).
Proof.
  unfold strings.fold_eq. rewrite !eqb_code.
  destruct (code (strings.upper y) <? code (strings.upper x)) eqn:L;
    revert L; rewrite !between_code, !code_lower, !code_upper;
    change (code "A") with 65; change (code "Z") with 90;
    pose proof (code_range x); pose proof (code_range y);
    destruct (Z.leb_spec 97 (code x)), (Z.leb_spec (code x) 122),
             (Z.leb_spec 65 (code x)), (Z.leb_spec (code x) 90),
             (Z.leb_spec 97 (code y)), (Z.leb_spec (code y) 122),
             (Z.leb_spec 65 (code y)), (Z.leb_spec (code y) 90);
    cbn [andb]; intros _; try lia;
    split_leb; cbn [andb]; try reflexivity; lia.
Qed.

Lemma EqualFold_ToUpper (a b : string) :
  strings.EqualFold (strings.ToUpper a) (strings.ToUpper b)
  = sameIgnoringCase a b.
Proof.
  unfold sameIgnoringCase. revert b.
  induction a as [ | x a IH]; intros [ | y b]; cbn; try reflexivity.
  rewrite fold_eq_upper, IH. reflexivity.
Qed.

Lemma exceedsBalanceThreshold_lt (balance threshold : big.Float) :
  exceedsBalanceThreshold balance threshold = true
  <-> xlt (value balance) (value threshold).
Proof.
  unfold exceedsBalanceThreshold. rewrite Z.eqb_eq. apply Cmp_lt.
Qed.

(** ** The decimal converter and the threshold evaluator *)

(** C1, as amended.  For a balance [B >= 0] and decimals [D] (a [uint8]),
    [toDecimalUnit] returns a number whose precision [p] is the largest of
    64, the bit length of [B] and that of [10^D], hence at least the bit
    length of [B].  The number multiplied by [10^D] is [B] with a relative
    error of at most [2^-p]; it is [B] exactly when, and only when, [5^D]
    divides [B] (a [big.Float] is a binary fraction, so any other quotient
    is rounded); with [D = 0] the number is [B] itself. *)
Theorem toDecimalUnit_spec (B D : Z) :
  0 <= B -> 0 <= D <= 255 -> big.BitLen B < big.MaxExp ->
  exists f,
    toDecimalUnit B D = Some f
    /\ big.prec f = Z.max 64 (Z.max (big.BitLen B) (big.BitLen (10 ^ D)))
    /\ big.BitLen B <= big.prec f
    /\ within B (big.prec f) (scale10 (value f) D)
    /\ (D = 0 -> xeq (value f) (Fin (inject_Z B)))
    /\ (xeq (scale10 (value f) D) (Fin (inject_Z B)) <-> (5 ^ D | B)).
Proof.
  intros HB HD Hlen.
  destruct (toDecimalUnit_total B D HD) as (f & Hf & Hp).
  assert (E10 : big.Exp 10 D = 10 ^ D).
  { unfold big.Exp. destruct (Z.leb_spec D 0); [|reflexivity].
    replace D with 0 by lia. reflexivity. }
  rewrite E10 in Hp.
  exists f. split; [exact Hf|]. split; [lia|]. split; [lia|].
  split.
  { destruct (toDecimalUnit_rounded B D HB HD Hlen) as (f' & Hf' & W).
    congruence. }
  assert (Iff : xeq (scale10 (value f) D) (Fin (inject_Z B)) <-> (5 ^ D | B)).
  { split.
    - apply exact_divides. lia.
    - intros Hdiv.
      destruct (toDecimalUnit_exact B D HB HD ltac:(lia) Hdiv) as (f' & Hf' & X).
      congruence. }
  split; [|exact Iff].
  intros ->. assert (X : xeq (scale10 (value f) 0) (Fin (inject_Z B))).
  { apply Iff. apply Z.divide_1_l. }
  destruct (value f); cbn in *; try exact X.
  rewrite <- X. change (inject_Z 1) with 1%Q. ring.
Qed.

Lemma toDecimalUnit_spec_witness :
  exists f,
    toDecimalUnit 500000000000000000 18 = Some f
    /\ big.prec f
       = Z.max 64 (Z.max (big.BitLen 500000000000000000) (big.BitLen (10 ^ 18)))
    /\ big.BitLen 500000000000000000 <= big.prec f
    /\ within 500000000000000000 (big.prec f) (scale10 (value f) 18)
    /\ (18 = 0 -> xeq (value f) (Fin (inject_Z 500000000000000000)))
    /\ (xeq (scale10 (value f) 18) (Fin (inject_Z 500000000000000000))
        <-> (5 ^ 18 | 500000000000000000)).
Proof.
  apply (toDecimalUnit_spec 500000000000000000 18).
  - lia.
  - lia.
  - vm_compute. reflexivity.
Defined.

(** The example of the specification: 5 * 10^17 smallest units at 18
    decimals are 0.5, which is below the threshold "1.0" and not below the
    threshold "0.1". *)
Example half_ether :
  exists f t1 t2,
    toDecimalUnit 500000000000000000 18 = Some f
    /\ xeq (value f) (Fin (1 # 2))
    /\ big.SetString_Float "1.0" = Some t1
    /\ exceedsBalanceThreshold f t1 = true
    /\ big.SetString_Float "0.1" = Some t2
    /\ exceedsBalanceThreshold f t2 = false.
Proof.
  do 3 eexists.
  split; [vm_compute; reflexivity|].
  split; [vm_compute; reflexivity|].
  split; [vm_compute; reflexivity|].
  split; [vm_compute; reflexivity|].
  split; vm_compute; reflexivity.
Qed.

(** C1 as stated fails: 27 smallest units at 2 decimals are 0.27, which has
    no finite binary expansion.  The result multiplied by [10^2] is not 27,
    neither as an exact product nor as the rounded product of [Float.Mul]. *)
Lemma toDecimalUnit_inexact :
  exists f,
    toDecimalUnit 27 2 = Some f
    /\ ~ xeq (scale10 (value f) 2) (Fin (inject_Z 27))
    /\ exists g,
         big.Mul 0 f (big.SetInt (10 ^ 2)) = Some g
         /\ big.Cmp g (big.SetInt 27) <> 0.
Proof.
  eexists. split; [vm_compute; reflexivity|]. split.
  - vm_compute. intros K. discriminate K.
  - eexists. split; [vm_compute; reflexivity|].
    vm_compute. intros K. discriminate K.
Qed.

(** C3.  [exceedsBalanceThreshold] answers true exactly when the balance is
    strictly below the threshold; for equal values it answers false,
    whatever their precisions and mantissas. *)
Theorem exceedsBalanceThreshold_strict (balance threshold : big.Float) :
  (exceedsBalanceThreshold balance threshold = true
   <-> xlt (value balance) (value threshold))
  /\ (xeq (value balance) (value threshold)
      -> exceedsBalanceThreshold balance threshold = false).
Proof.
  pose proof (exceedsBalanceThreshold_lt balance threshold) as Iff.
  split; [exact Iff|].
  intros Heq. destruct (exceedsBalanceThreshold balance threshold) eqn:E;
    [|reflexivity].
  exfalso. apply (xlt_irrefl _ _ Heq). apply Iff. reflexivity.
Qed.

Lemma exceedsBalanceThreshold_strict_witness :
  exceedsBalanceThreshold
    (big.mkFloat 64 false (big.finite 1 (-1)))
    (big.mkFloat 128 false (big.finite 9223372036854775808 (-64))) = false.
Proof.
  apply (proj2 (exceedsBalanceThreshold_strict
                  (big.mkFloat 64 false (big.finite 1 (-1)))
                  (big.mkFloat 128 false (big.finite 9223372036854775808 (-64))))).
  vm_compute. reflexivity.
Defined.

(** ** The threshold decision *)

Lemma below_exact_scaled (B D : Z) (q v : Q) :
  0 <= D ->
  (q * inject_Z (10 ^ D) == inject_Z B)%Q ->
  (q < v)%Q <-> below_exact B D v.
Proof.
  intros HD Hq. unfold below_exact.
  assert (P : (0 < inject_Z (10 ^ D))%Q).
  { change 0%Q with (inject_Z 0). rewrite <- Zlt_Qlt.
    apply Z.pow_pos_nonneg; lia. }
  assert (N : ~ (inject_Z (10 ^ D) == 0)%Q).
  { intros K. rewrite K in P. exact (Qlt_irrefl _ P). }
  rewrite <- Hq, Qdiv_mult_l by exact N. reflexivity.
Qed.

Lemma Quo_prec (zprec : Z) (x y f : big.Float) :
  zprec <> 0 -> big.Quo zprec x y = Some f -> big.prec f = zprec.
Proof.
  intros N. unfold big.Quo, big.resultPrec.
  destruct (Z.eqb_spec zprec 0) as [K | _]; [contradiction|].
  destruct (big.val x), (big.val y); intros H; inversion H; reflexivity.
Qed.

Lemma Mul_prec (zprec : Z) (x y f : big.Float) :
  zprec <> 0 -> big.Mul zprec x y = Some f -> big.prec f = zprec.
Proof.
  intros N. unfold big.Mul, big.resultPrec.
  destruct (Z.eqb_spec zprec 0) as [K | _]; [contradiction|].
  destruct (big.val x), (big.val y); intros H; inversion H; reflexivity.
Qed.

(** A threshold is read at 64 bits of precision, unless it is an infinity. *)
Lemma SetString_Float_prec (s : string) (t : big.Float) :
  big.SetString_Float s = Some t -> big.prec t = 64 \/ big.val t = big.inf.
Proof.
  unfold big.SetString_Float.
  destruct (_ || _); [intros H; inversion H; right; reflexivity|].
  destruct (_ || _); [intros H; inversion H; right; reflexivity|].
  destruct (big.scan s) as [[f rest] | ] eqn:S; [|discriminate].
  destruct rest; [|discriminate]. intros H. inversion H. subst t. clear H.
  left. revert S. unfold big.scan.
  destruct (big.scanSign s) as [[sneg r] | ]; [|discriminate].
  destruct (big.nat_scan r) as [[[[mant b] fcount] r1] | ]; [|discriminate].
  destruct (big.scanExponent r1) as [[[exp ebase] rest] | ]; [|discriminate].
  destruct mant as [ | m | m]; try (intros H; inversion H; reflexivity).
  unfold big.scan_value.
  destruct (_ && _); [|discriminate].
  destruct (_ =? 0); [intros H; inversion H; reflexivity|].
  destruct (big.pow5 _ _) as [p5 | ]; [|discriminate].
  destruct (_ <? 0).
  - destruct (big.Quo 64 _ p5) as [g | ] eqn:Q; [|discriminate].
    intros H. inversion H. subst g. apply (Quo_prec 64 _ _ _ ltac:(lia) Q).
  - destruct (big.Mul 64 _ p5) as [g | ] eqn:Q; [|discriminate].
    intros H. inversion H. subst g. apply (Mul_prec 64 _ _ _ ltac:(lia) Q).
Qed.

(** *** Reading a decimal threshold *)

Lemma decDigit_char (c : ascii) (d : Z) :
  decDigit c = Some d ->
  Ascii.eqb c "." = false /\ Ascii.eqb c "_" = false
  /\ big.digitVal c = d /\ 0 <= d < 10
  /\ between "0" "9" c = true /\ code c - code "0" = d.
Proof.
  intros H.
  destruct c as [[] [] [] [] [] [] [] []]; vm_compute in H; try discriminate H;
    injection H as <-; repeat split; try reflexivity; try lia.
Qed.

Lemma decDigit_none (c : ascii) :
  decDigit c = None -> 10 <= big.digitVal c /\ between "0" "9" c = false.
Proof.
  intros H.
  destruct c as [[] [] [] [] [] [] [] []]; vm_compute in H; try discriminate H;
    split; vm_compute; try reflexivity; intros K; discriminate K.
Qed.

Lemma nat_scan_loop_digits (r : string) :
  forall fracOk prev inval acc count dp,
    big.nat_scan_loop 10 r fracOk prev inval acc count dp
    = big.nat_scan_loop 10 (snd (leadingDigits decDigit r)) fracOk
        (afterDigits (fst (leadingDigits decDigit r)) prev) inval
        (acc * 10 ^ Z.of_nat (List.length (fst (leadingDigits decDigit r)))
         + positional 10 (fst (leadingDigits decDigit r)))
        (count + Z.of_nat (List.length (fst (leadingDigits decDigit r)))) dp.
Proof.
  induction r as [ | c r IH]; intros fracOk prev inval acc count dp.
  - cbn [leadingDigits fst snd List.length positional afterDigits big.nat_scan_loop].
    change (Z.of_nat 0) with 0. rewrite Z.pow_0_r, Z.mul_1_r, !Z.add_0_r. reflexivity.
  - cbn [leadingDigits]. destruct (decDigit c) as [d | ] eqn:Hc.
    + destruct (decDigit_char c d Hc) as (P & U & V & R & _).
      destruct (leadingDigits decDigit r) as [ds rest] eqn:L.
      cbn [fst snd] in *. cbn [big.nat_scan_loop]. rewrite P, U. cbn [andb].
      rewrite V. destruct (Z.leb_spec 10 d) as [K | _]; [lia|].
      rewrite IH. cbn [positional List.length afterDigits].
      rewrite Nat2Z.inj_succ, Z.pow_succ_r by lia.
      f_equal; [destruct ds; reflexivity | ring | lia].
    + cbn [fst snd List.length positional afterDigits].
      change (Z.of_nat 0) with 0. rewrite Z.pow_0_r, Z.mul_1_r, !Z.add_0_r. reflexivity.
Qed.

Lemma nat_scan_loop_stop (c : ascii) (r : string) fracOk prev inval acc count dp :
  decDigit c = None ->
  Ascii.eqb c "." && fracOk = false -> Ascii.eqb c "_" = false ->
  big.nat_scan_loop 10 (String c r) fracOk prev inval acc count dp
  = (acc, count, dp, prev, inval, String c r).
Proof.
  intros D P U. cbn [big.nat_scan_loop]. rewrite P, U.
  destruct (decDigit_none c D) as [K _].
  destruct (Z.leb_spec 10 (big.digitVal c)); [reflexivity | lia].
Qed.

Lemma scanExponent_loop_digits (r : string) :
  forall prev inval has acc,
    big.scanExponent_loop r prev inval has acc
    = big.scanExponent_loop (snd (leadingDigits decDigit r))
        (afterDigits (fst (leadingDigits decDigit r)) prev) inval
        (match fst (leadingDigits decDigit r) with [] => has | _ => true end)
        (acc * 10 ^ Z.of_nat (List.length (fst (leadingDigits decDigit r)))
         + positional 10 (fst (leadingDigits decDigit r))).
Proof.
  induction r as [ | c r IH]; intros prev inval has acc.
  - cbn [leadingDigits fst snd List.length positional afterDigits big.scanExponent_loop].
    change (Z.of_nat 0) with 0. rewrite Z.pow_0_r, Z.mul_1_r, !Z.add_0_r. reflexivity.
  - cbn [leadingDigits]. destruct (decDigit c) as [d | ] eqn:Hc.
    + destruct (decDigit_char c d Hc) as (P & U & V & R & B & C).
      destruct (leadingDigits decDigit r) as [ds rest] eqn:L.
      cbn [fst snd] in *. cbn [big.scanExponent_loop]. rewrite B, C.
      rewrite IH. cbn [positional List.length afterDigits].
      rewrite Nat2Z.inj_succ, Z.pow_succ_r by lia.
      f_equal; [destruct ds; reflexivity | destruct ds; reflexivity | ring].
    + cbn [fst snd List.length positional afterDigits].
      change (Z.of_nat 0) with 0. rewrite Z.pow_0_r, Z.mul_1_r, !Z.add_0_r. reflexivity.
Qed.

Lemma leadingDigits_head (digit : ascii -> option Z) (s : string) :
  match snd (leadingDigits digit s) with
  | EmptyString => True
  | String c _ => digit c = None
  end.
Proof.
  induction s as [ | c r IH]; [exact I|].
  cbn [leadingDigits]. destruct (digit c) eqn:D.
  - destruct (leadingDigits digit r). exact IH.
  - exact D.
Qed.

Lemma leadingDigits_length (digit : ascii -> option Z) (s : string) :
  (List.length (fst (leadingDigits digit s))
   + String.length (snd (leadingDigits digit s)) = String.length s)%nat.
Proof.
  induction s as [ | c r IH]; [reflexivity|].
  cbn [leadingDigits]. destruct (digit c).
  - destruct (leadingDigits digit r). cbn [fst snd List.length String.length] in *. lia.
  - reflexivity.
Qed.

Lemma leadingDigits_range (s : string) :
  Forall (fun d => 0 <= d < 10) (fst (leadingDigits decDigit s)).
Proof.
  induction s as [ | c r IH]; [constructor|].
  cbn [leadingDigits]. destruct (decDigit c) as [d | ] eqn:D.
  - destruct (leadingDigits decDigit r). cbn [fst] in *. constructor; [|exact IH].
    apply (decDigit_char c d D).
  - constructor.
Qed.

Lemma positional_range (ds : list Z) :
  Forall (fun d => 0 <= d < 10) ds ->
  0 <= positional 10 ds < 10 ^ Z.of_nat (List.length ds).
Proof.
  induction 1 as [ | d ds Hd _ IH]; [cbn; lia|].
  cbn [positional List.length]. rewrite Nat2Z.inj_succ, Z.pow_succ_r by lia.
  assert (0 < 10 ^ Z.of_nat (List.length ds)) by (apply Z.pow_pos_nonneg; lia).
  nia.
Qed.

Lemma positional_concat (base : Z) (xs ys : list Z) :
  positional base (xs ++ ys)
  = positional base xs * base ^ Z.of_nat (List.length ys) + positional base ys.
Proof.
  induction xs as [ | x xs IH]; cbn [positional app List.length].
  - lia.
  - rewrite IH, length_app, Nat2Z.inj_add, Z.pow_add_r by lia. ring.
Qed.

Lemma splitSign_inline (r : string) :
  match r with
  | String c r' =>
      if Ascii.eqb c "-" then (true, r')
      else if Ascii.eqb c "+" then (false, r')
      else (false, r)
  | EmptyString => (false, r)
  end = splitSign r.
Proof.
  destruct r as [ | c r']; [reflexivity|].
  destruct c as [[] [] [] [] [] [] [] []]; reflexivity.
Qed.

(** The exponent of a decimal literal, as [scanExponent] reads it. *)
Lemma scanExponent_decimal (r2 : string) (exp : Z) :
  decimalExponent r2 = Some exp ->
  big.MinInt64 <= exp <= big.MaxInt64 ->
  big.scanExponent r2 = Some (exp, 10, "").
Proof.
  intros H R. destruct r2 as [ | c r3]; [injection H as <-; reflexivity|].
  cbn [decimalExponent] in H. unfold big.scanExponent.
  destruct (Ascii.eqb c "e" || Ascii.eqb c "E"); [|discriminate H].
  cbn [Z.eqb]. rewrite splitSign_inline.
  unfold integerLiteral in H. destruct (splitSign r3) as [sneg r4].
  rewrite scanExponent_loop_digits.
  destruct (leadingDigits decDigit r4) as [ds rest].
  cbn [fst snd]. destruct ds as [ | d ds]; [discriminate H|].
  remember (positional 10 (d :: ds)) as v eqn:Ev.
  assert (Hl : List.length (d :: ds) <> O) by discriminate.
  remember (d :: ds) as l eqn:El.
  destruct rest; [|discriminate H]. injection H as H.
  rewrite El.
  cbn [big.scanExponent_loop afterDigits negb].
  rewrite Z.mul_0_l, Z.add_0_l. unfold withSign in H. rewrite H.
  destruct (Z.leb_spec big.MinInt64 exp); [|lia].
  destruct (Z.leb_spec exp big.MaxInt64); [|lia].
  reflexivity.
Qed.

(** The mantissa of a decimal literal, as [nat.scan] reads it. *)
Lemma nat_scan_decimal (r : string) :
  let ip := fst (leadingDigits decDigit r) in
  let r1 := snd (leadingDigits decDigit r) in
  let fr :=
    match r1 with
    | EmptyString => ([], r1)
    | String c r' =>
        if Ascii.eqb c "." then leadingDigits decDigit r' else ([], r1)
    end in
  forall exp,
    (ip ++ fst fr)%list <> [] ->
    decimalExponent (snd fr) = Some exp ->
    exists fcount,
      big.nat_scan r = Some (positional 10 (ip ++ fst fr), 10, fcount, snd fr)
      /\ (if fcount <? 0 then fcount else 0) = - Z.of_nat (List.length (fst fr)).
Proof.
  intros ip r1 fr exp Hne Hexp.
  (* the prefix test finds no prefix *)
  assert (P : big.nat_scan r
              = let '(res, count, dp, prev, invalSep, rest) :=
                  big.nat_scan_loop 10 r true "." false 0 0 (-1) in
                if invalSep || Ascii.eqb prev "_" then None
                else if count =? 0 then None
                else Some (res, 10, if 0 <=? dp then dp - count else count, rest)).
  { unfold big.nat_scan. destruct r as [ | c r']; [reflexivity|].
    destruct (Ascii.eqb_spec c "0") as [-> | N].
    - destruct r' as [ | ch r'']; [reflexivity|].
      assert (Q : (Ascii.eqb ch "b" || Ascii.eqb ch "B") = false
                  /\ (Ascii.eqb ch "o" || Ascii.eqb ch "O") = false
                  /\ (Ascii.eqb ch "x" || Ascii.eqb ch "X") = false).
      { subst ip r1 fr. cbn [leadingDigits] in Hne, Hexp.
        change (decDigit "0") with (Some 0) in Hne, Hexp. cbv iota in Hne, Hexp.
        destruct (decDigit ch) as [d | ] eqn:D.
        - destruct ch as [[] [] [] [] [] [] [] []]; try discriminate D;
            repeat split; reflexivity.
        - cbn [fst snd] in Hexp.
          destruct (Ascii.eqb_spec ch ".") as [-> | N]; [repeat split; reflexivity|].
          cbn [snd decimalExponent] in Hexp.
          destruct ch as [[] [] [] [] [] [] [] []]; try discriminate Hexp;
            repeat split; reflexivity. }
      destruct Q as (Q1 & Q2 & Q3). rewrite Q1, Q2, Q3. reflexivity.
    - destruct c as [[] [] [] [] [] [] [] []]; try reflexivity; congruence. }
  rewrite P. clear P.
  rewrite nat_scan_loop_digits. fold ip r1.
  rewrite Z.mul_0_l, !Z.add_0_l.
  pose proof (leadingDigits_head decDigit r) as Hd. fold r1 in Hd.
  assert (A : forall ds, Ascii.eqb (afterDigits ds ".") "_" = false)
    by (intros [ | ? ?]; reflexivity).
  destruct r1 as [ | c r'] eqn:R1.
  - (* digits only *)
    subst fr. cbn [fst snd] in *. rewrite app_nil_r in *.
    cbn [big.nat_scan_loop orb]. rewrite A.
    destruct ip as [ | d ds]; [contradiction|].
    cbn [List.length]. rewrite Nat2Z.inj_succ.
    destruct (Z.eqb_spec (Z.succ (Z.of_nat (List.length ds))) 0); [lia|].
    eexists. split; [reflexivity|]. cbn. destruct (Z.ltb_spec (Z.succ (Z.of_nat (List.length ds))) 0); lia.
  - destruct (Ascii.eqb_spec c ".") as [-> | N].
    + (* a radix point *)
      subst fr. cbn [big.nat_scan_loop]. cbn [Ascii.eqb Bool.eqb andb].
      rewrite A. cbn [orb].
      rewrite nat_scan_loop_digits.
      pose proof (leadingDigits_head decDigit r') as Hd'.
      destruct (leadingDigits decDigit r') as [fp r2]. cbn [fst snd] in *.
      assert (S : big.nat_scan_loop 10 r2 false (afterDigits fp ".") false
                    (positional 10 ip * 10 ^ Z.of_nat (List.length fp)
                     + positional 10 fp)
                    (Z.of_nat (List.length ip) + Z.of_nat (List.length fp))
                    (Z.of_nat (List.length ip))
                  = (positional 10 ip * 10 ^ Z.of_nat (List.length fp)
                     + positional 10 fp,
                     Z.of_nat (List.length ip) + Z.of_nat (List.length fp),
                     Z.of_nat (List.length ip), afterDigits fp ".", false, r2)).
      { destruct r2 as [ | c2 r3]; [reflexivity|].
        apply nat_scan_loop_stop; [exact Hd' | apply andb_false_r |].
        cbn [decimalExponent] in Hexp.
        destruct c2 as [[] [] [] [] [] [] [] []]; try discriminate Hexp; reflexivity. }
      rewrite S. cbn [orb]. rewrite A.
      assert (L : 0 < Z.of_nat (List.length ip) + Z.of_nat (List.length fp)).
      { destruct ip, fp; cbn [List.length app] in *; try contradiction; lia. }
      destruct (Z.eqb_spec (Z.of_nat (List.length ip) + Z.of_nat (List.length fp)) 0);
        [lia|].
      destruct (Z.leb_spec 0 (Z.of_nat (List.length ip))); [|lia].
      eexists. split; [rewrite positional_concat; reflexivity|].
      destruct (Z.ltb_spec (Z.of_nat (List.length ip)
                            - (Z.of_nat (List.length ip) + Z.of_nat (List.length fp))) 0);
        lia.
    + (* an exponent *)
      assert (F : fr = ([], String c r')).
      { subst fr. destruct (Ascii.eqb_spec c "."); [contradiction | reflexivity]. }
      rewrite F in *. cbn [fst snd] in *. rewrite app_nil_r in *.
      rewrite nat_scan_loop_stop; [ | exact Hd | | ].
      * cbn [orb]. rewrite A.
        destruct ip as [ | d ds]; [contradiction|].
        cbn [List.length]. rewrite Nat2Z.inj_succ.
        destruct (Z.eqb_spec (Z.succ (Z.of_nat (List.length ds))) 0); [lia|].
        eexists. split; [reflexivity|]. cbn.
        destruct (Z.ltb_spec (Z.succ (Z.of_nat (List.length ds))) 0); lia.
      * destruct (Ascii.eqb_spec c "."); [contradiction | reflexivity].
      * cbn [decimalExponent] in Hexp.
        destruct c as [[] [] [] [] [] [] [] []]; try discriminate Hexp; reflexivity.
Qed.

Lemma near_same_exp (M P e p : Z) :
  Z.abs (M - P) * 2 ^ p <= P ->
  (Qabs (dyadic M e - dyadic P e) * inject_Z (2 ^ p) <= dyadic P e)%Q.
Proof.
  intros H. rewrite dyadic_sub, dyadic_abs, dyadic_scale.
  apply dyadic_le_same. exact H.
Qed.

Lemma dyadic_pos_sign (a e : Z) : (0 < dyadic a e)%Q -> 0 < a.
Proof.
  intros H. rewrite <- (dyadic_0 e) in H. apply dyadic_lt_same in H. exact H.
Qed.

(** A mantissa that spells a number of at most [p] significant bits has
    only zeros below its [p] leading bits. *)
Lemma representable_low_bits (p : Z) (M : positive) (E : Z) :
  1 <= p ->
  representable p (dyadic (Z.pos M) E) ->
  Z.pos M mod 2 ^ (Z.max 0 (Z.pos (Pos.size M) - p)) = 0.
Proof.
  intros Hp (a & e & Ha & Heq).
  destruct (Z.max_spec 0 (Z.pos (Pos.size M) - p)) as [[Hs ->] | [Hs ->]];
    [|apply Z.mod_1_r].
  assert (Pa : 0 < a).
  { apply (dyadic_pos_sign a e). rewrite <- Heq. apply dyadic_pos_gt0. }
  apply dyadic_eq in Heq.
  pose proof (size_bounds M) as [L U].
  set (s := Z.pos (Pos.size M)) in *.
  assert (P2 : 0 < 2 ^ p) by (apply Z.pow_pos_nonneg; lia).
  destruct (Z.min_spec E e) as [[Hm Em] | [Hm Em]]; rewrite Em in Heq.
  - (* E < e *)
    replace (E - E) with 0 in Heq by lia. rewrite Z.pow_0_r, Z.mul_1_r in Heq.
    assert (Hlt : 2 ^ (s - 1) < 2 ^ (p + (e - E))).
    { rewrite Z.pow_add_r by lia.
      assert (0 < 2 ^ (e - E)) by (apply Z.pow_pos_nonneg; lia).
      rewrite Z.abs_eq in Ha by lia. nia. }
    apply Z.pow_lt_mono_r_iff in Hlt; [|lia|lia].
    rewrite Heq.
    replace (e - E) with ((e - E - (s - p)) + (s - p)) by lia.
    rewrite Z.pow_add_r by lia. rewrite Z.mul_assoc.
    apply Z.mod_mul. apply Z.pow_nonzero; lia.
  - (* e <= E: the mantissa would be too long *)
    exfalso. replace (e - e) with 0 in Heq by lia.
    rewrite Z.pow_0_r, Z.mul_1_r in Heq.
    assert (0 < 2 ^ (E - e)) by (apply Z.pow_pos_nonneg; lia).
    assert (2 ^ p <= 2 ^ (s - 1)) by (apply Z.pow_le_mono_r; lia).
    rewrite Z.abs_eq in Ha by lia. nia.
Qed.

(** [round] returns the number it is given with a relative error of at most
    [2^-p], and without any when the number has at most [p] significant
    bits. *)
Lemma round_near (p : Z) (P : positive) (e : Z) :
  1 <= p -> big.goExp P e < big.MaxExp ->
  exists M E,
    big.round p P e false = big.finite M E
    /\ (Qabs (dyadic (Z.pos M) E - dyadic (Z.pos P) e) * inject_Z (2 ^ p)
        <= dyadic (Z.pos P) e)%Q
    /\ (representable p (dyadic (Z.pos P) e) ->
        (dyadic (Z.pos M) E == dyadic (Z.pos P) e)%Q).
Proof.
  intros Hp Hexp.
  assert (Pp : 0 < 2 ^ p) by (apply Z.pow_pos_nonneg; lia).
  destruct (Z.le_gt_cases (Z.pos (Pos.size P)) p) as [Hs | Hs].
  - exists P, e. unfold big.round.
    destruct (Z.leb_spec (Z.pos (Pos.size P)) p) as [_ | K]; [|lia].
    split; [reflexivity|]. split; [|reflexivity].
    apply near_same_exp. rewrite Z.sub_diag. cbn. lia.
  - destruct (round_bounds p P e false Hp ltac:(lia) Hexp) as (M & R & B1 & B2).
    set (s := Z.pos (Pos.size P) - p) in *.
    exists M, (e + s). split; [exact R|]. split.
    + rewrite (dyadic_shift (Z.pos M) (e + s) e) by lia.
      replace (e + s - e) with s by lia.
      apply near_same_exp.
      pose proof (size_bounds P) as [L _].
      replace (Z.pos (Pos.size P) - 1) with ((s - 1) + p) in L by (unfold s; lia).
      rewrite Z.pow_add_r in L by (unfold s; lia).
      assert (P2 : 2 ^ s = 2 * 2 ^ (s - 1)).
      { replace s with (1 + (s - 1)) at 1 by lia.
        rewrite Z.pow_add_r by (unfold s; lia). reflexivity. }
      assert (P1 : 0 < 2 ^ (s - 1)) by (apply Z.pow_pos_nonneg; unfold s; lia).
      cbn [Z.b2z] in B2.
      assert (A : Z.abs (Z.pos M * 2 ^ s - Z.pos P) <= 2 ^ (s - 1)) by lia.
      nia.
    + intros Hr.
      destruct (round_exact p P e Hp (representable_low_bits p P e Hp Hr))
        as (m' & e' & R' & V).
      rewrite R in R'. injection R' as -> ->. exact V.
Qed.

Lemma near_scaled (t V c P : Q) :
  (0 < c)%Q ->
  (Qabs (t * c - V * c) * P <= V * c)%Q ->
  (Qabs (t - V) * P <= V)%Q.
Proof.
  intros Hc H.
  assert (E : (t * c - V * c == (t - V) * c)%Q) by ring.
  rewrite E, Qabs_Qmult, (Qabs_pos c) in H by (apply Qlt_le_weak, Hc).
  apply (Qmult_le_r _ _ c Hc).
  assert (E2 : (Qabs (t - V) * P * c == Qabs (t - V) * c * P)%Q) by ring.
  rewrite E2. exact H.
Qed.

(** [uquo] returns the quotient with a relative error of at most [2^-p],
    and without any when the quotient has at most [p] significant bits. *)
Lemma uquo_near (p : Z) (mx : positive) (ex : Z) (my : positive) (ey : Z) :
  1 <= p ->
  big.MinExp <= ex - ey + Z.pos (Pos.size mx) - Z.pos (Pos.size my) ->
  ex - ey + Z.pos (Pos.size mx) - Z.pos (Pos.size my) + 1 < big.MaxExp ->
  exists M E,
    big.uquo p mx ex my ey = big.finite M E
    /\ (Qabs (dyadic (Z.pos M) E * inject_Z (Z.pos my) - dyadic (Z.pos mx) (ex - ey))
        * inject_Z (2 ^ p)
        <= dyadic (Z.pos mx) (ex - ey))%Q
    /\ (forall a e,
           0 < a < 2 ^ p ->
           (dyadic (Z.pos mx) (ex - ey) == dyadic (a * Z.pos my) e)%Q ->
           (dyadic (Z.pos M) E == dyadic a e)%Q).
Proof.
  intros Hp Hmin Hmax.
  destruct (uquo_bounds p mx ex my ey Hp Hmin Hmax)
    as (M & s & k & Hs & Hk & U & B1 & B2 & B3).
  exists M, (ex - ey - k + s). split; [exact U|]. split.
  - assert (Pk : 0 < 2 ^ k) by (apply Z.pow_pos_nonneg; lia).
    assert (Ps : 0 < 2 ^ s) by (apply Z.pow_pos_nonneg; lia).
    assert (Pp : 0 < 2 ^ p) by (apply Z.pow_pos_nonneg; lia).
    rewrite dyadic_scale.
    rewrite (dyadic_shift (Z.pos M * Z.pos my) (ex - ey - k + s) (ex - ey - k)) by lia.
    rewrite (dyadic_shift (Z.pos mx) (ex - ey) (ex - ey - k)) by lia.
    replace (ex - ey - k + s - (ex - ey - k)) with s by lia.
    replace (ex - ey - (ex - ey - k)) with k by lia.
    apply near_same_exp.
    assert (P2 : 2 ^ s * 2 ^ p = 2 * 2 ^ (s + p - 1)).
    { rewrite <- Z.pow_add_r by lia.
      replace (s + p) with (1 + (s + p - 1)) at 1 by lia.
      rewrite Z.pow_add_r by lia. reflexivity. }
    assert (Pq : 0 < 2 ^ (s + p - 1)) by (apply Z.pow_pos_nonneg; lia).
    set (A := Z.pos M * Z.pos my * 2 ^ s) in *.
    set (Bk := Z.pos mx * 2 ^ k) in *.
    assert (H1 : 2 * Z.abs (A - Bk) <= 2 ^ s * Z.pos my) by (unfold A; lia).
    nia.
  - intros a e Ha Heq.
    (* the division leaves no remainder *)
    revert U. unfold big.uquo.
    set (sx := Z.pos (Pos.size mx)) in *. set (sy := Z.pos (Pos.size my)) in *.
    set (k' := Z.max 0 (p + 1 + sy - sx)).
    pose proof (size_bounds mx) as [Lx Ux]. pose proof (size_bounds my) as [Ly Uy].
    fold sx in Lx, Ux. fold sy in Ly, Uy.
    assert (Hk' : 0 <= k') by (unfold k'; lia).
    assert (Pk : 0 < 2 ^ k') by (apply Z.pow_pos_nonneg; lia).
    assert (Pp : 0 < 2 ^ p) by (apply Z.pow_pos_nonneg; lia).
    set (j := e - (ex - ey) + k').
    assert (Hj : 1 <= j).
    { destruct (Z.le_gt_cases 1 j) as [ | C]; [assumption|]. exfalso.
      apply dyadic_eq in Heq.
      replace (Z.min (ex - ey) e) with e in Heq by (unfold j in C; lia).
      replace (e - e) with 0 in Heq by lia. rewrite Z.pow_0_r, Z.mul_1_r in Heq.
      assert (G : 2 ^ (p + sy) <= 2 ^ (sx - 1 + k')).
      { apply Z.pow_le_mono_r; unfold k'; lia. }
      rewrite !Z.pow_add_r in G by (unfold sx, sy; lia).
      assert (T : 2 ^ k' <= 2 ^ (ex - ey - e)).
      { apply Z.pow_le_mono_r; unfold j in C; lia. }
      assert (0 < 2 ^ (sx - 1)) by (apply Z.pow_pos_nonneg; unfold sx; lia).
      assert (0 < 2 ^ sy) by (apply Z.pow_pos_nonneg; unfold sy; lia).
      nia. }
    assert (X : Z.pos mx * 2 ^ k' = a * 2 ^ j * Z.pos my).
    { apply (dyadic_eq_same _ _ (ex - ey - k')).
      pose proof (dyadic_shift (Z.pos mx) (ex - ey) (ex - ey - k') ltac:(lia)) as S1.
      replace (ex - ey - (ex - ey - k')) with k' in S1 by lia.
      pose proof (dyadic_shift (a * Z.pos my) e (ex - ey - k')
                               ltac:(unfold j in Hj; lia)) as S2.
      replace (e - (ex - ey - k')) with j in S2 by (unfold j; lia).
      rewrite <- S1, Heq, S2.
      replace (a * Z.pos my * 2 ^ j) with (a * 2 ^ j * Z.pos my) by ring.
      reflexivity. }
    assert (Pj : 0 < 2 ^ j) by (apply Z.pow_pos_nonneg; lia).
    rewrite X, Z.div_mul, Z.mod_mul by lia. cbn [Z.eqb negb].
    unfold big.setExpAndRound.
    destruct (big.goExp (Z.to_pos (a * 2 ^ j)) (ex - ey - k') <? big.MinExp);
      [discriminate|].
    destruct (Z.ltb_spec big.MaxExp (big.goExp (Z.to_pos (a * 2 ^ j)) (ex - ey - k')))
      as [ | G]; [discriminate|].
    intros R.
    assert (Rep : representable p (dyadic (Z.pos (Z.to_pos (a * 2 ^ j))) (ex - ey - k'))).
    { exists a, e. split; [rewrite Z.abs_eq by lia; lia|].
      rewrite Z2Pos.id by nia.
      rewrite (dyadic_shift a e (ex - ey - k')) by (unfold j in Hj; lia).
      replace (e - (ex - ey - k')) with j by (unfold j; lia). reflexivity. }
    pose proof (representable_low_bits p _ _ Hp Rep) as Low.
    destruct (round_exact p _ (ex - ey - k') Hp Low) as (m' & e' & R' & V).
    rewrite R in R'. injection R' as <- <-. rewrite V.
    destruct Rep as (a' & e'' & _ & _).
    rewrite Z2Pos.id by nia.
    rewrite (dyadic_shift a e (ex - ey - k')) by (unfold j in Hj; lia).
    replace (e - (ex - ey - k')) with j by (unfold j; lia). reflexivity.
Qed.

Lemma Qpower_10_nonneg (k : Z) :
  0 <= k -> (inject_Z 10 ^ k == dyadic (5 ^ k) k)%Q.
Proof.
  intros Hk. unfold dyadic.
  change (inject_Z 10) with (inject_Z 5 * 2)%Q.
  rewrite Qmult_power, <- Zpower_Qpower by lia. reflexivity.
Qed.

Lemma Qpower_10_opp (n : Z) :
  0 < n -> (inject_Z 10 ^ (- n) * inject_Z (5 ^ n) == 2 ^ (- n))%Q.
Proof.
  intros Hn.
  assert (P5 : 0 < 5 ^ n) by (apply Z.pow_pos_nonneg; lia).
  assert (N5 : ~ (inject_Z (5 ^ n) == 0)%Q).
  { intros K. unfold Qeq, inject_Z in K. cbn [Qnum Qden] in K. lia. }
  assert (N2 : ~ (2 ^ n == 0)%Q).
  { intros K. pose proof (pow2_pos n) as P. rewrite K in P. inversion P. }
  rewrite (Qpower_opp (inject_Z 10) n), (Qpower_opp 2 n).
  rewrite (Qpower_10_nonneg n) by lia.
  unfold dyadic. field. split; assumption.
Qed.

Lemma Qpower_10_neg (k : Z) :
  k < 0 -> (inject_Z 10 ^ k * inject_Z (5 ^ (- k)) == 2 ^ k)%Q.
Proof.
  intros Hk. pose proof (Qpower_10_opp (- k) ltac:(lia)) as H.
  rewrite Z.opp_involutive in H. exact H.
Qed.

Lemma representable_eq (p : Z) (q q' : Q) :
  (q == q')%Q -> representable p q -> representable p q'.
Proof.
  intros E (a & e & Ha & Hq). exists a, e. split; [exact Ha|].
  rewrite <- E. exact Hq.
Qed.

Lemma size_mul (a b : positive) :
  Z.pos (Pos.size (a * b)) <= Z.pos (Pos.size a) + Z.pos (Pos.size b).
Proof.
  pose proof (size_bounds a) as [_ Ua]. pose proof (size_bounds b) as [_ Ub].
  rewrite (size_log2 (a * b)).
  assert (H : Z.pos (a * b) < 2 ^ (Z.pos (Pos.size a) + Z.pos (Pos.size b))).
  { rewrite Z.pow_add_r, Pos2Z.inj_mul by lia. nia. }
  apply Z.log2_lt_pow2 in H; lia.
Qed.

Lemma pow5_small (n : Z) :
  0 < n <= 27 ->
  exists p5,
    Z.pos p5 = 5 ^ n /\ Z.pos (Pos.size p5) <= 63
    /\ big.pow5 128 n = Some (big.mkFloat 128 false (big.finite p5 0)).
Proof.
  intros Hn.
  assert (P : 0 < 5 ^ n) by (apply Z.pow_pos_nonneg; lia).
  destruct (5 ^ n) as [ | p5 | ] eqn:E5; try lia.
  assert (S : Z.pos (Pos.size p5) <= 63).
  { rewrite size_log2.
    assert (U : Z.pos p5 <= 5 ^ 27) by (rewrite <- E5; apply Z.pow_le_mono_r; lia).
    apply Z.log2_le_mono in U.
    replace (Z.log2 (5 ^ 27)) with 62 in U by (vm_compute; reflexivity). lia. }
  exists p5. split; [reflexivity|]. split; [exact S|].
  unfold big.pow5, big.pow5tab_last.
  destruct (Z.leb_spec n 27) as [_ | K]; [|lia].
  rewrite E5. unfold big.SetUint64. cbn [Z.eqb].
  unfold big.setExpAndRound, big.goExp, big.round, big.MinExp, big.MaxExp.
  destruct (Z.ltb_spec (0 + Z.pos (Pos.size p5)) (-2147483648)); [lia|].
  destruct (Z.ltb_spec 2147483647 (0 + Z.pos (Pos.size p5))); [lia|].
  destruct (Z.leb_spec (Z.pos (Pos.size p5)) 128); [reflexivity | lia].
Qed.

(** A decimal mantissa [m] with the power of ten [10^k], [|k| <= 27], is
    read into a [Float] of 64 bits with a relative error of at most
    [2^-64], and exactly when [m * 10^k] has at most 64 significant
    bits. *)
Lemma scan_value_decimal (n : bool) (m : positive) (k : Z) :
  -27 <= k <= 27 -> Z.pos (Pos.size m) <= 2 ^ 26 ->
  exists M E,
    big.scan_value 64 n m k k = Some (big.mkFloat 64 n (big.finite M E))
    /\ (Qabs (dyadic (Z.pos M) E - inject_Z (Z.pos m) * inject_Z 10 ^ k)
        * inject_Z (2 ^ 64)
        <= inject_Z (Z.pos m) * inject_Z 10 ^ k)%Q
    /\ (representable 64 (inject_Z (Z.pos m) * inject_Z 10 ^ k) ->
        (dyadic (Z.pos M) E == inject_Z (Z.pos m) * inject_Z 10 ^ k)%Q).
Proof.
  intros Hk Hm. change (2 ^ 26) with 67108864 in Hm.
  unfold big.scan_value.
  assert (R : (big.MinExp <=? Z.pos (Pos.size m) + k)
              && (Z.pos (Pos.size m) + k <=? big.MaxExp) = true).
  { apply andb_true_iff. unfold big.MinExp, big.MaxExp.
    split; apply Z.leb_le; lia. }
  rewrite R. clear R.
  destruct (Z.eqb_spec k 0) as [-> | K0].
  - (* no power of 5 *)
    assert (V : (inject_Z (Z.pos m) * inject_Z 10 ^ 0 == dyadic (Z.pos m) 0)%Q).
    { unfold dyadic. reflexivity. }
    destruct (round_near 64 m 0 ltac:(lia)) as (M & E & Rd & B & X).
    { unfold big.goExp, big.MaxExp. lia. }
    exists M, E. split; [rewrite Rd; reflexivity|].
    split; [rewrite V; exact B|].
    intros Hr. rewrite V. apply X. exact (representable_eq _ _ _ V Hr).
  - destruct (Z.ltb_spec k 0) as [Kn | Kp].
    + (* a division by a power of 5 *)
      destruct (pow5_small (- k) ltac:(lia)) as (p5 & E5 & S5 & P5).
      replace (Z.abs k) with (- k) by lia.
      change (64 + 64) with 128. rewrite P5.
      unfold big.Quo, big.resultPrec. cbn [Z.eqb big.val big.neg big.prec].
      rewrite xorb_false_r.
      destruct (uquo_near 64 m k p5 0 ltac:(lia)) as (M & E & U & B & X).
      { unfold big.MinExp. lia. }
      { unfold big.MaxExp. lia. }
      replace (k - 0) with k in B, X by lia.
      assert (V : (inject_Z (Z.pos m) * inject_Z 10 ^ k * inject_Z (Z.pos p5)
                   == dyadic (Z.pos m) k)%Q).
      { rewrite E5, <- Qmult_assoc, Qpower_10_neg by lia. reflexivity. }
      assert (Pc : (0 < inject_Z (Z.pos p5))%Q).
      { change 0%Q with (inject_Z 0). rewrite <- Zlt_Qlt. lia. }
      exists M, E. split; [rewrite U; reflexivity|]. split.
      * apply (near_scaled _ _ (inject_Z (Z.pos p5))); [exact Pc|].
        rewrite V. exact B.
      * intros (a & e & Ha & Hq).
        assert (Pv : (0 < inject_Z (Z.pos m) * inject_Z 10 ^ k)%Q).
        { apply Qmult_lt_0_compat.
          - change 0%Q with (inject_Z 0). rewrite <- Zlt_Qlt. lia.
          - apply Qpower_0_lt. reflexivity. }
        assert (Pa : 0 < a).
        { apply (dyadic_pos_sign a e). rewrite <- Hq. exact Pv. }
        rewrite Hq. apply X; [rewrite Z.abs_eq in Ha by lia; lia|].
        rewrite <- V, Hq, dyadic_scale. reflexivity.
    + (* a multiplication by a power of 5 *)
      destruct (pow5_small k ltac:(lia)) as (p5 & E5 & S5 & P5).
      replace (Z.abs k) with k by lia.
      change (64 + 64) with 128. rewrite P5.
      unfold big.Mul, big.resultPrec. cbn [Z.eqb big.val big.neg big.prec].
      rewrite xorb_false_r.
      pose proof (size_mul m p5) as Sm.
      unfold big.setExpAndRound, big.goExp.
      destruct (Z.ltb_spec (k + 0 + Z.pos (Pos.size (m * p5))) big.MinExp) as [C | _];
        [unfold big.MinExp in C; lia|].
      destruct (Z.ltb_spec big.MaxExp (k + 0 + Z.pos (Pos.size (m * p5)))) as [C | _];
        [unfold big.MaxExp in C; lia|].
      destruct (round_near 64 (m * p5) (k + 0) ltac:(lia)) as (M & E & Rd & B & X).
      { unfold big.goExp, big.MaxExp. lia. }
      assert (V : (inject_Z (Z.pos m) * inject_Z 10 ^ k
                   == dyadic (Z.pos (m * p5)) (k + 0))%Q).
      { rewrite Qpower_10_nonneg by lia. rewrite Z.add_0_r, Pos2Z.inj_mul, E5.
        unfold dyadic. rewrite inject_Z_mult. ring. }
      exists M, E. split; [rewrite Rd; reflexivity|].
      split; [rewrite V; exact B|].
      intros Hr. rewrite V. apply X. exact (representable_eq _ _ _ V Hr).
Qed.

Lemma splitSign_length (s : string) :
  (String.length (snd (splitSign s)) <= String.length s)%nat.
Proof.
  destruct s as [ | c r]; [cbn; lia|].
  destruct c as [[] [] [] [] [] [] [] []]; cbn; lia.
Qed.

Lemma positional_size (ds : list Z) (m : positive) :
  Forall (fun d => 0 <= d < 10) ds ->
  positional 10 ds = Z.pos m ->
  Z.pos (Pos.size m) <= 4 * Z.of_nat (List.length ds).
Proof.
  intros F E. pose proof (positional_range ds F) as [_ U]. rewrite E in U.
  set (n := Z.of_nat (List.length ds)) in *.
  assert (Hn : 0 <= n) by (unfold n; lia).
  assert (L : 10 ^ n <= 2 ^ (4 * n)).
  { rewrite Z.pow_mul_r by lia. apply Z.pow_le_mono_l. cbn. lia. }
  rewrite size_log2.
  assert (H : Z.pos m < 2 ^ (4 * n)) by lia.
  destruct (Z.eq_dec n 0) as [-> | N]; [cbn in U; lia|].
  apply Z.log2_lt_pow2 in H; lia.
Qed.

Lemma decimalOf_zero (n : bool) (k : Z) : (decimalOf n 0 k == 0)%Q.
Proof. unfold decimalOf. destruct n; cbn [withSign Z.opp]; ring. Qed.

Lemma decimalOf_neg (m k : Z) :
  (decimalOf true m k == - (inject_Z m * inject_Z 10 ^ k))%Q.
Proof. unfold decimalOf, withSign. rewrite inject_Z_opp. ring. Qed.

Lemma dyadic_opp (a e : Z) : (dyadic (- a) e == - dyadic a e)%Q.
Proof. unfold dyadic. rewrite inject_Z_opp. ring. Qed.

Lemma representable_opp (p : Z) (q : Q) :
  representable p (- q) -> representable p q.
Proof.
  intros (a & e & Ha & Hq). exists (- a), e. split; [lia|].
  rewrite dyadic_opp, <- Hq. ring.
Qed.

(** A threshold written as a decimal literal with a power of ten between
    [10^-27] and [10^27] is read into a [Float] of 64 bits: with a relative
    error of at most [2^-64], and exactly when the number has at most 64
    significant bits. *)
Lemma SetString_Float_decimal (s : string) (n : bool) (m k : Z) :
  decimalParts s = Some (n, m, k) ->
  Z.of_nat (String.length s) <= 2 ^ 24 ->
  -27 <= k <= 27 ->
  exists t,
    big.SetString_Float s = Some t
    /\ big.prec t = 64
    /\ near (decimalOf n m k) 64 (value t)
    /\ (representable 64 (decimalOf n m k) ->
        xeq (value t) (Fin (decimalOf n m k))).
Proof.
  intros H Hlen Hk. change (2 ^ 24) with 16777216 in Hlen.
  (* not an infinity *)
  unfold big.SetString_Float.
  assert (NI : forall i, In i ["Inf"; "inf"; "+Inf"; "+inf"; "-Inf"; "-inf"] ->
                         String.eqb s i = false).
  { intros i Hi. destruct (String.eqb_spec s i) as [-> | ]; [|reflexivity].
    cbn [In] in Hi.
    repeat (destruct Hi as [<- | Hi]; [vm_compute in H; discriminate H|]).
    contradiction. }
  rewrite !NI by (cbn [In]; tauto). cbn [orb].
  (* the sign *)
  unfold big.scan. rewrite scanSign_splitSign.
  destruct s as [ | c0 s0]; [vm_compute in H; discriminate H|].
  remember (String c0 s0) as s eqn:Es. clear Es c0 s0.
  unfold decimalParts in H.
  pose proof (splitSign_length s) as Ls.
  destruct (splitSign s) as [n' r]. cbn [snd] in Ls.
  (* the mantissa *)
  pose proof (nat_scan_decimal r) as N. cbv zeta in N.
  pose proof (leadingDigits_length decDigit r) as L1.
  pose proof (leadingDigits_range r) as R1.
  destruct (leadingDigits decDigit r) as [ip r1]. cbn [fst snd] in N, L1, R1.
  assert (L2 : forall fp r2,
             match r1 with
             | EmptyString => ([], r1)
             | String c r' =>
                 if Ascii.eqb c "." then leadingDigits decDigit r' else ([], r1)
             end = (fp, r2) ->
             Forall (fun d => 0 <= d < 10) fp
             /\ (List.length fp <= String.length r1)%nat).
  { intros fp r2 E. destruct r1 as [ | c r'].
    - injection E as <- <-. split; [constructor | cbn; lia].
    - destruct (Ascii.eqb c ".").
      + pose proof (leadingDigits_length decDigit r') as L.
        pose proof (leadingDigits_range r') as R.
        rewrite E in L, R. cbn [fst snd String.length] in *. split; [exact R | lia].
      + injection E as <- <-. split; [constructor | cbn; lia]. }
  destruct (match r1 with
            | EmptyString => ([], r1)
            | String c r' =>
                if Ascii.eqb c "." then leadingDigits decDigit r' else ([], r1)
            end) as [fp r2] eqn:Fr.
  destruct (L2 fp r2 eq_refl) as [R2 Lf]. clear L2. cbn [fst snd] in N.
  destruct (ip ++ fp)%list as [ | d ds] eqn:App; [discriminate H|].
  destruct (decimalExponent r2) as [exp | ] eqn:Ex; [|discriminate H].
  remember (positional 10 (d :: ds)) as pm eqn:Epm.
  injection H as -> Hm Hkk. subst pm.
  destruct (N exp ltac:(discriminate) eq_refl) as (fcount & Ns & Fc).
  rewrite Ns.
  (* the exponent *)
  rewrite (scanExponent_decimal r2 exp Ex)
    by (unfold big.MinInt64, big.MaxInt64; lia).
  cbn [Z.eqb Pos.eqb]. rewrite Fc.
  replace (- Z.of_nat (List.length fp) + exp) with k by lia.
  rewrite Hm.
  (* the value *)
  assert (Rm : Forall (fun d => 0 <= d < 10) (d :: ds)).
  { rewrite <- App. apply Forall_app. split; assumption. }
  assert (Lm : Z.of_nat (List.length (d :: ds)) <= 16777216).
  { rewrite <- App, length_app. lia. }
  pose proof (positional_range _ Rm) as [M0 _]. rewrite Hm in M0.
  destruct m as [ | mm | mm]; [ | | lia].
  - (* zero *)
    eexists. split; [reflexivity|]. split; [reflexivity|].
    unfold value. cbn [big.val near xeq]. split.
    + rewrite decimalOf_zero. vm_compute. intros K. discriminate K.
    + intros _. rewrite decimalOf_zero. reflexivity.
  - pose proof (positional_size _ mm Rm Hm) as Sz.
    destruct (scan_value_decimal n mm k Hk ltac:(change (2 ^ 26) with 67108864; lia))
      as (M & E & Sv & B & X).
    rewrite Sv. eexists. split; [reflexivity|]. split; [reflexivity|].
    unfold value. cbn [big.val big.neg near xeq].
    destruct n; cbn [signed].
    + (* a negative threshold *)
      change (Z.neg M) with (- Z.pos M).
      split.
      * rewrite decimalOf_neg, dyadic_opp, Qabs_opp.
        assert (E1 : (- dyadic (Z.pos M) E - - (inject_Z (Z.pos mm) * inject_Z 10 ^ k)
                      == - (dyadic (Z.pos M) E - inject_Z (Z.pos mm) * inject_Z 10 ^ k))%Q)
          by ring.
        rewrite E1, Qabs_opp.
        eapply Qle_trans; [exact B|]. apply Qle_Qabs.
      * intros Hr. rewrite decimalOf_neg, dyadic_opp.
        apply Qopp_comp. apply X. apply representable_opp.
        exact (representable_eq _ _ _ (decimalOf_neg _ _) Hr).
    + split.
      * unfold decimalOf, withSign.
        eapply Qle_trans; [exact B|]. apply Qle_Qabs.
      * intros Hr. apply X. exact Hr.
Qed.

Lemma Qabs_cases (z : Q) :
  (0 <= z /\ Qabs z == z)%Q \/ (z <= 0 /\ Qabs z == - z)%Q.
Proof.
  destruct (Qlt_le_dec z 0) as [N | P].
  - right. split; [apply Qlt_le_weak, N|]. apply Qabs_neg, Qlt_le_weak, N.
  - left. split; [exact P|]. apply Qabs_pos, P.
Qed.

(** Two numbers that stand for [q] and [v] with relative errors of at most
    [2^-64] compare as [q] and [v] do, when [q] and [v] are further apart
    than the two errors together. *)
Lemma compare_near (x y q v : Q) :
  (Qabs (x - q) * inject_Z (2 ^ 64) <= q)%Q ->
  (Qabs (y - v) * inject_Z (2 ^ 64) <= Qabs v)%Q ->
  (q + Qabs v < Qabs (q - v) * inject_Z (2 ^ 64))%Q ->
  (x < y)%Q <-> (q < v)%Q.
Proof.
  change (inject_Z (2 ^ 64)) with (18446744073709551616 # 1)%Q.
  intros Hx Hy G.
  destruct (Qabs_cases (x - q)) as [[S1 E1] | [S1 E1]];
    destruct (Qabs_cases (y - v)) as [[S2 E2] | [S2 E2]];
    destruct (Qabs_cases v) as [[S3 E3] | [S3 E3]];
    destruct (Qabs_cases (q - v)) as [[S4 E4] | [S4 E4]];
    rewrite E1 in Hx; rewrite E2, E3 in Hy; rewrite E3, E4 in G;
    split; intros L; lra.
Qed.

Lemma within_quotient (B D p : Z) (x : Q) :
  0 <= D -> 64 <= p ->
  within B p (Fin (x * inject_Z (10 ^ D))) ->
  (Qabs (x - inject_Z B / inject_Z (10 ^ D)) * inject_Z (2 ^ 64)
   <= inject_Z B / inject_Z (10 ^ D))%Q.
Proof.
  intros HD Hp W. cbn [within] in W.
  assert (P10 : (0 < inject_Z (10 ^ D))%Q).
  { change 0%Q with (inject_Z 0). rewrite <- Zlt_Qlt.
    apply Z.pow_pos_nonneg; lia. }
  assert (N10 : ~ (inject_Z (10 ^ D) == 0)%Q).
  { intros K. rewrite K in P10. exact (Qlt_irrefl _ P10). }
  set (T := inject_Z (10 ^ D)) in *.
  set (q := (inject_Z B / T)%Q).
  assert (Eq : (q * T == inject_Z B)%Q) by (unfold q; field; exact N10).
  assert (Le : (inject_Z (2 ^ 64) <= inject_Z (2 ^ p))%Q).
  { rewrite <- Zle_Qle. apply Z.pow_le_mono_r; lia. }
  apply (Qmult_le_r _ _ T P10).
  rewrite Eq.
  eapply Qle_trans; [|exact W].
  assert (E : (x * T - inject_Z B == (x - q) * T)%Q) by (rewrite <- Eq; ring).
  rewrite E, Qabs_Qmult, (Qabs_pos T) by (apply Qlt_le_weak, P10).
  assert (A : (0 <= Qabs (x - q) * T)%Q).
  { apply Qmult_le_0_compat; [apply Qabs_nonneg | apply Qlt_le_weak, P10]. }
  assert (R1 : (Qabs (x - q) * inject_Z (2 ^ 64) * T
                == Qabs (x - q) * T * inject_Z (2 ^ 64))%Q) by ring.
  rewrite R1.
  rewrite (Qmult_comm (Qabs (x - q) * T) (inject_Z (2 ^ 64))).
  rewrite (Qmult_comm (Qabs (x - q) * T) (inject_Z (2 ^ p))).
  apply Qmult_le_compat_r; assumption.
Qed.

(** C2, as amended.  The threshold is read from its string into a
    [big.Float] of 64 bits of precision: for a decimal literal with a power
    of ten between [10^-27] and [10^27], the number read is the number the
    string denotes with a relative error of at most [2^-64], and that number
    itself when it has at most 64 significant bits.  The balance is divided
    into a [big.Float] of [max(64, BitLen B, BitLen 10^D)] bits, with a
    relative error of at most [2^-prec].  The decision is the strict
    comparison of these two numbers.  It is the exact comparison of
    [B / 10^D] with the decimal threshold when neither number is rounded
    ([5^D] divides the balance and the threshold has at most 64 significant
    bits), and when the balance and the threshold are further apart than
    the two rounding errors: [B/10^D + |v| < |B/10^D - v| * 2^64]. *)
Theorem threshold_decision_exact
        (B D : Z) (s : string) (n : bool) (m k : Z) :
  0 <= B -> 0 <= D <= 255 -> big.BitLen B < big.MaxExp ->
  decimalParts s = Some (n, m, k) ->
  Z.of_nat (String.length s) <= 2 ^ 24 ->
  -27 <= k <= 27 ->
  exists f t,
    toDecimalUnit B D = Some f
    /\ big.SetString_Float s = Some t
    /\ big.prec f = Z.max 64 (Z.max (big.BitLen B) (big.BitLen (10 ^ D)))
    /\ big.prec t = 64
    /\ within B (big.prec f) (scale10 (value f) D)
    /\ near (decimalOf n m k) 64 (value t)
    /\ (representable 64 (decimalOf n m k) ->
        xeq (value t) (Fin (decimalOf n m k)))
    /\ (exceedsBalanceThreshold f t = true <-> xlt (value f) (value t))
    /\ ((5 ^ D | B) -> representable 64 (decimalOf n m k) ->
        (exceedsBalanceThreshold f t = true
         <-> below_exact B D (decimalOf n m k)))
    /\ ((inject_Z B / inject_Z (10 ^ D) + Qabs (decimalOf n m k)
         < Qabs (inject_Z B / inject_Z (10 ^ D) - decimalOf n m k)
           * inject_Z (2 ^ 64))%Q ->
        (exceedsBalanceThreshold f t = true
         <-> below_exact B D (decimalOf n m k))).
Proof.
  intros HB HD Hlen Hs Hl Hk.
  destruct (toDecimalUnit_total B D HD) as (f & Hf & Hp).
  assert (E10 : big.Exp 10 D = 10 ^ D).
  { unfold big.Exp. destruct (Z.leb_spec D 0); [|reflexivity].
    replace D with 0 by lia. reflexivity. }
  rewrite E10 in Hp.
  destruct (toDecimalUnit_rounded B D HB HD Hlen) as (f' & Hf' & W).
  assert (f' = f) by congruence. subst f'.
  destruct (SetString_Float_decimal s n m k Hs Hl Hk) as (t & Ht & Pt & Nt & Xt).
  exists f, t.
  split; [exact Hf|]. split; [exact Ht|]. split; [lia|]. split; [exact Pt|].
  split; [exact W|]. split; [exact Nt|]. split; [exact Xt|].
  split; [apply exceedsBalanceThreshold_lt|].
  split.
  - intros Hdiv Hr.
    destruct (toDecimalUnit_exact B D HB HD ltac:(lia) Hdiv) as (g & Hg & X).
    assert (g = f) by congruence. subst g.
    specialize (Xt Hr).
    rewrite exceedsBalanceThreshold_lt.
    destruct (value f) as [ | x | ], (value t) as [ | y | ];
      cbn in X, Xt |- *; try contradiction.
    rewrite Xt. apply below_exact_scaled; [lia | exact X].
  - intros G. rewrite exceedsBalanceThreshold_lt.
    destruct (value f) as [ | x | ], (value t) as [ | y | ];
      cbn [scale10 within near] in W, Nt; try contradiction.
    cbn [xlt]. unfold below_exact.
    apply compare_near; [|exact Nt | exact G].
    apply (within_quotient B D (big.prec f)); [lia | lia | exact W].
Qed.

Lemma threshold_decision_exact_witness :
  exists f t,
    toDecimalUnit 500000000000000000 18 = Some f
    /\ big.SetString_Float "1.5" = Some t
    /\ big.prec f
       = Z.max 64 (Z.max (big.BitLen 500000000000000000) (big.BitLen (10 ^ 18)))
    /\ big.prec t = 64
    /\ within 500000000000000000 (big.prec f) (scale10 (value f) 18)
    /\ near (decimalOf false 15 (-1)) 64 (value t)
    /\ (representable 64 (decimalOf false 15 (-1)) ->
        xeq (value t) (Fin (decimalOf false 15 (-1))))
    /\ (exceedsBalanceThreshold f t = true <-> xlt (value f) (value t))
    /\ ((5 ^ 18 | 500000000000000000) ->
        representable 64 (decimalOf false 15 (-1)) ->
        (exceedsBalanceThreshold f t = true
         <-> below_exact 500000000000000000 18 (decimalOf false 15 (-1))))
    /\ ((inject_Z 500000000000000000 / inject_Z (10 ^ 18)
         + Qabs (decimalOf false 15 (-1))
         < Qabs (inject_Z 500000000000000000 / inject_Z (10 ^ 18)
                 - decimalOf false 15 (-1))
           * inject_Z (2 ^ 64))%Q ->
        (exceedsBalanceThreshold f t = true
         <-> below_exact 500000000000000000 18 (decimalOf false 15 (-1)))).
Proof.
  apply (threshold_decision_exact 500000000000000000 18 "1.5" false 15 (-1)).
  - lia.
  - lia.
  - vm_compute. reflexivity.
  - vm_compute. reflexivity.
  - vm_compute. intros K. discriminate K.
  - lia.
Defined.

(** The literals of base 0 that are not decimal: a prefix selects the
    base, [_] separates digits, [p] is a power of 2.  A separator that does
    not stand between two digits, and a prefix without digits, are
    errors. *)
Example SetString_Float_base0 :
  big.SetString_Float "0x10" = Some (big.mkFloat 64 false (big.finite 16 0))
  /\ big.SetString_Float "1_000" = Some (big.mkFloat 64 false (big.finite 1000 0))
  /\ big.SetString_Float "1p3" = Some (big.mkFloat 64 false (big.finite 1 3))
  /\ big.SetString_Float "0b101" = Some (big.mkFloat 64 false (big.finite 5 0))
  /\ big.SetString_Float "0o17" = Some (big.mkFloat 64 false (big.finite 15 0))
  /\ big.SetString_Float "0x1.8p1" = Some (big.mkFloat 64 false (big.finite 24 (-3)))
  /\ big.SetString_Float "1__0" = None
  /\ big.SetString_Float "_1" = None
  /\ big.SetString_Float "1_" = None
  /\ big.SetString_Float "0x" = None
  /\ big.SetString_Float "1e" = None
  /\ big.SetString_Float "" = None.
Proof. repeat split; vm_compute; reflexivity. Qed.

(** C2 as stated fails, in both directions, at 18 decimals.  A balance of
    100.099999999999999999 is below the threshold "100.1", and the program
    finds it not below: the balance is rounded to 67 bits, the threshold to
    64, and the rounded threshold is the smaller number.  A balance of
    100000000000.1 is equal to the threshold "100000000000.1", and the
    program finds it below. *)
Lemma threshold_decision_inexact :
  (exists f t v,
      toDecimalUnit 100099999999999999999 18 = Some f
      /\ big.SetString_Float "100.1" = Some t
      /\ decimalValue "100.1" = Some v
      /\ below_exact 100099999999999999999 18 v
      /\ exceedsBalanceThreshold f t = false)
  /\ (exists f t v,
         toDecimalUnit 100000000000100000000000000000 18 = Some f
         /\ big.SetString_Float "100000000000.1" = Some t
         /\ decimalValue "100000000000.1" = Some v
         /\ ~ below_exact 100000000000100000000000000000 18 v
         /\ exceedsBalanceThreshold f t = true).
Proof.
  split.
  - eexists. eexists. eexists.
    split; [vm_compute; reflexivity|].
    split; [vm_compute; reflexivity|].
    split; [vm_compute; reflexivity|].
    split; vm_compute; reflexivity.
  - eexists. eexists. eexists.
    split; [vm_compute; reflexivity|].
    split; [vm_compute; reflexivity|].
    split; [vm_compute; reflexivity|].
    split; [vm_compute; intros K; discriminate K | vm_compute; reflexivity].
Qed.

(** ** The fetchers *)

Lemma TrimPrefix_0x (s : string) : strings.TrimPrefix s "0x" = strip0x s.
Proof.
  unfold strings.TrimPrefix, strip0x. cbn [strings.HasPrefix].
  destruct s as [ | c [ | d r]]; cbn.
  - reflexivity.
  - destruct (Ascii.eqb_spec "0" c) as [<- | N]; [reflexivity|].
    destruct c as [[] [] [] [] [] [] [] []]; reflexivity.
  - destruct (Ascii.eqb_spec "0" c) as [<- | N].
    + destruct (Ascii.eqb_spec "x" d) as [<- | N']; [reflexivity|].
      destruct d as [[] [] [] [] [] [] [] []]; try reflexivity; congruence.
    + destruct c as [[] [] [] [] [] [] [] []]; try reflexivity; congruence.
Qed.

Lemma getETHBalance_parse_spec (balanceHex : string) :
  getETHBalance_parse balanceHex
  = match integerLiteral 16 hexDigit (strip0x balanceHex) with
    | Some v => inr v
    | None => inl ConvertFailed
    end.
Proof.
  unfold getETHBalance_parse. rewrite TrimPrefix_0x.
  destruct (SetString_spec 16 hexDigit hexDigit_digitVal (strip0x balanceHex))
    as (V & T & F).
  destruct (big.SetString 0 (strip0x balanceHex) 16) as [balance success].
  cbn [fst snd] in *. destruct success; cbn [negb].
  - rewrite (proj1 T eq_refl), V. reflexivity.
  - rewrite (proj1 F eq_refl). reflexivity.
Qed.

Lemma getCosmosBalance_find_spec (balances : list Balances) (denom : string) :
  getCosmosBalance_find balances denom
  = match find (fun c => sameIgnoringCase (Denom c) denom) balances with
    | Some c => inr (leadingInteger 10 decDigit (Amount c))
    | None => inl (NoBalanceFound denom)
    end.
Proof.
  induction balances as [ | c rest IH]; [reflexivity|].
  cbn [getCosmosBalance_find find]. rewrite EqualFold_ToUpper.
  destruct (sameIgnoringCase (Denom c) denom); [|exact IH].
  f_equal. apply (SetString_spec 10 decDigit decDigit_digitVal).
Qed.

Section Fetchers.

Context {World : Type} {E : Env World}.

Lemma getCosmosBalance_run (rpc address denom body : string)
      (cb : CosmosBalance) (s : state World) (w' : World) :
  http_Get (rpc ++ "/cosmos/bank/v1beta1/balances/" ++ address)%string (world s)
  = (inr (inr body), w') ->
  json_Unmarshal_CosmosBalance body = inr cb ->
  getCosmosBalance rpc address denom s
  = (Done (getCosmosBalance_find (CosmosBalance_Balances cb) denom),
     mkState w' (stdout s)).
Proof.
  intros G J. unfold getCosmosBalance, bind, call. rewrite G, J. reflexivity.
Qed.

End Fetchers.

(** ** Runs that reach their end *)

Lemma completes_ret {W A} (a : A) : completes (@ret W A a).
Proof. intros s. exists a, s. reflexivity. Qed.

Lemma completes_bind {W A B} (m : M W A) (k : A -> M W B) :
  completes m -> (forall a, completes (k a)) -> completes (bind m k).
Proof.
  intros Hm Hk s. destruct (Hm s) as (a & s1 & E1).
  destruct (Hk a s1) as (b & s2 & E2).
  exists b, s2. unfold bind. rewrite E1. exact E2.
Qed.

Lemma completes_print {W} (l : line) : completes (@print W l).
Proof. intros s. eexists. eexists. reflexivity. Qed.

Lemma completes_call {W A} (f : W -> A * W) : completes (call f).
Proof.
  intros s. unfold call. destruct (f (world s)) as [a w].
  eexists. eexists. reflexivity.
Qed.

Lemma completes_forEach {W A} (l : list A) (body : A -> M W unit) :
  Forall (fun x => completes (body x)) l -> completes (forEach l body).
Proof.
  induction 1 as [ | x rest Hx _ IH]; cbn [forEach].
  - apply completes_ret.
  - apply completes_bind; [exact Hx | intros _; exact IH].
Qed.

Create HintDb run.

#[local] Hint Resolve completes_ret completes_print completes_call : run.

Lemma rows_app (out out' : list line) : rows (out ++ out') = (rows out ++ rows out')%list.
Proof.
  induction out as [ | l out IH]; [reflexivity|].
  destruct l; cbn; rewrite IH; reflexivity.
Qed.

Section Orchestrator.

Context {World : Type} {E : Env World}.

Lemma completes_getETHBalance (client address : string) :
  completes (getETHBalance client address).
Proof.
  unfold getETHBalance. apply completes_bind; auto with run.
  intros [err | balanceHex]; auto with run.
Qed.

Lemma completes_getICXBalance (client address : string) :
  completes (getICXBalance client address).
Proof.
  unfold getICXBalance. apply completes_bind; auto with run.
  intros [err | bal]; auto with run.
Qed.

Lemma completes_getCosmosBalance (rpc address denom : string) :
  completes (getCosmosBalance rpc address denom).
Proof.
  unfold getCosmosBalance. apply completes_bind; auto with run.
  intros [err | [err | body]].
  - apply completes_bind; auto with run.
  - apply completes_bind; auto with run.
  - destruct (json_Unmarshal_CosmosBalance body); auto with run.
    repeat (apply completes_bind; auto with run; intros _).
Qed.

(** [sendDiscordAlert] returns, and writes nothing on the console. *)
Lemma sendDiscordAlert_silent (message : string) (s : state World) :
  exists r s',
    sendDiscordAlert message s = (Done r, s') /\ stdout s' = stdout s.
Proof.
  unfold sendDiscordAlert.
  destruct (json_Marshal_Discord _) as [err | jsonMsg].
  - eexists. eexists. split; reflexivity.
  - unfold bind, call.
    destruct (http_Post discordWebhookURL jsonMsg (world s))
      as [[err | resp | resp err] w].
    + eexists. eexists. split; reflexivity.
    + destruct (negb (StatusCode resp =? StatusOK)); eexists; eexists; split; reflexivity.
    + eexists. eexists. split; reflexivity.
Qed.

Lemma sendAlert_silent (network address balance threshold coin explorer : string)
      (s : state World) :
  exists s',
    sendAlert network address balance threshold coin explorer s = (Done tt, s')
    /\ stdout s' = stdout s.
Proof.
  unfold sendAlert.
  match goal with
  | |- context [sendDiscordAlert ?m] =>
      destruct (sendDiscordAlert_silent m s) as (r & s' & R & O)
  end.
  exists s'. unfold bind. rewrite R. split; [reflexivity | exact O].
Qed.

Section WalletLoop.

Variable fetch : string -> M World (error + big.Int).
Variable networkConfig : NetworkConfig.
Variable threshold : big.Float.

Local Abbreviation body := (wallet_body fetch networkConfig threshold).

Lemma wallet_body_disabled (wallet : Wallet) (s : state World) :
  Wallet_Alert wallet = false -> body wallet s = (Done tt, s).
Proof.
  intros A. unfold wallet_body. rewrite A. reflexivity.
Qed.

Lemma wallet_body_error (wallet : Wallet) (s s1 : state World) (err : error) :
  Wallet_Alert wallet = true ->
  fetch (Wallet_Address wallet) s = (Done (inl err), s1) ->
  body wallet s
  = (Done tt, mkState (world s1) (stdout s1 ++ [PrintError err])).
Proof.
  intros A F. unfold wallet_body. rewrite A. cbn [negb].
  unfold bind. rewrite F. reflexivity.
Qed.

Lemma wallet_body_row (wallet : Wallet) (s s1 : state World) (balance : big.Int) :
  0 <= NetworkConfig_Decimals networkConfig <= 255 ->
  Wallet_Alert wallet = true ->
  fetch (Wallet_Address wallet) s = (Done (inr balance), s1) ->
  exists etherBalance s',
    toDecimalUnit balance (NetworkConfig_Decimals networkConfig)
    = Some etherBalance
    /\ body wallet s = (Done tt, s')
    /\ stdout s'
       = (stdout s1 ++ [PrintRow (Wallet_Address wallet)
                                 (Float_String etherBalance)
                                 (Int_String balance)
                                 (Float_String threshold)])%list.
Proof.
  intros HD A F.
  destruct (toDecimalUnit_total balance _ HD) as (f & Hf & _).
  unfold wallet_body. rewrite A. cbn [negb].
  unfold bind. rewrite F, Hf. unfold print. cbn [world stdout].
  destruct (exceedsBalanceThreshold f threshold).
  - match goal with
    | |- context [sendAlert ?a ?b ?c ?d ?e ?g ?st] =>
        destruct (sendAlert_silent a b c d e g st) as (s' & R & O)
    end.
    exists f, s'. rewrite R. repeat split. exact O.
  - eexists. eexists. repeat split.
Qed.

Lemma completes_wallet_body (wallet : Wallet) :
  0 <= NetworkConfig_Decimals networkConfig <= 255 ->
  (forall address, completes (fetch address)) ->
  completes (body wallet).
Proof.
  intros HD HF s. destruct (Wallet_Alert wallet) eqn:A.
  - destruct (HF (Wallet_Address wallet) s) as ([err | balance] & s1 & F).
    + rewrite (wallet_body_error _ _ _ _ A F). eexists. eexists. reflexivity.
    + destruct (wallet_body_row _ _ _ _ HD A F) as (f & s' & _ & R & _).
      rewrite R. eexists. eexists. reflexivity.
  - rewrite (wallet_body_disabled _ _ A). eexists. eexists. reflexivity.
Qed.

(** The loop over the wallets is the loop over the wallets with the alert
    flag: a wallet without it changes neither the world nor the log. *)
Lemma forEach_enabled (wallets : list Wallet) (s : state World) :
  forEach wallets body s = forEach (filter Wallet_Alert wallets) body s.
Proof.
  revert s. induction wallets as [ | w rest IH]; intros s; [reflexivity|].
  cbn [forEach filter]. destruct (Wallet_Alert w) eqn:A.
  - cbn [forEach]. unfold bind. destruct (body w s) as [[[] | | err] s1];
      [apply IH | reflexivity | reflexivity].
  - unfold bind. rewrite (wallet_body_disabled _ _ A). apply IH.
Qed.

(** With fetches that succeed, the rows are those of the wallets with the
    alert flag, in their order. *)
Lemma forEach_rows (wallets : list Wallet) (s : state World) :
  0 <= NetworkConfig_Decimals networkConfig <= 255 ->
  (forall address st, exists balance w',
      fetch address st = (Done (inr balance), mkState w' (stdout st))) ->
  exists s',
    forEach wallets body s = (Done tt, s')
    /\ rows (stdout s')
       = (rows (stdout s)
          ++ map Wallet_Address (filter Wallet_Alert wallets))%list.
Proof.
  intros HD HF. revert s.
  induction wallets as [ | w rest IH]; intros s.
  - exists s. split; [reflexivity|]. cbn. rewrite app_nil_r. reflexivity.
  - cbn [forEach filter]. unfold bind. destruct (Wallet_Alert w) eqn:A.
    + destruct (HF (Wallet_Address w) s) as (balance & w' & F).
      destruct (wallet_body_row _ _ _ _ HD A F) as (f & s1 & _ & R & O).
      fold body in R. rewrite R.
      destruct (IH s1) as (s' & R' & O').
      exists s'. split; [exact R'|].
      rewrite O', O, rows_app. cbn [stdout rows map].
      rewrite <- app_assoc. reflexivity.
    + rewrite (wallet_body_disabled _ _ A). apply IH.
Qed.

End WalletLoop.

End Orchestrator.

Section Main.

Context {World : Type} {E : Env World}.

Lemma completes_wallet_loop (fetch : string -> M World (error + big.Int))
      (networkConfig : NetworkConfig) (threshold : big.Float) :
  0 <= NetworkConfig_Decimals networkConfig <= 255 ->
  (forall address, completes (fetch address)) ->
  completes (wallet_loop fetch networkConfig threshold).
Proof.
  intros HD HF. unfold wallet_loop. apply completes_forEach.
  apply Forall_forall. intros w _. apply completes_wallet_body; assumption.
Qed.

Lemma completes_network_body (networkConfig : NetworkConfig) :
  0 <= NetworkConfig_Decimals networkConfig <= 255 ->
  completes (network_body networkConfig).
Proof.
  intros HD. unfold network_body.
  do 3 (apply completes_bind; [auto with run | intros _]).
  destruct (big.SetString_Float _) as [threshold | ]; [|auto with run].
  destruct (String.eqb _ "evm").
  { apply completes_bind; [auto with run | intros [err | ]]; [auto with run|].
    apply completes_bind; [|auto with run].
    apply completes_wallet_loop; [exact HD|].
    intros address. apply completes_getETHBalance. }
  destruct (String.eqb _ "icon").
  { apply completes_bind; [|auto with run].
    apply completes_wallet_loop; [exact HD|].
    intros address. apply completes_getICXBalance. }
  destruct (String.eqb _ "cosmos"); [|auto with run].
  apply completes_bind; [|auto with run].
  apply completes_wallet_loop; [exact HD|].
  intros address. apply completes_getCosmosBalance.
Qed.

(** [main] stops with [log.Fatal] on a start-up error and on nothing
    else; it never panics. *)
Lemma main_outcome (s : state World) :
  (forall content chainCfg,
      json_Unmarshal_ChainConfig content = inr chainCfg ->
      Forall (fun n => 0 <= NetworkConfig_Decimals n <= 255) (Chains chainCfg)) ->
  fst (main s) = match startupError (world s) with
                 | Some err => Fatal err
                 | None => Done tt
                 end.
Proof.
  intros U. unfold main, startupError, bind, call.
  destruct (os_ReadFile filePath (world s)) as [[err | content] w];
    [reflexivity|].
  destruct (json_Unmarshal_ChainConfig content) as [err | chainCfg] eqn:J;
    [reflexivity|].
  assert (C : completes (forEach (Chains chainCfg) network_body)).
  { apply completes_forEach. eapply Forall_impl; [|exact (U _ _ J)].
    intros n. apply completes_network_body. }
  destruct (C (mkState w (stdout s))) as ([] & s' & R). rewrite R. reflexivity.
Qed.

End Main.

(** ** Numerals and the integers read from them *)

Lemma leadingDigits_Forall (digit : ascii -> option Z) (P : Z -> Prop)
      (s : string) :
  (forall c d, digit c = Some d -> P d) ->
  Forall P (fst (leadingDigits digit s)).
Proof.
  intros H. induction s as [ | c r IH]; [constructor|].
  cbn [leadingDigits]. destruct (digit c) as [d | ] eqn:D.
  - destruct (leadingDigits digit r). cbn [fst] in *.
    constructor; [exact (H c d D) | exact IH].
  - constructor.
Qed.

Lemma hexDigit_range (c : ascii) (d : Z) : hexDigit c = Some d -> 0 <= d < 16.
Proof.
  rewrite hexDigit_digitVal.
  destruct (Z.ltb_spec (big.digitVal c) 16) as [L | ]; [|discriminate].
  intros H. injection H as <-. split; [|exact L].
  unfold big.digitVal, between.
  pose proof (code_range c).
  change (code "0") with 48. change (code "9") with 57.
  change (code "a") with 97. change (code "z") with 122.
  change (code "A") with 65. change (code "Z") with 90.
  unfold big.MaxBase. split_leb; cbn [andb]; lia.
Qed.

Lemma positional_nonneg (base : Z) (ds : list Z) :
  0 <= base -> Forall (fun d => 0 <= d) ds -> 0 <= positional base ds.
Proof.
  intros Hb. induction 1 as [ | d ds Hd _ IH]; cbn [positional]; [lia|].
  assert (0 <= base ^ Z.of_nat (List.length ds)) by (apply Z.pow_nonneg; lia).
  nia.
Qed.

(** In the digits 0 to 9 a number is zero exactly when all its digits
    are. *)
Lemma positional_zero (ds : list Z) :
  Forall (fun d => 0 <= d < 10) ds ->
  positional 10 ds = 0 <-> Forall (fun d => d = 0) ds.
Proof.
  induction 1 as [ | d ds Hd F IH]; cbn [positional].
  - split; [constructor | reflexivity].
  - pose proof (positional_range ds F) as [L _].
    assert (P : 0 < 10 ^ Z.of_nat (List.length ds))
      by (apply Z.pow_pos_nonneg; lia).
    split.
    + intros H. assert (d = 0) by nia. subst d.
      constructor; [reflexivity|]. apply IH. lia.
    + intros H. inversion H as [ | ? ? H0 HF]; subst.
      rewrite (proj2 IH HF). lia.
Qed.

(** What [big.Int] accepts in base 16 is a hexadecimal numeral with an
    optional sign in front. *)
Lemma integerLiteral_hexNumeral (s : string) :
  integerLiteral 16 hexDigit s
  = option_map (withSign (fst (splitSign s))) (hexNumeral (snd (splitSign s))).
Proof.
  unfold integerLiteral, hexNumeral. destruct (splitSign s) as [n r].
  cbn [fst snd].
  destruct (leadingDigits hexDigit r) as [[ | d ds] [ | c rest]]; reflexivity.
Qed.

(** A hexadecimal numeral has no sign, and its value is not negative. *)
Lemma hexNumeral_unsigned (s : string) (v : Z) :
  hexNumeral s = Some v -> splitSign s = (false, s) /\ 0 <= v.
Proof.
  unfold hexNumeral. intros H.
  pose proof (leadingDigits_Forall hexDigit (fun d => 0 <= d) s
                ltac:(intros c d D; apply (hexDigit_range c d D))) as F.
  split.
  - destruct s as [ | c r]; [discriminate H|].
    cbn [leadingDigits] in H.
    destruct (hexDigit c) as [d | ] eqn:D; [|discriminate H].
    destruct c as [[] [] [] [] [] [] [] []]; try discriminate D; reflexivity.
  - destruct (leadingDigits hexDigit s) as [[ | d ds] [ | c rest]];
      try discriminate H.
    injection H as <-. change (0 <= positional 16 (d :: ds)).
    apply positional_nonneg; [lia | exact F].
Qed.

Lemma withSign_zero (n : bool) (v : Z) : withSign n v = 0 <-> v = 0.
Proof. unfold withSign. destruct n; lia. Qed.

(** ** The claims on the fetchers *)

Section FetcherClaims.

Context {World : Type} {E : Env World}.

(** C4.  On a response whose JSON is a list of (denom, amount) pairs,
    [getCosmosBalance] takes the first entry whose denom is the queried one
    but for the case of its letters, and returns its amount read as a
    decimal integer; without such an entry it returns the error "no balance
    found", not a balance.  (Denoms are ASCII strings.) *)
Theorem getCosmosBalance_match (rpc address denom body : string)
        (cb : CosmosBalance) (s : state World) (w' : World) :
  http_Get (rpc ++ "/cosmos/bank/v1beta1/balances/" ++ address)%string (world s)
  = (inr (inr body), w') ->
  json_Unmarshal_CosmosBalance body = inr cb ->
  is_ascii denom ->
  Forall (fun c => is_ascii (Denom c)) (CosmosBalance_Balances cb) ->
  exists r,
    getCosmosBalance rpc address denom s = (Done r, mkState w' (stdout s))
    /\ match find (fun c => sameIgnoringCase (Denom c) denom)
                  (CosmosBalance_Balances cb) with
       | Some c =>
           forall v, integerLiteral 10 decDigit (Amount c) = Some v -> r = inr v
       | None => r = inl (NoBalanceFound denom)
       end.
Proof.
  intros G J _ _. eexists.
  split; [apply (getCosmosBalance_run _ _ _ _ _ _ _ G J)|].
  rewrite getCosmosBalance_find_spec.
  destruct (find _ _) as [c | ]; [|reflexivity].
  intros v Hv. f_equal.
  destruct (SetString_spec 10 decDigit decDigit_digitVal (Amount c)) as (_ & T & F).
  destruct (snd (big.SetString 0 (Amount c) 10)).
  - rewrite (proj1 T eq_refl) in Hv. congruence.
  - rewrite (proj1 F eq_refl) in Hv. discriminate Hv.
Qed.

(** C9, as amended.  When the entry that matches the denom has an amount
    that is not a decimal integer, [getCosmosBalance] still returns a nil
    error; the balance it returns is the integer at the head of the amount
    (an optional sign and the digits after it), which is 0 exactly when
    these digits are all zeros, in particular when there are none.
    (Denoms are ASCII strings.) *)
Theorem getCosmosBalance_bad_amount (rpc address denom body : string)
        (cb : CosmosBalance) (c : Balances) (s : state World) (w' : World) :
  http_Get (rpc ++ "/cosmos/bank/v1beta1/balances/" ++ address)%string (world s)
  = (inr (inr body), w') ->
  json_Unmarshal_CosmosBalance body = inr cb ->
  is_ascii denom ->
  Forall (fun c => is_ascii (Denom c)) (CosmosBalance_Balances cb) ->
  find (fun c => sameIgnoringCase (Denom c) denom) (CosmosBalance_Balances cb)
  = Some c ->
  integerLiteral 10 decDigit (Amount c) = None ->
  getCosmosBalance rpc address denom s
  = (Done (inr (leadingInteger 10 decDigit (Amount c))), mkState w' (stdout s))
  /\ (leadingInteger 10 decDigit (Amount c) = 0
      <-> Forall (fun d => d = 0)
                 (fst (leadingDigits decDigit (snd (splitSign (Amount c)))))).
Proof.
  intros G J _ _ F _. split.
  - rewrite (getCosmosBalance_run _ _ _ _ _ _ _ G J), getCosmosBalance_find_spec, F.
    reflexivity.
  - unfold leadingInteger. destruct (splitSign (Amount c)) as [n r].
    cbn [snd]. rewrite withSign_zero. apply positional_zero.
    apply leadingDigits_range.
Qed.

(** C5, as amended.  The string that the node answers is read, after a
    leading "0x" is taken off, as [big.Int] reads an integer in base 16: an
    optional sign and a hexadecimal numeral.  So a hexadecimal numeral
    gives its value, which is not negative; a numeral with a sign in front
    is accepted as well; any other string gives the error "failed to
    convert balance to big.Int" and no balance.  "0x1bc16d674ec80000" is
    2 * 10^18. *)
Theorem getETHBalance_hex (client address balanceHex : string)
        (s : state World) (w' : World) :
  rpc_eth_getBalance client address (world s) = (inr balanceHex, w') ->
  exists r,
    getETHBalance client address s = (Done r, mkState w' (stdout s))
    /\ r = match option_map (withSign (fst (splitSign (strip0x balanceHex))))
                            (hexNumeral (snd (splitSign (strip0x balanceHex)))) with
           | Some v => inr v
           | None => inl ConvertFailed
           end
    /\ (forall v, hexNumeral (strip0x balanceHex) = Some v -> r = inr v /\ 0 <= v)
    /\ hexNumeral (strip0x "0x1bc16d674ec80000") = Some 2000000000000000000.
Proof.
  intros R. eexists. split; [|split; [|split]].
  - unfold getETHBalance, bind, call. rewrite R. cbn.
    rewrite getETHBalance_parse_spec. reflexivity.
  - rewrite integerLiteral_hexNumeral. reflexivity.
  - intros v H. destruct (hexNumeral_unsigned _ _ H) as [Sg Pv].
    rewrite integerLiteral_hexNumeral, Sg. cbn [fst snd]. rewrite H.
    split; [reflexivity | exact Pv].
  - reflexivity.
Qed.

(** C10, as amended.  [sendTelegramAlert] reads the status code of the
    response before it looks at the error of the POST.  When [http.Post]
    fails with a nil response, that is a panic, and the error is not
    returned.  When the error comes with a response (the redirect policy
    stopped the request), nothing panics: the function returns "unexpected
    status code" for a status other than 200, and the error of the POST
    for the status 200. *)
Theorem sendTelegramAlert_nil_response (message jsonMsg : string)
        (r : posted) (s : state World) (w' : World) :
  json_Marshal_Telegram {| ChatID := ""; Text := message |} = inr jsonMsg ->
  http_Post ("https://api.telegram.org/bot" ++ telegramBotToken ++ "/sendMessage")%string
            jsonMsg (world s)
  = (r, w') ->
  (forall err,
      r = PostFailed err ->
      sendTelegramAlert message s = (Panicked, mkState w' (stdout s)))
  /\ (forall res err,
         r = PostStopped res err ->
         sendTelegramAlert message s
         = (Done (Some (if StatusCode res =? StatusOK then err
                        else UnexpectedStatus (StatusCode res))),
            mkState w' (stdout s))).
Proof.
  intros J P. unfold sendTelegramAlert. rewrite J.
  unfold bind, call. rewrite P. split.
  - intros err ->. reflexivity.
  - intros res err ->. destruct (StatusCode res =? StatusOK); reflexivity.
Qed.

End FetcherClaims.

Lemma getCosmosBalance_match_witness :
  exists r,
    getCosmosBalance (E := calm)
                     "https://lcd" "cosmos1xy" "UATOM" start
    = (Done r,
       mkState ["GET https://lcd/cosmos/bank/v1beta1/balances/cosmos1xy"] [])
    /\ match find (fun c => sameIgnoringCase (Denom c) "UATOM")
                  [ {| Denom := "uatom"; Amount := "2500000" |} ] with
       | Some c =>
           forall v, integerLiteral 10 decDigit (Amount c) = Some v -> r = inr v
       | None => r = inl (NoBalanceFound "UATOM")
       end.
Proof.
  apply (getCosmosBalance_match
           (E := calm)
           "https://lcd" "cosmos1xy" "UATOM" "{}"
           {| CosmosBalance_Balances := [ {| Denom := "uatom"; Amount := "2500000" |} ] |}
           start).
  - reflexivity.
  - reflexivity.
  - repeat constructor.
  - repeat constructor.
Defined.

(** The two queries of the specification on the response
    [{"balances":[{"denom":"uatom","amount":"2500000"}]}]. *)
Example getCosmosBalance_find_uatom :
  getCosmosBalance_find [ {| Denom := "uatom"; Amount := "2500000" |} ] "UATOM"
  = inr 2500000
  /\ getCosmosBalance_find [ {| Denom := "uatom"; Amount := "2500000" |} ] "uosmo"
     = inl (NoBalanceFound "uosmo").
Proof. split; reflexivity. Qed.

Lemma getCosmosBalance_bad_amount_witness :
  getCosmosBalance
    (E := scripted
            {| script_config := inl (External "unused");
               script_eth := halfEther;
               script_cosmos :=
                 inr {| CosmosBalance_Balances :=
                          [ {| Denom := "uatom"; Amount := "12abc" |} ] |};
               script_post := answered 200 |})
    "https://lcd" "cosmos1xy" "uatom" start
  = (Done (inr (leadingInteger 10 decDigit "12abc")),
     mkState ["GET https://lcd/cosmos/bank/v1beta1/balances/cosmos1xy"] [])
  /\ (leadingInteger 10 decDigit "12abc" = 0
      <-> Forall (fun d => d = 0)
                 (fst (leadingDigits decDigit (snd (splitSign "12abc"))))).
Proof.
  apply (getCosmosBalance_bad_amount
           (E := scripted
                   {| script_config := inl (External "unused");
                      script_eth := halfEther;
                      script_cosmos :=
                        inr {| CosmosBalance_Balances :=
                                 [ {| Denom := "uatom"; Amount := "12abc" |} ] |};
                      script_post := answered 200 |})
           "https://lcd" "cosmos1xy" "uatom" "{}"
           {| CosmosBalance_Balances := [ {| Denom := "uatom"; Amount := "12abc" |} ] |}
           {| Denom := "uatom"; Amount := "12abc" |}
           start).
  - reflexivity.
  - reflexivity.
  - repeat constructor.
  - repeat constructor.
  - reflexivity.
  - reflexivity.
Defined.

(** C9 as stated fails: the amounts "12abc" and "2500000.75" are not
    decimal integers, and the balances returned with the nil error are 12
    and 2500000, not 0. *)
Lemma getCosmosBalance_bad_amount_not_zero :
  integerLiteral 10 decDigit "12abc" = None
  /\ getCosmosBalance_find [ {| Denom := "uatom"; Amount := "12abc" |} ] "uatom"
     = inr 12
  /\ getCosmosBalance_find [ {| Denom := "uatom"; Amount := "12abc" |} ] "uatom"
     <> inr 0
  /\ integerLiteral 10 decDigit "2500000.75" = None
  /\ getCosmosBalance_find
       [ {| Denom := "uatom"; Amount := "2500000.75" |} ] "uatom"
     = inr 2500000.
Proof.
  split; [reflexivity|]. split; [reflexivity|].
  split; [intros K; discriminate K|].
  split; reflexivity.
Qed.

(** Amounts whose balance is 0: no digit at the head, or zeros only. *)
Example getCosmosBalance_bad_amount_zero :
  getCosmosBalance_find [ {| Denom := "uatom"; Amount := "abc" |} ] "uatom" = inr 0
  /\ getCosmosBalance_find [ {| Denom := "uatom"; Amount := "0abc" |} ] "uatom"
     = inr 0
  /\ getCosmosBalance_find [ {| Denom := "uatom"; Amount := "0.75" |} ] "uatom"
     = inr 0
  /\ getCosmosBalance_find [ {| Denom := "uatom"; Amount := "-" |} ] "uatom"
     = inr 0.
Proof. repeat split; reflexivity. Qed.

Lemma getETHBalance_hex_witness :
  exists r,
    getETHBalance (E := flaky) "https://rpc" "0xC" start
    = (Done r, mkState ["eth_getBalance 0xC"] [])
    /\ r = match option_map
                   (withSign (fst (splitSign (strip0x "0x1bc16d674ec80000"))))
                   (hexNumeral (snd (splitSign (strip0x "0x1bc16d674ec80000")))) with
           | Some v => inr v
           | None => inl ConvertFailed
           end
    /\ (forall v,
           hexNumeral (strip0x "0x1bc16d674ec80000") = Some v ->
           r = inr v /\ 0 <= v)
    /\ hexNumeral (strip0x "0x1bc16d674ec80000") = Some 2000000000000000000.
Proof.
  apply (getETHBalance_hex
           (E := flaky)
           "https://rpc" "0xC" "0x1bc16d674ec80000" start).
  reflexivity.
Defined.

(** C5 as stated fails: "0x-ff" is not a hexadecimal numeral, with or
    without its prefix, and the fetcher returns no error for it but the
    balance -255; "+1f" gives 31. *)
Lemma getETHBalance_signed_hex :
  hexNumeral "0x-ff" = None
  /\ hexNumeral (strip0x "0x-ff") = None
  /\ getETHBalance (E := scripted (demoScript signedAnswer (answered 200)))
                   "https://rpc" "0xA" start
     = (Done (inr (-255)), mkState ["eth_getBalance 0xA"] [])
  /\ hexNumeral "+1f" = None
  /\ getETHBalance_parse "+1f" = inr 31.
Proof.
  repeat split; vm_compute; reflexivity.
Qed.

Lemma sendTelegramAlert_nil_response_witness :
  sendTelegramAlert
    (E := scripted (demoScript halfEther (PostFailed (External "no route"))))
    "low balance" start
  = (Panicked,
     mkState ["POST https://api.telegram.org/bot$TELEGRAM_BOT_TOKEN/sendMessage"] []).
Proof.
  apply (proj1 (sendTelegramAlert_nil_response
                  (E := scripted (demoScript halfEther
                                             (PostFailed (External "no route"))))
                  "low balance" "low balance" (PostFailed (External "no route"))
                  start
                  ["POST https://api.telegram.org/bot$TELEGRAM_BOT_TOKEN/sendMessage"]
                  eq_refl eq_refl)
               (External "no route")).
  reflexivity.
Defined.

(** C10 as stated fails: here [http.Post] returns an error that is not
    nil, and with it a response; [sendTelegramAlert] does not panic, it
    returns "unexpected status code: 307". *)
Lemma sendTelegramAlert_error_with_response :
  fst (http_Post (Env := scripted (demoScript halfEther stopped))
                 "https://api.telegram.org/bot$TELEGRAM_BOT_TOKEN/sendMessage"
                 "low balance" [])
  = PostStopped {| StatusCode := 307 |} (External "stopped after 10 redirects")
  /\ sendTelegramAlert (E := scripted (demoScript halfEther stopped))
                       "low balance" start
     = (Done (Some (UnexpectedStatus 307)),
        mkState ["POST https://api.telegram.org/bot$TELEGRAM_BOT_TOKEN/sendMessage"] [])
  /\ fst (sendTelegramAlert (E := scripted (demoScript halfEther stopped))
                            "low balance" start)
     <> Panicked.
Proof.
  split; [reflexivity|]. split; [vm_compute; reflexivity|].
  vm_compute. intros K. discriminate K.
Qed.

(** ** The claims on the orchestrator *)

Section OrchestratorClaims.

Context {World : Type} {E : Env World}.



(** C8, as amended.  A webhook answer with a status other than 200 makes
    [sendDiscordAlert] return the error "unexpected status code".
    [sendAlert] drops that result: whatever the delivery did, [sendAlert]
    returns normally and has written nothing on the console, so the run
    goes on and the failure is not logged. *)
Theorem delivery_failure_dropped :
  (forall (message jsonMsg : string) (resp : Response)
          (s : state World) (w' : World),
      json_Marshal_Discord {| Content := message |} = inr jsonMsg ->
      http_Post discordWebhookURL jsonMsg (world s) = (PostAnswered resp, w') ->
      StatusCode resp <> StatusOK ->
      sendDiscordAlert message s
      = (Done (Some (UnexpectedStatus (StatusCode resp))), mkState w' (stdout s)))
  /\ (forall (network address balance threshold coin explorer : string)
             (s : state World),
         exists s',
           sendAlert network address balance threshold coin explorer s
           = (Done tt, s')
           /\ stdout s' = stdout s).
Proof.
  split.
  - intros message jsonMsg resp s w' J P N.
    unfold sendDiscordAlert. rewrite J. unfold bind, call. rewrite P.
    destruct (Z.eqb_spec (StatusCode resp) StatusOK) as [K | _];
      [contradiction | reflexivity].
  - intros. apply sendAlert_silent.
Qed.

End OrchestratorClaims.


(** The example of the specification: three wallets, one of them without
    the flag.  Two balances are fetched, two rows are printed, two alerts
    are sent (every balance is 0.5, the threshold is 1); the wallet "0xB"
    appears nowhere. *)
Example two_of_three_wallets :
  wallet_loop (E := calm)
              (getETHBalance (E := calm) "https://rpc") demoNetwork
              (big.mkFloat 64 false (big.finite 1 0)) start
  = (Done tt,
     mkState [ "eth_getBalance 0xA"; "POST $DISCORD_WEBHOOK_URL";
               "eth_getBalance 0xC"; "POST $DISCORD_WEBHOOK_URL" ]
             [ PrintRow "0xA" "(float)" "(int)" "(float)";
               PrintRow "0xC" "(float)" "(int)" "(float)" ]).
Proof. vm_compute. reflexivity. Qed.


Lemma delivery_failure_dropped_witness :
  sendDiscordAlert (E := webhookDown)
                   "low balance" start
  = (Done (Some (UnexpectedStatus 500)),
     mkState ["POST $DISCORD_WEBHOOK_URL"] []).
Proof.
  apply (proj1 (delivery_failure_dropped
                  (E := webhookDown))
               "low balance" "low balance" {| StatusCode := 500 |} start).
  - reflexivity.
  - reflexivity.
  - vm_compute. intros K. discriminate K.
Defined.

(** C8 as stated fails where it says that the failure is logged.  One
    network, every balance 0.5 against the threshold "1.0", and a webhook
    that answers 500: the delivery fails twice (the two wallets with the
    flag), the run ends normally, and its console log is line for line the
    log of the run in which the webhook answers 200; no line of it is an
    error. *)
Lemma delivery_failure_not_logged :
  sendDiscordAlert (E := webhookDown)
                   "low balance" start
  = (Done (Some (UnexpectedStatus 500)), mkState ["POST $DISCORD_WEBHOOK_URL"] [])
  /\ fst (main (E := webhookDown) start)
     = Done tt
  /\ world (snd (main (E := webhookDown) start))
     = [ "read ./wallets.json"; "dial https://rpc";
         "eth_getBalance 0xA"; "POST $DISCORD_WEBHOOK_URL";
         "eth_getBalance 0xC"; "POST $DISCORD_WEBHOOK_URL" ]
  /\ stdout (snd (main (E := webhookDown) start))
     = stdout (snd (main (E := calm) start))
  /\ printedErrors (stdout (snd (main (E := webhookDown) start))) = []
  /\ stdout (snd (main (E := webhookDown) start))
     = [ PrintNetwork "mainnet"; PrintColumns "ETH"; PrintRule;
         PrintRow "0xA" "(float)" "(int)" "(float)";
         PrintRow "0xC" "(float)" "(int)" "(float)";
         PrintBlank ].
Proof.
  repeat split; vm_compute; reflexivity.
Qed.

(** * Further properties of the orchestrator *)

Section NetworkLoop.

Context {World : Type} {E : Env World}.

(** X1.  A network whose threshold cannot be read is skipped: its header
    and the line "Error parsing threshold value" are printed, nothing is
    asked of the outside world, and the loop goes on with the next network. *)
Theorem threshold_error_skips_network
        (networkConfig : NetworkConfig) (rest : list NetworkConfig)
        (s : state World) :
  big.SetString_Float (NetworkConfig_Threshold networkConfig) = None ->
  forEach (networkConfig :: rest) network_body s
  = forEach rest network_body
            (mkState (world s)
                     (stdout s ++ networkHeader networkConfig
                      ++ [PrintThresholdError])).
Proof.
  intros T. cbn [forEach]. unfold bind at 1.
  unfold network_body, bind, print. rewrite T. cbn [world stdout].
  unfold networkHeader. rewrite <- !app_assoc. reflexivity.
Qed.

(** X2.  An EVM network whose node cannot be dialled is skipped without a
    word: after the header nothing is printed, neither the error nor the
    closing blank line, no balance is fetched, and the loop goes on. *)
Theorem dial_error_skips_network
        (networkConfig : NetworkConfig) (rest : list NetworkConfig)
        (threshold : big.Float) (err : error) (s : state World) (w' : World) :
  big.SetString_Float (NetworkConfig_Threshold networkConfig) = Some threshold ->
  NetworkConfig_Type networkConfig = "evm" ->
  rpc_DialContext (NetworkConfig_RPC networkConfig) (world s) = (Some err, w') ->
  forEach (networkConfig :: rest) network_body s
  = forEach rest network_body
            (mkState w' (stdout s ++ networkHeader networkConfig)).
Proof.
  intros T Ty Dl. cbn [forEach]. unfold bind at 1.
  unfold network_body, bind, print, call. rewrite T, Ty. cbn [world stdout String.eqb Ascii.eqb Bool.eqb].
  rewrite Dl. unfold ret.
  unfold networkHeader. rewrite <- !app_assoc. reflexivity.
Qed.

(** X3.  A network whose type is none of "evm", "icon" and "cosmos" has its
    header and the closing blank line printed and nothing else: no node is
    dialled, no wallet is fetched, nothing warns of the unknown type. *)
Theorem unknown_type_fetches_nothing
        (networkConfig : NetworkConfig) (rest : list NetworkConfig)
        (threshold : big.Float) (s : state World) :
  big.SetString_Float (NetworkConfig_Threshold networkConfig) = Some threshold ->
  NetworkConfig_Type networkConfig <> "evm" ->
  NetworkConfig_Type networkConfig <> "icon" ->
  NetworkConfig_Type networkConfig <> "cosmos" ->
  forEach (networkConfig :: rest) network_body s
  = forEach rest network_body
            (mkState (world s)
                     (stdout s ++ networkHeader networkConfig ++ [PrintBlank])).
Proof.
  intros T N1 N2 N3. cbn [forEach]. unfold bind at 1.
  unfold network_body, bind, print. rewrite T.
  apply String.eqb_neq in N1, N2, N3. rewrite N1, N2, N3.
  cbn [world stdout].
  unfold networkHeader. rewrite <- !app_assoc. reflexivity.
Qed.

End NetworkLoop.

Section WalletAlerts.

Context {World : Type} {E : Env World}.

(** X4.  A wallet with the alert flag whose balance was fetched gets its
    row printed; then, when the balance is not below the threshold, nothing
    more happens (the world is as the fetch left it), and when it is below,
    the world sees exactly one POST, to the Discord webhook, of the alert
    text. *)
Theorem alert_exactly_when_below
        (fetch : string -> M World (error + big.Int))
        (networkConfig : NetworkConfig) (threshold : big.Float)
        (wallet : Wallet) (s s1 : state World)
        (balance : big.Int) (etherBalance : big.Float) :
  Wallet_Alert wallet = true ->
  fetch (Wallet_Address wallet) s = (Done (inr balance), s1) ->
  toDecimalUnit balance (NetworkConfig_Decimals networkConfig)
  = Some etherBalance ->
  (exceedsBalanceThreshold etherBalance threshold = false ->
   wallet_body fetch networkConfig threshold wallet s
   = (Done tt,
      mkState (world s1)
              (stdout s1 ++ [walletRow wallet etherBalance balance threshold])))
  /\ (forall jsonMsg,
         exceedsBalanceThreshold etherBalance threshold = true ->
         json_Marshal_Discord
           {| Content := alertMessage (NetworkConfig_Name networkConfig)
                                      (Wallet_Address wallet)
                                      (Float_String etherBalance)
                                      (Float_String threshold)
                                      (NetworkConfig_Coin networkConfig)
                                      (NetworkConfig_Explorer networkConfig) |}
         = inr jsonMsg ->
         wallet_body fetch networkConfig threshold wallet s
         = (Done tt,
            mkState (snd (http_Post discordWebhookURL jsonMsg (world s1)))
                    (stdout s1
                     ++ [walletRow wallet etherBalance balance threshold]))).
Proof.
  intros A F C. split.
  - intros X. unfold wallet_body. rewrite A. cbn [negb].
    unfold bind. rewrite F, C. unfold print. rewrite X. reflexivity.
  - intros jsonMsg X J. unfold wallet_body. rewrite A. cbn [negb].
    unfold bind. rewrite F, C. unfold print. rewrite X.
    unfold sendAlert, bind, sendDiscordAlert.
    fold (alertMessage (NetworkConfig_Name networkConfig) (Wallet_Address wallet)
                       (Float_String etherBalance) (Float_String threshold)
                       (NetworkConfig_Coin networkConfig)
                       (NetworkConfig_Explorer networkConfig)).
    rewrite J. unfold bind, call. cbn [world stdout].
    destruct (http_Post discordWebhookURL jsonMsg (world s1))
      as [[err | resp | resp err] w]; cbn [snd]; try reflexivity.
    destruct (negb (StatusCode resp =? StatusOK)); reflexivity.
Qed.

(** X8.  A Cosmos wallet whose request fails is reported twice: once by
    [getCosmosBalance], with the kind of the failure (and, for a body that
    is not the expected JSON, with the body), and once more by [main]. *)
Theorem cosmos_error_printed_twice
        (networkConfig : NetworkConfig) (threshold : big.Float)
        (wallet : Wallet) (s : state World) (w' : World) (err : error) :
  Wallet_Alert wallet = true ->
  let rpc := NetworkConfig_RPC networkConfig in
  let coin := NetworkConfig_Coin networkConfig in
  let url := (rpc ++ "/cosmos/bank/v1beta1/balances/"
              ++ Wallet_Address wallet)%string in
  let run := wallet_body (fun address => getCosmosBalance rpc address coin)
                         networkConfig threshold wallet s in
  (http_Get url (world s) = (inl err, w') ->
   run = (Done tt, mkState w' (stdout s ++ [PrintHTTPError err; PrintError err])))
  /\ (http_Get url (world s) = (inr (inl err), w') ->
      run = (Done tt,
             mkState w' (stdout s ++ [PrintReadError err; PrintError err])))
  /\ (forall body,
         http_Get url (world s) = (inr (inr body), w') ->
         json_Unmarshal_CosmosBalance body = inl err ->
         run = (Done tt,
                mkState w' (stdout s ++ [PrintJSONError err; PrintBody body;
                                         PrintError err]))).
Proof.
  intros A rpc coin url run. subst run. unfold wallet_body. rewrite A.
  cbn [negb]. unfold getCosmosBalance. fold url.
  repeat split.
  - intros G. unfold bind, call, print, ret. rewrite G. cbn [world stdout].
    rewrite <- app_assoc. reflexivity.
  - intros G. unfold bind, call, print, ret. rewrite G. cbn [world stdout].
    rewrite <- app_assoc. reflexivity.
  - intros body G J. unfold bind, call, print, ret. rewrite G, J.
    cbn [world stdout]. rewrite <- !app_assoc. reflexivity.
Qed.

(** X5.  [sendDiscordAlert] never panics and never stops the process; it
    returns nil exactly when the message could be encoded and the webhook
    answered the POST with status 200. *)
Theorem sendDiscordAlert_nil_iff (message : string) (s : state World) :
  exists r s',
    sendDiscordAlert message s = (Done r, s')
    /\ (r = None
        <-> exists jsonMsg resp,
              json_Marshal_Discord {| Content := message |} = inr jsonMsg
              /\ fst (http_Post discordWebhookURL jsonMsg (world s))
                 = PostAnswered resp
              /\ StatusCode resp = StatusOK).
Proof.
  unfold sendDiscordAlert.
  destruct (json_Marshal_Discord _) as [err | jsonMsg] eqn:J.
  - eexists. eexists. split; [reflexivity|]. split; [discriminate|].
    intros (j & resp & K & _). discriminate K.
  - unfold bind, call.
    destruct (http_Post discordWebhookURL jsonMsg (world s))
      as [[err | resp | resp err] w] eqn:P.
    + eexists. eexists. split; [reflexivity|]. split; [discriminate|].
      intros (j & resp & K & Q & _). injection K as <-. rewrite P in Q.
      discriminate Q.
    + destruct (Z.eqb_spec (StatusCode resp) StatusOK) as [K | K]; cbn [negb].
      * eexists. eexists. split; [reflexivity|]. split; [|reflexivity].
        intros _. exists jsonMsg, resp. rewrite P. repeat split; assumption.
      * eexists. eexists. split; [reflexivity|]. split; [discriminate|].
        intros (j & resp' & K1 & Q & K2). injection K1 as <-. rewrite P in Q.
        cbn in Q. injection Q as <-. contradiction.
    + eexists. eexists. split; [reflexivity|]. split; [discriminate|].
      intros (j & resp' & K & Q & _). injection K as <-. rewrite P in Q.
      discriminate Q.
Qed.

(** X6.  [sendTelegramAlert] of [main.go] panics in one case only, a POST
    that failed without a response; in every other case it returns, and it
    returns nil exactly when the POST was answered, without error, with
    status 200. *)
Theorem sendTelegramAlert_outcomes (message : string) (s : state World) :
  let url := ("https://api.telegram.org/bot" ++ telegramBotToken
              ++ "/sendMessage")%string in
  let msg := {| ChatID := ""; Text := message |} in
  (fst (sendTelegramAlert message s) = Panicked
   <-> exists jsonMsg err,
         json_Marshal_Telegram msg = inr jsonMsg
         /\ fst (http_Post url jsonMsg (world s)) = PostFailed err)
  /\ (fst (sendTelegramAlert message s) = Done None
      <-> exists jsonMsg resp,
            json_Marshal_Telegram msg = inr jsonMsg
            /\ fst (http_Post url jsonMsg (world s)) = PostAnswered resp
            /\ StatusCode resp = StatusOK)
  /\ (forall err, fst (sendTelegramAlert message s) <> Fatal err).
Proof.
  intros url msg. unfold sendTelegramAlert. fold url. fold msg.
  destruct (json_Marshal_Telegram msg) as [e | jsonMsg] eqn:J.
  - cbn. repeat split; try discriminate.
    + intros (j & err & K & _). discriminate K.
    + intros (j & resp & K & _). discriminate K.
  - unfold bind, call.
    destruct (http_Post url jsonMsg (world s)) as [[e | resp | resp e] w] eqn:P;
      cbn [fst].
    + repeat split; try discriminate.
      * intros _. exists jsonMsg, e. rewrite P. split; reflexivity.
      * intros (j & resp & K & Q & _). injection K as <-. rewrite P in Q.
        discriminate Q.
    + destruct (Z.eqb_spec (StatusCode resp) StatusOK) as [K | K]; cbn [negb fst ret].
      * repeat split; try discriminate.
        -- intros (j & err & K1 & Q). injection K1 as <-. rewrite P in Q.
           discriminate Q.
        -- intros _. exists jsonMsg, resp. rewrite P. repeat split; assumption.
      * repeat split; try discriminate.
        -- intros (j & err & K1 & Q). injection K1 as <-. rewrite P in Q.
           discriminate Q.
        -- intros (j & resp' & K1 & Q & K2). injection K1 as <-. rewrite P in Q.
           cbn in Q. injection Q as <-. contradiction.
    + destruct (Z.eqb_spec (StatusCode resp) StatusOK) as [K | K]; cbn [negb fst ret].
      * repeat split; try discriminate.
        -- intros (j & err & K1 & Q). injection K1 as <-. rewrite P in Q.
           discriminate Q.
        -- intros (j & resp' & K1 & Q & _). injection K1 as <-. rewrite P in Q.
           discriminate Q.
      * repeat split; try discriminate.
        -- intros (j & err & K1 & Q). injection K1 as <-. rewrite P in Q.
           discriminate Q.
        -- intros (j & resp' & K1 & Q & _). injection K1 as <-. rewrite P in Q.
           discriminate Q.
Qed.

(** X7.  [sendTelegramAlert] of [alert.go] never panics, and it does not
    look at the status of the answer: an answered POST is a success, even
    with status 500; the result is nil exactly when the message could be
    encoded and the POST came back without error. *)
Theorem alert_sendTelegramAlert_ignores_status (message : string) (s : state World) :
  let url := ("https://api.telegram.org/bot" ++ telegramBotToken
              ++ "/sendMessage")%string in
  let msg := {| ChatID := alert.telegramChatID; Text := message |} in
  exists r s',
    alert.sendTelegramAlert message s = (Done r, s')
    /\ (r = None
        <-> exists jsonMsg resp,
              json_Marshal_Telegram msg = inr jsonMsg
              /\ fst (http_Post url jsonMsg (world s)) = PostAnswered resp).
Proof.
  intros url msg. unfold alert.sendTelegramAlert. fold url. fold msg.
  destruct (json_Marshal_Telegram msg) as [e | jsonMsg] eqn:J.
  - eexists. eexists. split; [reflexivity|]. split; [discriminate|].
    intros (j & resp & K & _). discriminate K.
  - unfold bind, call.
    destruct (http_Post url jsonMsg (world s)) as [[e | resp | resp e] w] eqn:P.
    + eexists. eexists. split; [reflexivity|]. split; [discriminate|].
      intros (j & resp & K & Q). injection K as <-. rewrite P in Q.
      discriminate Q.
    + eexists. eexists. split; [reflexivity|]. split; [|reflexivity].
      intros _. exists jsonMsg, resp. rewrite P. split; reflexivity.
    + eexists. eexists. split; [reflexivity|]. split; [discriminate|].
      intros (j & resp' & K & Q). injection K as <-. rewrite P in Q.
      discriminate Q.
Qed.

End WalletAlerts.

(** * Further properties of the fetchers *)

Lemma find_ext_bool {A : Type} (f g : A -> bool) (l : list A) :
  (forall x, f x = g x) -> find f l = find g l.
Proof.
  intros H. induction l as [ | x l IH]; [reflexivity|].
  cbn. rewrite H, IH. reflexivity.
Qed.

(** X9.  The denom of the query counts only up to the case of its letters:
    two queries that differ in case alone find the same balance in a
    response, or both find none. *)
Theorem getCosmosBalance_find_case
        (balances : list Balances) (denom1 denom2 : string) :
  is_ascii denom1 -> is_ascii denom2 ->
  Forall (fun c => is_ascii (Denom c)) balances ->
  sameIgnoringCase denom1 denom2 = true ->
  match getCosmosBalance_find balances denom1,
        getCosmosBalance_find balances denom2 with
  | inr balance1, inr balance2 => balance1 = balance2
  | inl err1, inl err2 =>
      err1 = NoBalanceFound denom1 /\ err2 = NoBalanceFound denom2
  | _, _ => False
  end.
Proof.
  intros _ _ _ S. rewrite !getCosmosBalance_find_spec.
  apply String.eqb_eq in S.
  rewrite (find_ext_bool (fun c => sameIgnoringCase (Denom c) denom1)
                         (fun c => sameIgnoringCase (Denom c) denom2)).
  - destruct (find _ balances); [reflexivity | split; reflexivity].
  - intros c. unfold sameIgnoringCase. rewrite S. reflexivity.
Qed.

Lemma digitVal_lower (c : ascii) : big.digitVal (lower c) = big.digitVal c.
Proof.
  destruct c as [[] [] [] [] [] [] [] []]; vm_compute; reflexivity.
Qed.

Lemma lower_sign (c : ascii) :
  Ascii.eqb (lower c) "-" = Ascii.eqb c "-"
  /\ Ascii.eqb (lower c) "+" = Ascii.eqb c "+".
Proof.
  destruct c as [[] [] [] [] [] [] [] []]; vm_compute; split; reflexivity.
Qed.

Lemma scanDigits_toLower (b : Z) (s : string) (acc : Z) (count : nat) :
  big.scanDigits b (toLower s) acc count
  = let '(v, n, rest) := big.scanDigits b s acc count in (v, n, toLower rest).
Proof.
  revert acc count. induction s as [ | c r IH]; intros acc count.
  - reflexivity.
  - cbn [toLower big.scanDigits]. rewrite digitVal_lower.
    destruct (b <=? big.digitVal c); [reflexivity|]. apply IH.
Qed.

(** The digits of the integer are read without regard to case. *)
Lemma SetString_toLower (z : big.Int) (s : string) (b : Z) :
  big.SetString z (toLower s) b = big.SetString z s b.
Proof.
  unfold big.SetString.
  destruct s as [ | c r]; [reflexivity|].
  cbn [toLower big.scanSign].
  destruct (lower_sign c) as [-> ->].
  destruct (Ascii.eqb c "-"); [|destruct (Ascii.eqb c "+")].
  - rewrite scanDigits_toLower.
    destruct (big.scanDigits b r 0 0) as [[v n] rest].
    destruct n; [reflexivity|]. destruct rest; reflexivity.
  - rewrite scanDigits_toLower.
    destruct (big.scanDigits b r 0 0) as [[v n] rest].
    destruct n; [reflexivity|]. destruct rest; reflexivity.
  - change (String (lower c) (toLower r)) with (toLower (String c r)).
    rewrite scanDigits_toLower.
    destruct (big.scanDigits b (String c r) 0 0) as [[v n] rest].
    destruct n; [reflexivity|]. destruct rest; reflexivity.
Qed.

(** X10.  In the answer of the node the prefix must be "0x" in lower case:
    an answer that starts with "0X" is never a balance.  The digits after
    the prefix are read without regard to case. *)
Theorem getETHBalance_parse_case (digits : string) :
  getETHBalance_parse ("0X" ++ digits) = inl ConvertFailed
  /\ getETHBalance_parse ("0x" ++ toLower digits)
     = getETHBalance_parse ("0x" ++ digits).
Proof.
  split.
  - reflexivity.
  - unfold getETHBalance_parse.
    change (strings.TrimPrefix ("0x" ++ toLower digits) "0x") with (toLower digits).
    change (strings.TrimPrefix ("0x" ++ digits) "0x") with digits.
    rewrite SetString_toLower. reflexivity.
Qed.

(** ** Round trips *)

Lemma positional_app (base : Z) (ds : list Z) (d : Z) :
  positional base (ds ++ [d]) = positional base ds * base + d.
Proof.
  induction ds as [ | x ds IH]; cbn [positional app List.length].
  - cbn. lia.
  - rewrite IH, length_app. cbn [List.length].
    rewrite Nat.add_1_r, Nat2Z.inj_succ, Z.pow_succ_r by lia. ring.
Qed.

(** The digits of [n]: in range, at least one, and of value [n]. *)
Lemma toDigits_spec (base : Z) (fuel : nat) (n : Z) :
  2 <= base -> 0 <= n < base ^ Z.of_nat (S fuel) ->
  Forall (fun d => 0 <= d < base) (toDigits (S fuel) base n)
  /\ toDigits (S fuel) base n <> []
  /\ positional base (toDigits (S fuel) base n) = n.
Proof.
  intros Hb. revert n. induction fuel as [ | fuel IH]; intros n Hn.
  - change (Z.of_nat 1) with 1 in Hn. rewrite Z.pow_1_r in Hn.
    cbn [toDigits]. destruct (Z.ltb_spec n base) as [L | L]; [|lia].
    repeat split.
    + constructor; [lia | constructor].
    + discriminate.
    + cbn. lia.
  - remember (S fuel) as f eqn:Ef.
    cbn [toDigits]. destruct (Z.ltb_spec n base) as [L | L].
    + repeat split.
      * constructor; [lia | constructor].
      * discriminate.
      * cbn. lia.
    + rewrite Nat2Z.inj_succ, Z.pow_succ_r in Hn by lia.
      assert (Hq : 0 <= n / base < base ^ Z.of_nat f).
      { split; [apply Z.div_pos; lia|].
        apply Z.div_lt_upper_bound; lia. }
      destruct (IH _ Hq) as (F & N & P).
      pose proof (Z.mod_pos_bound n base ltac:(lia)) as M.
      repeat split.
      * apply Forall_app. split; [exact F | constructor; [exact M | constructor]].
      * intros K. apply app_eq_nil in K. destruct K as [_ K]. discriminate K.
      * rewrite positional_app, P. pose proof (Z.div_mod n base ltac:(lia)). lia.
Qed.

Lemma numeral_fuel (base n : Z) :
  2 <= base -> 0 <= n -> 0 <= n < base ^ Z.of_nat (S (Z.to_nat (Z.log2 n))).
Proof.
  intros Hb Hn. split; [exact Hn|].
  rewrite Nat2Z.inj_succ, Z2Nat.id by apply Z.log2_nonneg.
  destruct (Z.eq_dec n 0) as [-> | N].
  - cbn. lia.
  - pose proof (Z.log2_spec n ltac:(lia)) as [_ U].
    assert (2 ^ Z.succ (Z.log2 n) <= base ^ Z.succ (Z.log2 n)).
    { apply Z.pow_le_mono_l. lia. }
    lia.
Qed.

Lemma code_digitChar (d : Z) :
  0 <= d < 16 -> code (digitChar d) = if d <? 10 then 48 + d else 87 + d.
Proof.
  intros H. unfold digitChar.
  destruct (d <? 10); apply code_of_code; lia.
Qed.

Lemma hexDigit_digitChar (d : Z) : 0 <= d < 16 -> hexDigit (digitChar d) = Some d.
Proof.
  intros H. unfold hexDigit. rewrite !between_code, code_digitChar by exact H.
  change (code "0") with 48. change (code "9") with 57.
  change (code "a") with 97. change (code "f") with 102.
  destruct (Z.ltb_spec d 10).
  - destruct (Z.leb_spec 48 (48 + d)); [|lia].
    destruct (Z.leb_spec (48 + d) 57); [|lia]. cbn [andb]. f_equal. lia.
  - destruct (Z.leb_spec (87 + d) 57); [lia|]. rewrite andb_false_r.
    destruct (Z.leb_spec 97 (87 + d)); [|lia].
    destruct (Z.leb_spec (87 + d) 102); [|lia]. cbn [andb]. f_equal. lia.
Qed.

Lemma decDigit_digitChar (d : Z) : 0 <= d < 10 -> decDigit (digitChar d) = Some d.
Proof.
  intros H. unfold decDigit. rewrite between_code, code_digitChar by lia.
  change (code "0") with 48. change (code "9") with 57.
  destruct (Z.ltb_spec d 10); [|lia].
  destruct (Z.leb_spec 48 (48 + d)); [|lia].
  destruct (Z.leb_spec (48 + d) 57); [|lia]. cbn [andb]. f_equal. lia.
Qed.

Lemma digitChar_no_sign (d : Z) (r : string) :
  0 <= d < 16 -> splitSign (String (digitChar d) r) = (false, String (digitChar d) r).
Proof.
  intros H. pose proof (code_digitChar d H) as C.
  assert (B : 48 <= code (digitChar d))
    by (rewrite C; destruct (d <? 10); lia).
  clear C. unfold splitSign.
  destruct (digitChar d) as [[] [] [] [] [] [] [] []]; try reflexivity;
    exfalso; vm_compute in B; exact (B eq_refl).
Qed.

Section Numerals.

Variable base : Z.
Variable digit : ascii -> option Z.
Hypothesis base_range : 2 <= base <= 16.
Hypothesis digit_digitChar : forall d, 0 <= d < base -> digit (digitChar d) = Some d.

Lemma leadingDigits_digits (ds : list Z) :
  Forall (fun d => 0 <= d < base) ds ->
  leadingDigits digit (string_of_list_ascii (map digitChar ds)) = (ds, EmptyString).
Proof.
  induction 1 as [ | d ds Hd _ IH]; [reflexivity|].
  cbn [map string_of_list_ascii leadingDigits].
  rewrite (digit_digitChar d Hd), IH. reflexivity.
Qed.

(** A numeral is an integer literal, of the value that was written. *)
Lemma integerLiteral_numeral (n : Z) :
  0 <= n -> integerLiteral base digit (numeral base n) = Some n.
Proof.
  intros Hn. unfold numeral.
  destruct (toDigits_spec base _ n ltac:(lia) (numeral_fuel base n ltac:(lia) Hn))
    as (F & N & P).
  destruct (toDigits (S (Z.to_nat (Z.log2 n))) base n) as [ | d ds] eqn:D;
    [contradiction|].
  unfold integerLiteral. cbn [map string_of_list_ascii].
  assert (Hd : 0 <= d < 16) by (inversion F; lia).
  rewrite (digitChar_no_sign d _ Hd).
  change (String (digitChar d) (string_of_list_ascii (map digitChar ds)))
    with (string_of_list_ascii (map digitChar (d :: ds))).
  rewrite (leadingDigits_digits _ F). cbn [withSign]. rewrite P. reflexivity.
Qed.

End Numerals.

(** X11.  Round trip for EVM balances: the quantity that a node writes for
    a non-negative integer, "0x" and its hexadecimal numeral, is read back
    as that integer. *)
Theorem getETHBalance_parse_hexQuantity (n : Z) :
  0 <= n -> getETHBalance_parse (hexQuantity n) = inr n.
Proof.
  intros Hn. rewrite getETHBalance_parse_spec. unfold hexQuantity.
  change (strip0x ("0x" ++ numeral 16 n)) with (numeral 16 n).
  rewrite (integerLiteral_numeral 16 hexDigit ltac:(lia)
                                  (fun d H => hexDigit_digitChar d H) n Hn).
  reflexivity.
Qed.

(** X12.  Round trip for Cosmos amounts: when the entry that matches the
    denom carries the decimal numeral of a non-negative integer, that
    integer is the balance.  (Denoms are ASCII strings.) *)
Theorem getCosmosBalance_find_numeral
        (balances : list Balances) (denom : string) (c : Balances) (n : Z) :
  is_ascii denom ->
  Forall (fun c => is_ascii (Denom c)) balances ->
  find (fun c => sameIgnoringCase (Denom c) denom) balances = Some c ->
  Amount c = numeral 10 n ->
  0 <= n ->
  getCosmosBalance_find balances denom = inr n.
Proof.
  intros _ _ F A Hn. rewrite getCosmosBalance_find_spec, F. f_equal.
  pose proof (integerLiteral_numeral 10 decDigit ltac:(lia)
                                     (fun d H => decDigit_digitChar d H) n Hn) as L.
  rewrite <- A in L.
  destruct (SetString_spec 10 decDigit decDigit_digitVal (Amount c)) as (_ & T & Fl).
  destruct (snd (big.SetString 0 (Amount c) 10)).
  - rewrite (proj1 T eq_refl) in L. congruence.
  - rewrite (proj1 Fl eq_refl) in L. discriminate L.
Qed.

(** * Further properties of the conversion *)

Lemma SetInt_opp (B : Z) : B <> 0 -> big.SetInt (- B) = Float_Neg (big.SetInt B).
Proof.
  intros N. destruct B as [ | m | m]; [contradiction | reflexivity | reflexivity].
Qed.

Lemma Quo_Neg (zprec : Z) (x y : big.Float) :
  big.Quo zprec (Float_Neg x) y = option_map Float_Neg (big.Quo zprec x y).
Proof.
  unfold big.Quo, big.resultPrec, Float_Neg. cbn [big.prec big.neg big.val].
  destruct (big.val x), (big.val y), (big.neg x), (big.neg y); reflexivity.
Qed.

Lemma toDecimalUnit_Neg (B D : Z) :
  B <> 0 ->
  toDecimalUnit (- B) D = option_map Float_Neg (toDecimalUnit B D).
Proof.
  intros N. unfold toDecimalUnit. rewrite (SetInt_opp B N). apply Quo_Neg.
Qed.

(** X13.  The conversion is odd: the quotient of [- B] is the quotient of
    [B] with the opposite sign, rounded in the same way. *)
Theorem toDecimalUnit_opp (B D : Z) :
  B <> 0 ->
  toDecimalUnit (- B) D = option_map Float_Neg (toDecimalUnit B D).
Proof.
  exact (toDecimalUnit_Neg B D).
Qed.

(** The quotient of a positive balance is a positive finite number. *)
Lemma toDecimalUnit_positive (mB : positive) (D : Z) :
  0 <= D <= 255 -> Z.pos (Pos.size mB) < big.MaxExp ->
  exists p M e,
    toDecimalUnit (Z.pos mB) D = Some (big.mkFloat p false (big.finite M e)).
Proof.
  intros HD Hlen.
  destruct (pow10_size D HD) as (mF & EF & SF).
  unfold toDecimalUnit. rewrite EF, (SetInt_pos mF) by (unfold big.MaxExp; lia).
  rewrite (SetInt_pos mB) by lia.
  unfold big.Quo, big.resultPrec. cbn [Z.eqb big.val big.prec big.neg xorb].
  set (p := Z.max (Z.max (Z.pos (Pos.size mB)) 64) (Z.max (Z.pos (Pos.size mF)) 64)).
  destruct (uquo_bounds p mB 0 mF 0) as (M & s & k & _ & _ & U & _);
    try (unfold big.MinExp, big.MaxExp in *; lia).
  rewrite U. eexists. eexists. eexists. reflexivity.
Qed.

(** X14.  A balance of zero or more is never below the threshold 0, and
    only the balance 0 is converted to 0: a positive balance, however
    small, is not rounded away. *)
Theorem toDecimalUnit_zero (B D : Z) :
  0 <= B -> 0 <= D <= 255 -> big.BitLen B < big.MaxExp ->
  exists f,
    toDecimalUnit B D = Some f
    /\ (xeq (value f) (Fin 0) <-> B = 0)
    /\ (forall threshold,
           big.val threshold = big.zero ->
           exceedsBalanceThreshold f threshold = false).
Proof.
  intros HB HD Hlen. destruct B as [ | mB | mB]; [ | | lia].
  - destruct (pow10_size D HD) as (mF & EF & SF).
    exists (big.mkFloat (Z.max (Z.max 0 64) (Z.max (Z.pos (Pos.size mF)) 64))
                        false big.zero).
    split.
    { unfold toDecimalUnit.
      rewrite EF, (SetInt_pos mF) by (unfold big.MaxExp; lia). reflexivity. }
    split.
    + unfold value. cbn. split; reflexivity.
    + intros t Ht. unfold exceedsBalanceThreshold, big.Cmp, big.ord.
      cbn [big.val]. rewrite Ht. reflexivity.
  - destruct (toDecimalUnit_positive mB D HD Hlen) as (p & M & e & Hf).
    eexists. split; [exact Hf|]. split.
    + unfold value. cbn [big.val big.neg signed xeq]. split; [|discriminate].
      intros K. exfalso. pose proof (dyadic_pos_gt0 M e) as P.
      rewrite K in P. exact (Qlt_irrefl _ P).
    + intros t Ht. unfold exceedsBalanceThreshold, big.Cmp, big.ord.
      cbn [big.val big.neg]. rewrite Ht. reflexivity.
Qed.

(** X15.  A negative balance (the parsers accept a sign) is below every
    threshold that is zero or more: it always raises the alert. *)
Theorem negative_balance_alerts (B D : Z) (threshold : big.Float) :
  B < 0 -> 0 <= D <= 255 -> big.BitLen B < big.MaxExp ->
  big.neg threshold = false \/ big.val threshold = big.zero ->
  exists f,
    toDecimalUnit B D = Some f
    /\ exceedsBalanceThreshold f threshold = true.
Proof.
  intros HB HD Hlen Ht. destruct B as [ | mB | mB]; try lia.
  cbn [big.BitLen] in Hlen.
  destruct (toDecimalUnit_positive mB D HD Hlen) as (p & M & e & Hf).
  change (Z.neg mB) with (- Z.pos mB).
  rewrite toDecimalUnit_Neg, Hf by discriminate.
  eexists. split; [reflexivity|].
  unfold exceedsBalanceThreshold, big.Cmp, big.ord, Float_Neg.
  cbn [big.val big.neg negb].
  destruct Ht as [Ht | Ht]; rewrite Ht; [|reflexivity].
  destruct (big.val threshold); reflexivity.
Qed.

(** * The earlier version *)

(** X16.  The earlier [getCosmosBalance] agrees with the one of [main.go]
    on every response that has an entry for the denom; where [main.go]
    returns the error "no balance found", it returns the balance 0 with a
    nil error. *)
Theorem earlier_getCosmosBalance_find_zero
        (balances : list Balances) (denom : string) :
  earlier.getCosmosBalance_find balances denom
  = match getCosmosBalance_find balances denom with
    | inr balance => balance
    | inl _ => 0
    end.
Proof.
  induction balances as [ | c rest IH]; [reflexivity|].
  cbn [earlier.getCosmosBalance_find getCosmosBalance_find].
  destruct (strings.EqualFold _ _); [reflexivity | exact IH].
Qed.

Lemma within_below (B p T : Z) (q : Q) :
  0 < B < T -> B < 2 ^ p ->
  (Qabs (q * inject_Z T - inject_Z B) * inject_Z (2 ^ p) <= inject_Z B)%Q ->
  (q < 1)%Q.
Proof.
  intros HB Hp W.
  assert (P : (0 < inject_Z (2 ^ p))%Q).
  { change 0%Q with (inject_Z 0). rewrite <- Zlt_Qlt. lia. }
  assert (PT : (0 < inject_Z T)%Q).
  { change 0%Q with (inject_Z 0). rewrite <- Zlt_Qlt. lia. }
  assert (D : (q * inject_Z T - inject_Z B < 1)%Q).
  { apply Qle_lt_trans with (y := Qabs (q * inject_Z T - inject_Z B));
      [apply Qle_Qabs|].
    apply (Qmult_lt_r _ _ (inject_Z (2 ^ p)) P).
    eapply Qle_lt_trans; [exact W|].
    rewrite Qmult_1_l. rewrite <- Zlt_Qlt. lia. }
  apply (Qmult_lt_r _ _ (inject_Z T) PT). rewrite Qmult_1_l.
  apply Qlt_le_trans with (y := (inject_Z B + 1)%Q).
  - apply Qplus_lt_l with (z := (- inject_Z B)%Q).
    setoid_replace (inject_Z B + 1 + - inject_Z B)%Q with 1%Q by ring.
    exact D.
  - change 1%Q with (inject_Z 1). rewrite <- inject_Z_plus, <- Zle_Qle. lia.
Qed.

(** At 18 decimals a balance under [10^18] is a number below 1. *)
Lemma toDecimalUnit_below_one (B : Z) :
  0 <= B < 10 ^ 18 ->
  exists f, toDecimalUnit B 18 = Some f /\ xlt (value f) (Fin 1).
Proof.
  intros HB.
  assert (Hlen : big.BitLen B < big.MaxExp).
  { destruct B as [ | m | m]; [reflexivity | | lia].
    cbn [big.BitLen]. rewrite size_log2.
    assert (Z.log2 (Z.pos m) < 64).
    { apply Z.log2_lt_pow2; [lia|]. change (2 ^ 64) with 18446744073709551616.
      change (10 ^ 18) with 1000000000000000000 in HB. lia. }
    unfold big.MaxExp. lia. }
  destruct (Z.eq_dec B 0) as [-> | N].
  - eexists. split; [vm_compute; reflexivity|]. reflexivity.
  - destruct (toDecimalUnit_rounded B 18 ltac:(lia) ltac:(lia) Hlen)
      as (f & Hf & W).
    destruct (toDecimalUnit_total B 18 ltac:(lia)) as (f' & Hf' & Hp).
    assert (f' = f) by congruence. subst f'.
    exists f. split; [exact Hf|].
    destruct (value f) as [ | q | ]; cbn [scale10 within] in W;
      try contradiction.
    cbn [xlt].
    apply (within_below B (big.prec f) (10 ^ 18) q); [lia | | exact W].
    assert (2 ^ 64 <= 2 ^ big.prec f) by (apply Z.pow_le_mono_r; lia).
    change (2 ^ 64) with 18446744073709551616 in *.
    change (10 ^ 18) with 1000000000000000000 in HB. lia.
Qed.

(** X17.  The earlier threshold test scales every balance by 18 decimals,
    not by the decimals of the network: a balance under [10^18] smallest
    units is below every threshold of 1 or more, on a network of 6 decimals
    as on one of 18. *)
Theorem earlier_checkBalanceThreshold_18 (B : Z) (threshold : earlier.float64) :
  0 <= B < 10 ^ 18 ->
  (exists v, value64 threshold = Some v /\ (xeq v (Fin 1) \/ xlt (Fin 1) v)) ->
  earlier.checkBalanceThreshold B threshold = Some true.
Proof.
  intros HB (v & Hv & H1).
  destruct (toDecimalUnit_below_one B HB) as (f & Hf & Q1).
  unfold earlier.checkBalanceThreshold. rewrite Hf.
  destruct threshold as [n | n m e | n | ]; cbn [value64] in Hv;
    [ | | | discriminate]; injection Hv as <-; cbn [earlier.NewFloat].
  - exfalso. destruct H1 as [H1 | H1]; cbn in H1; discriminate H1.
  - f_equal. apply Z.eqb_eq, Cmp_lt.
    unfold value at 2. cbn [big.val big.neg].
    destruct (value f) as [ | q | ]; cbn [xlt] in Q1 |- *;
      try contradiction; try exact I.
    destruct H1 as [H1 | H1]; cbn in H1.
    + rewrite H1. exact Q1.
    + eapply Qlt_trans; [exact Q1 | exact H1].
  - f_equal. apply Z.eqb_eq, Cmp_lt.
    unfold value at 2. cbn [big.val big.neg].
    destruct n.
    + exfalso. destruct H1 as [H1 | H1]; cbn in H1; contradiction.
    + destruct (value f) as [ | q | ]; cbn [xlt] in Q1 |- *;
        try contradiction; exact I.
Qed.

Lemma earlier_checkBalanceThreshold_18_witness :
  earlier.checkBalanceThreshold 2500000 (earlier.F64_finite false 1 0) = Some true.
Proof.
  apply (earlier_checkBalanceThreshold_18 2500000 (earlier.F64_finite false 1 0)).
  - lia.
  - exists (Fin (dyadic 1 0)). split; [reflexivity|]. left. reflexivity.
Defined.

(** ** Instances *)

Lemma threshold_error_skips_network_witness :
  forEach [demoNetworkWith "evm" ""] (network_body (E := calm)) start
  = forEach [] (network_body (E := calm))
            (mkState (world start)
                     (stdout start ++ networkHeader (demoNetworkWith "evm" "")
                      ++ [PrintThresholdError])).
Proof.
  apply (threshold_error_skips_network (E := calm)
                                       (demoNetworkWith "evm" "") [] start).
  reflexivity.
Defined.

Lemma dial_error_skips_network_witness :
  forEach [demoNetwork] (network_body (E := offline (External "refused"))) start
  = forEach [] (network_body (E := offline (External "refused")))
            (mkState ["dial https://rpc"]
                     (stdout start ++ networkHeader demoNetwork)).
Proof.
  apply (dial_error_skips_network (E := offline (External "refused"))
                                  demoNetwork [] oneFloat (External "refused")
                                  start ["dial https://rpc"]).
  - vm_compute. reflexivity.
  - reflexivity.
  - reflexivity.
Defined.

Lemma unknown_type_fetches_nothing_witness :
  forEach [demoNetworkWith "solana" "1.0"] (network_body (E := calm)) start
  = forEach [] (network_body (E := calm))
            (mkState (world start)
                     (stdout start
                      ++ networkHeader (demoNetworkWith "solana" "1.0")
                      ++ [PrintBlank])).
Proof.
  apply (unknown_type_fetches_nothing (E := calm)
                                      (demoNetworkWith "solana" "1.0") []
                                      oneFloat start).
  - vm_compute. reflexivity.
  - intros K. discriminate K.
  - intros K. discriminate K.
  - intros K. discriminate K.
Defined.

Lemma alert_exactly_when_below_witness :
  let wallet := {| Wallet_Address := "0xA"; Wallet_Name := "relay";
                   Wallet_Alert := true |} in
  let s1 := mkState ["eth_getBalance 0xA"] [] in
  let run := wallet_body (E := calm) (getETHBalance (E := calm) "https://rpc")
                         demoNetwork oneFloat wallet start in
  (exceedsBalanceThreshold halfFloat oneFloat = false ->
   run = (Done tt,
          mkState (world s1)
                  (stdout s1
                   ++ [walletRow (E := calm) wallet halfFloat
                                 500000000000000000 oneFloat])))
  /\ (forall jsonMsg,
         exceedsBalanceThreshold halfFloat oneFloat = true ->
         json_Marshal_Discord (Env := calm)
           {| Content := alertMessage (NetworkConfig_Name demoNetwork)
                                      (Wallet_Address wallet)
                                      (Float_String (Env := calm) halfFloat)
                                      (Float_String (Env := calm) oneFloat)
                                      (NetworkConfig_Coin demoNetwork)
                                      (NetworkConfig_Explorer demoNetwork) |}
         = inr jsonMsg ->
         run = (Done tt,
                mkState (snd (http_Post (Env := calm)
                                        (discordWebhookURL (E := calm)) jsonMsg
                                        (world s1)))
                        (stdout s1
                         ++ [walletRow (E := calm) wallet halfFloat
                                       500000000000000000 oneFloat]))).
Proof.
  apply (alert_exactly_when_below
           (E := calm) (getETHBalance (E := calm) "https://rpc")
           demoNetwork oneFloat
           {| Wallet_Address := "0xA"; Wallet_Name := "relay";
              Wallet_Alert := true |}
           start (mkState ["eth_getBalance 0xA"] [])
           500000000000000000 halfFloat).
  - reflexivity.
  - vm_compute. reflexivity.
  - vm_compute. reflexivity.
Defined.

Lemma cosmos_error_printed_twice_witness :
  wallet_body (E := offline (External "refused"))
              (fun address =>
                 getCosmosBalance (E := offline (External "refused"))
                                  "https://rpc" address "ETH")
              demoNetwork oneFloat
              {| Wallet_Address := "0xA"; Wallet_Name := "relay";
                 Wallet_Alert := true |}
              start
  = (Done tt,
     mkState ["GET https://rpc/cosmos/bank/v1beta1/balances/0xA"]
             (stdout start ++ [PrintHTTPError (External "refused");
                               PrintError (External "refused")])).
Proof.
  apply (proj1 (cosmos_error_printed_twice
                  (E := offline (External "refused"))
                  demoNetwork oneFloat
                  {| Wallet_Address := "0xA"; Wallet_Name := "relay";
                     Wallet_Alert := true |}
                  start ["GET https://rpc/cosmos/bank/v1beta1/balances/0xA"]
                  (External "refused") eq_refl)).
  reflexivity.
Defined.

Lemma getCosmosBalance_find_case_witness :
  match getCosmosBalance_find
          [ {| Denom := "uatom"; Amount := "2500000" |} ] "UATOM",
        getCosmosBalance_find
          [ {| Denom := "uatom"; Amount := "2500000" |} ] "uAtom" with
  | inr balance1, inr balance2 => balance1 = balance2
  | inl err1, inl err2 =>
      err1 = NoBalanceFound "UATOM" /\ err2 = NoBalanceFound "uAtom"
  | _, _ => False
  end.
Proof.
  apply (getCosmosBalance_find_case
           [ {| Denom := "uatom"; Amount := "2500000" |} ] "UATOM" "uAtom").
  - repeat constructor.
  - repeat constructor.
  - repeat constructor.
  - reflexivity.
Defined.

Lemma getETHBalance_parse_hexQuantity_witness :
  getETHBalance_parse (hexQuantity 2000000000000000000) = inr 2000000000000000000.
Proof.
  apply (getETHBalance_parse_hexQuantity 2000000000000000000). lia.
Defined.

(** The quantity of 2 * 10^18 is the string of the specification's example. *)
Example hexQuantity_two_ether :
  hexQuantity 2000000000000000000 = "0x1bc16d674ec80000"
  /\ numeral 10 2500000 = "2500000" /\ hexQuantity 0 = "0x0".
Proof. repeat split; vm_compute; reflexivity. Qed.

Lemma getCosmosBalance_find_numeral_witness :
  getCosmosBalance_find
    [ {| Denom := "uosmo"; Amount := "7" |};
      {| Denom := "uatom"; Amount := numeral 10 2500000 |} ] "UATOM"
  = inr 2500000.
Proof.
  apply (getCosmosBalance_find_numeral
           [ {| Denom := "uosmo"; Amount := "7" |};
             {| Denom := "uatom"; Amount := numeral 10 2500000 |} ] "UATOM"
           {| Denom := "uatom"; Amount := numeral 10 2500000 |} 2500000).
  - repeat constructor.
  - repeat constructor.
  - reflexivity.
  - reflexivity.
  - lia.
Defined.

Lemma toDecimalUnit_opp_witness :
  toDecimalUnit (- 500000000000000000) 18
  = option_map Float_Neg (toDecimalUnit 500000000000000000 18).
Proof.
  apply (toDecimalUnit_opp 500000000000000000 18). lia.
Defined.

Lemma toDecimalUnit_zero_witness :
  exists f,
    toDecimalUnit 1 18 = Some f
    /\ (xeq (value f) (Fin 0) <-> 1 = 0)
    /\ (forall threshold,
           big.val threshold = big.zero ->
           exceedsBalanceThreshold f threshold = false).
Proof.
  apply (toDecimalUnit_zero 1 18).
  - lia.
  - lia.
  - vm_compute. reflexivity.
Defined.

Lemma negative_balance_alerts_witness :
  exists f,
    toDecimalUnit (-1) 18 = Some f
    /\ exceedsBalanceThreshold f (big.mkFloat 64 false big.zero) = true.
Proof.
  apply (negative_balance_alerts (-1) 18 (big.mkFloat 64 false big.zero)).
  - lia.
  - lia.
  - vm_compute. reflexivity.
  - left. reflexivity.
Defined.
